(** * oxc_traverse code generator: ancestor model and walk dispatch

    The scripts under [crates/oxc_traverse/scripts/lib] take a catalogue of AST
    types and emit three Rust modules: the [Ancestor] enum with its accessor
    structs ([generateAncestorsCode]), the [walk_*] functions
    ([generateWalkFunctionsCode]) and the [Traverse] trait
    ([generateTraverseTraitCode]).  The generators are embedded as functions
    that return the emitted Rust as syntax trees (one constructor per template
    fragment) instead of text; a small interpreter then gives the emitted
    [walk_*] functions their meaning over trees of values. *)

From Stdlib Require Import String Ascii List Bool Arith Lia.
Import ListNotations.
Set Warnings "-register-all".
Open Scope string_scope.
Open Scope list_scope.

(** ** Type catalogue *)

(** A struct field object.  [name], [type], [rawName] come from parse.mjs;
    [rawTypeName] and [innerTypeName] are read by [generateAncestorsCode];
    [offsetVarName] and [ancestorDiscriminant] are the two properties that
    [generateAncestorsCode] writes onto the field object and that
    [generateWalkForStruct] reads back ([None] is JS [undefined]). *)
Module Field.
Record t := mk {
  name : string;
  type : string;
  rawName : string;
  rawTypeName : string;
  innerTypeName : string;
  offsetVarName : option string;
  ancestorDiscriminant : option nat
}.

(** [field.offsetVarName = v] *)
Definition set_offsetVarName (v : string) (f : t) : t :=
  mk (name f) (type f) (rawName f) (rawTypeName f) (innerTypeName f)
     (Some v) (ancestorDiscriminant f).

(** [field.ancestorDiscriminant = d] *)
Definition set_ancestorDiscriminant (d : nat) (f : t) : t :=
  mk (name f) (type f) (rawName f) (rawTypeName f) (innerTypeName f)
     (offsetVarName f) (Some d).
End Field.

(** An enum variant object [{name, type, discriminant}]. *)
Module Variant.
Record t := mk {
  name : string;
  type : string;
  discriminant : option nat
}.
End Variant.

(** A catalogue entry: [{kind: 'struct', name, hasLifetime, fields}] or
    [{kind: 'enum', name, hasLifetime, variants, inherits}]. *)
Inductive TypeDef :=
| struct (name : string) (hasLifetime : bool) (fields : list Field.t)
| enum (name : string) (hasLifetime : bool) (variants : list Variant.t)
       (inherits : list string).

Definition type_name (t : TypeDef) : string :=
  match t with
  | struct n _ _ => n
  | enum n _ _ _ => n
  end.

Definition hasLifetime (t : TypeDef) : bool :=
  match t with
  | struct _ l _ => l
  | enum _ l _ _ => l
  end.

(** The catalogue is the JS object [types], keyed by type name, every entry
    carrying its own key as [name] (parse.mjs lines 47 and 65).  It is kept as
    a list in insertion order, which is the order of [Object.values(types)]. *)
Definition Types := list TypeDef.

(** [types[n]] *)
Definition lookup (types : Types) (n : string) : option TypeDef :=
  find (fun t => String.eqb (type_name t) n) types.

(** [n in types] *)
Definition inTypes (types : Types) (n : string) : bool :=
  match lookup types n with
  | Some _ => true
  | None => false
  end.

(** ** utils.mjs and the string built-in

    The helpers imported from [./utils.mjs] are not part of the sources at
    hand; the generators are parametrised over them.  They are parametrised
    as well over the one built-in they call whose meaning lies outside the
    scripts: [String.prototype.toUpperCase], the case mapping of the Unicode
    standard ([toUpperCase] of [caf\u00e9] is [CAF\u00c9], of [\u00df] is
    [SS]). *)
Class Utils := {
  typeAndWrappers : string -> string * list string;
  unwrapTypeName : string -> string;
  toTypeName : TypeDef -> string;
  camelToSnake : string -> string;
  snakeToCamel : string -> string;
  toUpperCase : string -> string
}.

(** Upper case of the letters [a] to [z], every other character kept: what
    [toUpperCase] is on a name written in ASCII. *)
Definition upper (c : ascii) : ascii :=
  let n := nat_of_ascii c in
  if ((97 <=? n)%nat && (n <=? 122)%nat)%bool then ascii_of_nat (n - 32) else c.

Fixpoint asciiUpperCase (s : string) : string :=
  match s with
  | EmptyString => EmptyString
  | String c s' => String (upper c) (asciiUpperCase s')
  end.

(** ** generateAncestorsCode (ancestor.mjs) *)

(** One generated accessor:
    [pub fn ${rawName}(&self) -> &${rawTypeName}
       { &*((self.0 as *const u8).add(${offsetVarName}) as *const ${rawTypeName}) }] *)
Record Method := mkMethod {
  method_name : string;
  method_type : string;
  method_offset : option string
}.

(** The items accumulated in [ancestorTypes]. *)
Inductive AncestorItem :=
| OffsetConst (offsetVarName typeName rawName : string)
    (* pub(crate) const ${offsetVarName}: usize = offset_of!(${typeName}, ${rawName}); *)
| WithoutStruct (structName typeName lifetime : string) (methods : list Method).
    (* pub struct ${structName}(pub(crate) *const ${typeName}${lifetime});
       impl${lifetime} ${structName} { ${methodsCode} } *)

(** One line of [enumVariants]: [${variantName}(${structName}) = ${discriminant},] *)
Record EnumVariant := mkEnumVariant {
  variantName : string;
  structName : string;
  discriminant : nat
}.

(** One function of [isFunctions]:
    [pub fn ${isName}(&self) -> bool { matches!(self, Self::A(_) | Self::B(_) ...) }] *)
Record IsFunction := mkIsFunction {
  isName : string;
  isMatches : list string
}.

(** The emitted module: [type AncestorDiscriminant = ${discriminantType}], the
    enum [Ancestor] whose first variant is [None = 0], the [is_*] functions and
    the offset constants and accessor structs. *)
Record AncestorsCode := mkAncestorsCode {
  discriminantType : string;
  ancestorEnum : list EnumVariant;
  isFunctions : list IsFunction;
  ancestorTypes : list AncestorItem
}.

(** The [let] variables of [generateAncestorsCode]. *)
Record GenState := mkGenState {
  g_enumVariants : list EnumVariant;
  g_isFunctions : list IsFunction;
  g_ancestorTypes : list AncestorItem;
  g_discriminant : nat;
  g_variantNamesForEnums : list (string * list string)
}.

(** [(m[k] || (m[k] = [])).push(v)] on an object used as an ordered map. *)
Fixpoint pushVariantName (m : list (string * list string)) (k v : string)
  : list (string * list string) :=
  match m with
  | [] => [(k, [v])]
  | (k', vs) :: m' =>
      if String.eqb k' k then (k', vs ++ [v]) :: m'
      else (k', vs) :: pushVariantName m' k v
  end.

Section Generators.
Context {U : Utils}.

(** The inner loop [for (const otherField of type.fields)]: one accessor for
    every field object other than [field] itself (object identity, here the
    position [i] in [type.fields]). *)
Fixpoint methodsCode (i : nat) (j : nat) (fields : list Field.t) : list Method :=
  match fields with
  | [] => []
  | otherField :: rest =>
      if Nat.eqb j i then methodsCode i (S j) rest
      else mkMethod (Field.rawName otherField) (Field.rawTypeName otherField)
                    (Field.offsetVarName otherField)
           :: methodsCode i (S j) rest
  end.

Definition lifetimeOf (type : TypeDef) : string :=
  if hasLifetime type then "<'a>" else "".

(** The second loop over [type.fields] (lines 23-72): [all] is [type.fields],
    [rest] the fields still to visit, [i] the position of the head of [rest].
    Returns the field objects as they are left (with [ancestorDiscriminant]
    set on the tagged ones), the updated variables and [variantNames]. *)
Fixpoint tagFields (types : Types) (type : TypeDef) (all : list Field.t)
    (i : nat) (rest : list Field.t) (st : GenState) (variantNames : list string)
  : list Field.t * GenState * list string :=
  match rest with
  | [] => ([], st, variantNames)
  | field :: rest' =>
      let fieldTypeName := Field.innerTypeName field in
      match lookup types fieldTypeName with
      | None =>
          let '(fs, st', vn) := tagFields types type all (S i) rest' st variantNames in
          (field :: fs, st', vn)
      | Some fieldType =>
          let methods := methodsCode i 0 all in
          let fieldNameCamel := snakeToCamel (Field.name field) in
          let lifetime := lifetimeOf type in
          let structName := (type_name type ++ "Without" ++ fieldNameCamel ++ lifetime)%string in
          let variantName := (type_name type ++ fieldNameCamel)%string in
          let discriminant := g_discriminant st in
          let st1 :=
            mkGenState
              (g_enumVariants st ++ [mkEnumVariant variantName structName discriminant])
              (g_isFunctions st)
              (g_ancestorTypes st
                 ++ [WithoutStruct structName (type_name type) lifetime methods])
              (S discriminant)
              (match fieldType with
               | enum _ _ _ _ =>
                   pushVariantName (g_variantNamesForEnums st) fieldTypeName variantName
               | struct _ _ _ => g_variantNamesForEnums st
               end) in
          let '(fs, st', vn) :=
            tagFields types type all (S i) rest' st1 (variantNames ++ [variantName]) in
          (Field.set_ancestorDiscriminant discriminant field :: fs, st', vn)
      end
  end.

Definition offsetVarNameOf (typeScreamingName : string) (field : Field.t) : string :=
  ("OFFSET_" ++ typeScreamingName ++ "_" ++ toUpperCase (Field.name field))%string.

(** The body of [for (const type of Object.values(types))] (lines 9-82). *)
Definition ancestorsForType (types : Types) (type : TypeDef) (st : GenState)
  : TypeDef * GenState :=
  match type with
  | enum _ _ _ _ => (type, st)
  | struct name lt fields =>
      let typeSnakeName := camelToSnake name in
      let typeScreamingName := toUpperCase typeSnakeName in
      let fields1 :=
        map (fun field =>
               Field.set_offsetVarName (offsetVarNameOf typeScreamingName field) field)
            fields in
      let consts :=
        map (fun field =>
               OffsetConst (offsetVarNameOf typeScreamingName field) name
                           (Field.rawName field))
            fields in
      let st0 :=
        mkGenState (g_enumVariants st) (g_isFunctions st)
                   (g_ancestorTypes st ++ consts) (g_discriminant st)
                   (g_variantNamesForEnums st) in
      let '(fields2, st1, variantNames) :=
        tagFields types type fields1 0 fields1 st0 [] in
      let st2 :=
        match variantNames with
        | [] => st1
        | _ :: _ =>
            mkGenState (g_enumVariants st1)
                       (g_isFunctions st1 ++ [mkIsFunction ("is_" ++ typeSnakeName)%string variantNames])
                       (g_ancestorTypes st1) (g_discriminant st1)
                       (g_variantNamesForEnums st1)
        end in
      (struct name lt fields2, st2)
  end.

Fixpoint ancestorsLoop (types : Types) (todo : list TypeDef) (st : GenState)
  : list TypeDef * GenState :=
  match todo with
  | [] => ([], st)
  | type :: todo' =>
      let '(type', st1) := ancestorsForType types type st in
      let '(done, st2) := ancestorsLoop types todo' st1 in
      (type' :: done, st2)
  end.

Definition initialState : GenState := mkGenState [] [] [] 1 [].

(** [generateAncestorsCode(types)]: the emitted module together with the
    catalogue as the call leaves it (the field objects are updated in place). *)
Definition generateAncestorsCode (types : Types) : AncestorsCode * Types :=
  let '(types', st) := ancestorsLoop types types initialState in
  let isVia :=
    map (fun '(typeName, variantNames) =>
           mkIsFunction ("is_via_" ++ camelToSnake typeName)%string variantNames)
        (g_variantNamesForEnums st) in
  let discriminantType := if (g_discriminant st <=? 256)%nat then "u8" else "u16" in
  (mkAncestorsCode discriminantType
     (mkEnumVariant "None" "" 0 :: g_enumVariants st)
     (g_isFunctions st ++ isVia)
     (g_ancestorTypes st),
   types').

End Generators.

(** ** Emitted Rust: the walk functions and the trait *)

(** Pointer expressions of the emitted code.  The casts [as *mut _] and the
    reborrows [&mut *p] do not change what is pointed at and are not kept. *)
Inductive Expr :=
| Var (x : string)
    (* node, field, item, stmts, stmt *)
| FieldPtr (offsetVarName : option string) (type : string)
    (* (node as *mut u8).add(ancestor::${offsetVarName}) as *mut ${type} *)
| Unbox (e : Expr).
    (* (&mut **e) *)

(** One arm of the [match &mut *node] of an enum's walk function:
    [E::V1(node) | E::V2(node) ... => ${fn}(traverser, ${arg} as *mut _, ctx),]
    with [(_)] in place of [(node)] when [armBinds] is [false]. *)
Record Arm := mkArm {
  armPatterns : list (string * string);
  armBinds : bool;
  armFn : string;
  armArg : Expr
}.

Inductive Stmt :=
| Hook (method : string) (arg : Expr)
    (* traverser.${method}(&mut *${arg}, ctx); *)
| PushStack (variantName structName : string)
    (* ctx.push_stack(Ancestor::${variantName}(ancestor::${structName}(node))); *)
| RetagStack (discriminant : option nat)
    (* ctx.retag_stack(${discriminant}); *)
| PopStack
    (* ctx.pop_stack(); *)
| Walk (fn : string) (arg : Expr)
    (* ${fn}(traverser, ${arg} as *mut _, ctx); *)
| IfLetSome (x : string) (e : Expr) (body : list Stmt)
    (* if let Some(${x}) = &mut *(${e}) { ${body} } *)
| ForIn (x : string) (e : Expr) (flatten : bool) (body : list Stmt)
    (* for ${x} in ${e}.iter_mut()[.flatten()] { ${body} }, ${e} dereferenced *)
| Match (e : Expr) (arms : list Arm).
    (* match &mut *${e} { ${arms} } *)

(** [pub(crate) unsafe fn ${fnName}(traverser: &mut Tr, ${fnParam}: *mut ${fnParamType},
      ctx: &mut TraverseCtx) { ${fnBody} }] *)
Record Function := mkFunction {
  fnName : string;
  fnParam : string;
  fnParamType : string;
  fnBody : list Stmt
}.

(** [fn ${tmName}(&mut self, node: &mut ${tmNodeType}, ctx: &TraverseCtx<'a>) {}]:
    a provided method with an empty body. *)
Record TraitMethod := mkTraitMethod {
  tmName : string;
  tmNodeType : string
}.

(** ** Outcome of a generator run *)

(** A generator returns its output, throws the [AssertionError] of a failed
    [assert(cond, message)], or has not returned within the given number of
    loop iterations. *)
Inductive Result (A : Type) :=
| Ok (a : A)
| AssertionError (message : string)
| OutOfFuel.
Arguments Ok {A} a.
Arguments AssertionError {A} message.
Arguments OutOfFuel {A}.

Definition bind {A B : Type} (r : Result A) (k : A -> Result B) : Result B :=
  match r with
  | Ok a => k a
  | AssertionError m => AssertionError m
  | OutOfFuel => OutOfFuel
  end.

Notation "x <- r ;; k" := (bind r (fun x => k))
  (at level 61, r at next level, right associativity).
Notation "' p <- r ;; k" := (bind r (fun p => k))
  (at level 61, p pattern, r at next level, right associativity).

(** [assert(cond, message)] *)
Definition assert (cond : bool) (message : string) : Result unit :=
  if cond then Ok tt else AssertionError message.

(** [array.map((x, index) => f(x, index))] for a callback that may throw. *)
Fixpoint mapIndexed {A B : Type} (f : A -> nat -> Result B) (index : nat) (l : list A)
  : Result (list B) :=
  match l with
  | [] => Ok []
  | x :: l' =>
      y <- f x index ;;
      ys <- mapIndexed f (S index) l' ;;
      Ok (y :: ys)
  end.

(** [wrappers[0] === w] *)
Definition firstIs (wrappers : list string) (w : string) : bool :=
  match wrappers with
  | w0 :: _ => String.eqb w0 w
  | [] => false
  end.

Definition fieldsOf (type : TypeDef) : list Field.t :=
  match type with
  | struct _ _ fields => fields
  | enum _ _ _ _ => []
  end.

Definition variantsOf (type : TypeDef) : list Variant.t :=
  match type with
  | enum _ _ variants _ => variants
  | struct _ _ _ => []
  end.

Definition inheritsOf (type : TypeDef) : list string :=
  match type with
  | enum _ _ _ inherits => inherits
  | struct _ _ _ => []
  end.

Section WalkGenerators.
Context {U : Utils}.

(** *** generateWalkForStruct (walk.mjs lines 184-296) *)

Definition walkFnName (typeName : string) : string :=
  ("walk_" ++ camelToSnake typeName)%string.

(** The callback of [visitedFields.map((field, index) => ...)]: the statements
    emitted for one visited field. *)
Definition fieldCodeFor (field : Field.t) (index : nat) : Result (list Stmt) :=
  let '(fieldTypeName, fieldTypeWrappers) := typeAndWrappers (Field.type field) in
  let retagCode :=
    if Nat.eqb index 0 then [] else [RetagStack (Field.ancestorDiscriminant field)] in
  let fieldCode := FieldPtr (Field.offsetVarName field) (Field.type field) in
  if firstIs fieldTypeWrappers "Option" then
    let remainingWrappers := tl fieldTypeWrappers in
    walkCode <-
      (if Nat.eqb (length remainingWrappers) 1 && firstIs remainingWrappers "Vec" then
         if String.eqb fieldTypeName "Statement" then
           Ok [Walk "walk_statements" (Var "field")]
         else
           Ok [ForIn "item" (Var "field") false
                 [Walk (walkFnName fieldTypeName) (Var "item")]]
       else if Nat.eqb (length remainingWrappers) 1 && firstIs remainingWrappers "Box" then
         Ok [Walk (walkFnName fieldTypeName) (Unbox (Var "field"))]
       else
         _ <- assert (Nat.eqb (length remainingWrappers) 0)
                ("Cannot handle struct field with type " ++ Field.type field)%string ;;
         Ok [Walk (walkFnName fieldTypeName) (Var "field")]) ;;
    Ok [IfLetSome "field" fieldCode (retagCode ++ walkCode)]
  else if firstIs fieldTypeWrappers "Vec" then
    let remainingWrappers := tl fieldTypeWrappers in
    walkVecCode <-
      (if Nat.eqb (length remainingWrappers) 0 && String.eqb fieldTypeName "Statement" then
         Ok [Walk "walk_statements" fieldCode]
       else
         iterModifier <-
           (if Nat.eqb (length remainingWrappers) 1 && firstIs remainingWrappers "Option" then
              Ok true
            else
              _ <- assert (Nat.eqb (length remainingWrappers) 0)
                     ("Cannot handle struct field with type " ++ Field.type field)%string ;;
              Ok false) ;;
         Ok [ForIn "item" fieldCode iterModifier
               [Walk (walkFnName fieldTypeName) (Var "item")]]) ;;
    Ok (retagCode ++ walkVecCode)
  else if Nat.eqb (length fieldTypeWrappers) 1 && firstIs fieldTypeWrappers "Box" then
    Ok (retagCode ++ [Walk (walkFnName fieldTypeName) (Unbox fieldCode)])
  else
    _ <- assert (Nat.eqb (length fieldTypeWrappers) 0)
           ("Cannot handle struct field with type: " ++ Field.type field)%string ;;
    Ok (retagCode ++ [Walk (walkFnName fieldTypeName) fieldCode]).

(** [type.fields.filter(field => unwrapTypeName(field.type) in types)] *)
Definition visitedFields (type : TypeDef) (types : Types) : list Field.t :=
  filter (fun field => inTypes types (unwrapTypeName (Field.type field))) (fieldsOf type).

Definition generateWalkForStruct (type : TypeDef) (types : Types) : Result Function :=
  let visitedFields := visitedFields type types in
  fieldsCodes <- mapIndexed fieldCodeFor 0 visitedFields ;;
  let fieldsCodes :=
    match visitedFields with
    | field :: _ =>
        let fieldCamelName := snakeToCamel (Field.name field) in
        [PushStack (type_name type ++ fieldCamelName)%string
                   (type_name type ++ "Without" ++ fieldCamelName)%string]
          :: fieldsCodes ++ [[PopStack]]
    | [] => fieldsCodes
    end in
  let snakeName := camelToSnake (type_name type) in
  Ok (mkFunction ("walk_" ++ snakeName)%string "node" (toTypeName type)
        (Hook ("enter_" ++ snakeName)%string (Var "node")
           :: concat fieldsCodes
           ++ [Hook ("exit_" ++ snakeName)%string (Var "node")])).

(** *** generateWalkForEnum (walk.mjs lines 298-355) *)

(** The callback of [type.variants.map(variant => ...)]. *)
Definition variantCodeFor (type : TypeDef) (types : Types) (variant : Variant.t) (_ : nat)
  : Result Arm :=
  let '(variantTypeName, fieldTypeWrappers) := typeAndWrappers (Variant.type variant) in
  let variantType := lookup types variantTypeName in
  _ <- assert (match variantType with Some _ => true | None => false end)
         ("Cannot handle enum variant with type: " ++ Variant.type variant)%string ;;
  nodeCode <-
    (if Nat.eqb (length fieldTypeWrappers) 1 && firstIs fieldTypeWrappers "Box" then
       Ok (Unbox (Var "node"))
     else
       _ <- assert (Nat.eqb (length fieldTypeWrappers) 0)
              ("Cannot handle enum variant with type: " ++ Variant.type variant)%string ;;
       Ok (Var "node")) ;;
  Ok (mkArm [(type_name type, Variant.name variant)] true
            (walkFnName variantTypeName) nodeCode).

(** The loop [for (let i = 0; i < inheritedFrom.length; i++)] (lines 320-331):
    [pending] is the part of [inheritedFrom] from position [i] on.  The array
    grows while it is walked, so the loop need not end; [fuel] bounds the
    number of iterations. *)
Fixpoint inheritedLoop (fuel : nat) (types : Types) (typeName : string)
    (pending : list string) (variantMatches : list (string * string))
    (missingVariants : list string)
  : Result (list (string * string) * list string) :=
  match pending with
  | [] => Ok (variantMatches, missingVariants)
  | inheritedTypeName :: pending' =>
      match fuel with
      | 0 => OutOfFuel
      | S fuel' =>
          match lookup types inheritedTypeName with
          | Some (enum _ _ variants inherits) =>
              inheritedLoop fuel' types typeName (pending' ++ inherits)
                (variantMatches
                   ++ map (fun variant => (typeName, Variant.name variant)) variants)
                missingVariants
          | _ =>
              inheritedLoop fuel' types typeName pending' variantMatches
                (missingVariants ++ [inheritedTypeName])
          end
      end
  end.

(** The loop [for (const inheritedTypeName of type.inherits)] (lines 316-337). *)
Fixpoint inheritedArms (fuel : nat) (types : Types) (typeName : string)
    (inherits : list string) (missingVariants : list string)
  : Result (list Arm * list string) :=
  match inherits with
  | [] => Ok ([], missingVariants)
  | inheritedTypeName :: rest =>
      '(variantMatches, missingVariants) <-
         inheritedLoop fuel types typeName [inheritedTypeName] [] missingVariants ;;
      '(arms, missingVariants) <-
         inheritedArms fuel types typeName rest missingVariants ;;
      Ok (mkArm variantMatches false (walkFnName inheritedTypeName) (Var "node") :: arms,
          missingVariants)
  end.

Definition generateWalkForEnum (fuel : nat) (type : TypeDef) (types : Types)
  : Result Function :=
  variantCodes <- mapIndexed (variantCodeFor type types) 0 (variantsOf type) ;;
  '(inherited, missingVariants) <-
     inheritedArms fuel types (type_name type) (inheritsOf type) [] ;;
  let variantCodes := variantCodes ++ inherited in
  _ <- assert (Nat.eqb (length missingVariants) 0)
         ("Missing enum variants: " ++ String.concat ", " missingVariants)%string ;;
  let snakeName := camelToSnake (type_name type) in
  Ok (mkFunction ("walk_" ++ snakeName)%string "node" (toTypeName type)
        [Hook ("enter_" ++ snakeName)%string (Var "node");
         Match (Var "node") variantCodes;
         Hook ("exit_" ++ snakeName)%string (Var "node")]).

(** *** generateWalkFunctionsCode (walk.mjs lines 140-182) *)

Definition walk_statements : Function :=
  mkFunction "walk_statements" "stmts" "Vec<'a, Statement<'a>>"
    [Hook "enter_statements" (Var "stmts");
     ForIn "stmt" (Var "stmts") false [Walk "walk_statement" (Var "stmt")];
     Hook "exit_statements" (Var "stmts")].

Fixpoint walkMethods (fuel : nat) (todo : list TypeDef) (types : Types)
  : Result (list Function) :=
  match todo with
  | [] => Ok []
  | type :: todo' =>
      f <- match type with
           | struct _ _ _ => generateWalkForStruct type types
           | enum _ _ _ _ => generateWalkForEnum fuel type types
           end ;;
      fs <- walkMethods fuel todo' types ;;
      Ok (f :: fs)
  end.

Definition generateWalkFunctionsCode (fuel : nat) (types : Types) : Result (list Function) :=
  walkMethods <- walkMethods fuel types types ;;
  Ok (walkMethods ++ [walk_statements]).

(** *** generateTraverseTraitCode (traverse.mjs) *)

Definition generateTraverseTraitCode (types : Types) : list TraitMethod :=
  flat_map (fun type =>
              let snakeName := camelToSnake (type_name type) in
              let ty := toTypeName type in
              [mkTraitMethod ("enter_" ++ snakeName)%string ty;
               mkTraitMethod ("exit_" ++ snakeName)%string ty])
           types
  ++ [mkTraitMethod "enter_statements" "Vec<'a, Statement<'a>>";
      mkTraitMethod "exit_statements" "Vec<'a, Statement<'a>>"].

End WalkGenerators.

(** ** A concrete [Utils] and a small catalogue for the worked examples *)

Module Sample.

(** Splits [Option<Vec<T>>] at every [<] and drops the closing [>]s. *)
Fixpoint segments (s : string) (cur : string) : list string :=
  match s with
  | EmptyString => [cur]
  | String c s' =>
      if Ascii.eqb c "<"%char then cur :: segments s' EmptyString
      else if Ascii.eqb c ">"%char then segments s' cur
      else segments s' (cur ++ String c EmptyString)%string
  end.

Definition lower (c : ascii) : ascii :=
  let n := nat_of_ascii c in
  if ((65 <=? n)%nat && (n <=? 90)%nat)%bool then ascii_of_nat (n + 32) else c.

Definition isUpper (c : ascii) : bool :=
  let n := nat_of_ascii c in ((65 <=? n)%nat && (n <=? 90)%nat)%bool.

Fixpoint snakeTail (s : string) : string :=
  match s with
  | EmptyString => EmptyString
  | String c s' =>
      if isUpper c then String "_"%char (String (lower c) (snakeTail s'))
      else String c (snakeTail s')
  end.

Fixpoint camel (up : bool) (s : string) : string :=
  match s with
  | EmptyString => EmptyString
  | String c s' =>
      if Ascii.eqb c "_"%char then camel true s'
      else String (if up then upper c else c) (camel false s')
  end.

(** Modelled from the spec: utils.mjs is missing from the sources.  The
    wrapper chain of [Option<Sequence<T>>] is [[Option, Sequence]] over [T];
    a type is written with its lifetime parameter when it has one; the
    snake-case and camel-case names are those the generated identifiers show
    ([walk_statement] for [Statement], [BinaryExpressionLeft] for the field
    [left] of [BinaryExpression]).  The names of the sample catalogues are
    written in ASCII, where [toUpperCase] maps [a] to [z] to [A] to [Z] and
    keeps the rest. *)
#[export] Instance utils : Utils := {|
  typeAndWrappers := fun s =>
    let segs := segments s EmptyString in (last segs EmptyString, removelast segs);
  unwrapTypeName := fun s => last (segments s EmptyString) EmptyString;
  toTypeName := fun t => (type_name t ++ (if hasLifetime t then "<'a>" else ""))%string;
  camelToSnake := fun s =>
    match s with
    | EmptyString => EmptyString
    | String c s' => String (lower c) (snakeTail s')
    end;
  snakeToCamel := camel true;
  toUpperCase := asciiUpperCase
|}.

Definition field (name type : string) : Field.t :=
  Field.mk name type name type (unwrapTypeName type) None None.

(** [struct BinaryExpression { span: Span, left: Expression, operator: BinaryOperator,
      right: Expression }], with an enum [Expression] of two variants, one of
    them inherited from [MemberExpression]. *)
Definition types : Types :=
  [ struct "BinaryExpression" true
      [field "span" "Span"; field "left" "Expression";
       field "operator" "BinaryOperator"; field "right" "Expression"];
    struct "NumericLiteral" false [field "span" "Span"; field "value" "f64"];
    struct "StaticMemberExpression" true
      [field "span" "Span"; field "object" "Expression"; field "optional" "bool"];
    enum "MemberExpression" true
      [Variant.mk "StaticMemberExpression" "Box<StaticMemberExpression>" (Some 49)] [];
    enum "Expression" true
      [Variant.mk "NumericLiteral" "Box<NumericLiteral>" (Some 2);
       Variant.mk "BinaryExpression" "Box<BinaryExpression>" (Some 10)]
      ["MemberExpression"] ].

End Sample.

(** ** Vocabulary of the statements about the ancestor model *)

Section AncestorModel.
Context {U : Utils}.

(** The variant name of the tag for [field] of the struct [typeName]. *)
Definition tagName (typeName : string) (field : Field.t) : string :=
  (typeName ++ snakeToCamel (Field.name field))%string.

(** A field receives a tag when its inner type is catalogued. *)
Definition tagged (types : Types) (field : Field.t) : bool :=
  inTypes types (Field.innerTypeName field).

(** The tags of the catalogue in declaration order: struct by struct, field
    by field. *)
Definition tagNames (types : Types) (todo : list TypeDef) : list string :=
  flat_map (fun type =>
              map (tagName (type_name type)) (filter (tagged types) (fieldsOf type)))
           todo.

(** The names of a list are pairwise distinct. *)
Fixpoint distinct (l : list string) : bool :=
  match l with
  | [] => true
  | x :: l' => negb (existsb (String.eqb x) l') && distinct l'
  end.

(** The names of the emitted offset constants. *)
Definition constNames (items : list AncestorItem) : list string :=
  flat_map (fun item =>
              match item with
              | OffsetConst c _ _ => [c]
              | WithoutStruct _ _ _ _ => []
              end)
           items.

(** [fields] without the field at position [g]. *)
Fixpoint removeAt {A : Type} (g : nat) (l : list A) : list A :=
  match l, g with
  | [], _ => []
  | _ :: l', 0 => l'
  | x :: l', S g' => x :: removeAt g' l'
  end.

(** The value of the constant [c] among the emitted
    [const c: usize = offset_of!(T, f)] items.  [offset_of] stands for
    [memoffset::offset_of!(Type, field)], the byte offset of a field in the
    layout of its struct, which the Rust compiler fixes. *)
Fixpoint constValue (offset_of : string -> string -> nat)
    (items : list AncestorItem) (c : string) : option nat :=
  match items with
  | [] => None
  | OffsetConst c' typeName rawName :: items' =>
      if String.eqb c' c then Some (offset_of typeName rawName)
      else constValue offset_of items' c
  | WithoutStruct _ _ _ _ :: items' => constValue offset_of items' c
  end.

(** The address returned by an accessor on a tag whose pointer [self.0] is
    [base]: [(self.0 as *const u8).add(${offsetVarName})]. *)
Definition accessorAddress (offset_of : string -> string -> nat)
    (items : list AncestorItem) (base : nat) (m : Method) : option nat :=
  match method_offset m with
  | Some c =>
      match constValue offset_of items c with
      | Some offset => Some (base + offset)
      | None => None
      end
  | None => None
  end.

(** The accessor emitted for [otherField]. *)
Definition accessorOf (otherField : Field.t) : Method :=
  mkMethod (Field.rawName otherField) (Field.rawTypeName otherField)
           (Field.offsetVarName otherField).

(** The name of the accessor struct of the tag for [field]. *)
Definition withoutStructName (type : TypeDef) (field : Field.t) : string :=
  (type_name type ++ "Without" ++ snakeToCamel (Field.name field) ++ lifetimeOf type)%string.

(** The field objects of a struct once their [offsetVarName] is set. *)
Definition withOffsets (name : string) (fields : list Field.t) : list Field.t :=
  map (fun field =>
         Field.set_offsetVarName
           (offsetVarNameOf (toUpperCase (camelToSnake name)) field) field)
      fields.

End AncestorModel.

(** The accessors of the tag [BinaryExpressionRight], for a node at address
    4096 and a layout that places the fields at 0, 8, 24 and 32. *)
Definition sampleOffsets (typeName rawName : string) : nat :=
  if String.eqb rawName "span" then 0
  else if String.eqb rawName "left" then 8
  else if String.eqb rawName "operator" then 24
  else 32.

(** ** Vocabulary of the statements about the walk functions *)

(** The wrapper chains [fieldCodeFor] has a branch for. *)
Inductive FieldShape :=
| Plain      (* T *)
| Boxed      (* Box<T> *)
| Opt        (* Option<T> *)
| OptVec     (* Option<Vec<T>> *)
| OptBox     (* Option<Box<T>> *)
| Seq        (* Vec<T> *)
| SeqOpt.    (* Vec<Option<T>> *)

Definition shapeOf (wrappers : list string) : option FieldShape :=
  match wrappers with
  | [] => Some Plain
  | [w] =>
      if String.eqb w "Option" then Some Opt
      else if String.eqb w "Vec" then Some Seq
      else if String.eqb w "Box" then Some Boxed
      else None
  | [w1; w2] =>
      if String.eqb w1 "Option" then
        if String.eqb w2 "Vec" then Some OptVec
        else if String.eqb w2 "Box" then Some OptBox
        else None
      else if String.eqb w1 "Vec" then
        if String.eqb w2 "Option" then Some SeqOpt else None
      else None
  | _ => None
  end.

(** The operations of a statement list in program order, control flow
    flattened. *)
Inductive Op :=
| OpHook (method : string)
| OpPush (variantName : string)
| OpRetag (discriminant : option nat)
| OpPop
| OpWalk (fn : string).

Fixpoint opsOf (s : Stmt) : list Op :=
  match s with
  | Hook m _ => [OpHook m]
  | PushStack v _ => [OpPush v]
  | RetagStack d => [OpRetag d]
  | PopStack => [OpPop]
  | Walk fn _ => [OpWalk fn]
  | IfLetSome _ _ body => flat_map opsOf body
  | ForIn _ _ _ body => flat_map opsOf body
  | Match _ arms => map (fun arm => OpWalk (armFn arm)) arms
  end.

Definition isStackOp (o : Op) : bool :=
  match o with
  | OpPush _ | OpRetag _ | OpPop => true
  | OpHook _ | OpWalk _ => false
  end.

(** The pushes, retags and pops a function body contains. *)
Definition stackOps (body : list Stmt) : list Op :=
  filter isStackOp (flat_map opsOf body).

(** [match]: the first arm one of whose patterns names the variant. *)
Definition armMatches (variant : string) (arm : Arm) : bool :=
  existsb (fun p => String.eqb (snd p) variant) (armPatterns arm).

Definition dispatch (arms : list Arm) (variant : string) : option Arm :=
  find (armMatches variant) arms.

Section WalkModel.
Context {U : Utils}.

(** The statements [fieldCodeFor] emits for a field of element type
    [fieldTypeName] with a wrapper chain of the given shape. *)
Definition fieldStmts (shape : FieldShape) (fieldTypeName : string)
    (retagCode : list Stmt) (fieldCode : Expr) : list Stmt :=
  let walk arg := Walk (walkFnName fieldTypeName) arg in
  match shape with
  | Plain => retagCode ++ [walk fieldCode]
  | Boxed => retagCode ++ [walk (Unbox fieldCode)]
  | Opt => [IfLetSome "field" fieldCode (retagCode ++ [walk (Var "field")])]
  | OptBox => [IfLetSome "field" fieldCode (retagCode ++ [walk (Unbox (Var "field"))])]
  | OptVec =>
      [IfLetSome "field" fieldCode
         (retagCode
            ++ (if String.eqb fieldTypeName "Statement"
                then [Walk "walk_statements" (Var "field")]
                else [ForIn "item" (Var "field") false [walk (Var "item")]]))]
  | Seq =>
      retagCode
        ++ (if String.eqb fieldTypeName "Statement"
            then [Walk "walk_statements" fieldCode]
            else [ForIn "item" fieldCode false [walk (Var "item")]])
  | SeqOpt => retagCode ++ [ForIn "item" fieldCode true [walk (Var "item")]]
  end.

(** [retagCode] and [fieldCode] of [fieldCodeFor]. *)
Definition retagCodeOf (field : Field.t) (index : nat) : list Stmt :=
  if Nat.eqb index 0 then [] else [RetagStack (Field.ancestorDiscriminant field)].

Definition fieldCodeOf (field : Field.t) : Expr :=
  FieldPtr (Field.offsetVarName field) (Field.type field).

(** The walk function a visited field is handed to. *)
Definition fieldTarget (field : Field.t) : string :=
  let '(fieldTypeName, wrappers) := typeAndWrappers (Field.type field) in
  match shapeOf wrappers with
  | Some OptVec | Some Seq =>
      if String.eqb fieldTypeName "Statement" then "walk_statements"
      else walkFnName fieldTypeName
  | _ => walkFnName fieldTypeName
  end.

(** The operations emitted for the visited field at position [index]. *)
Definition fieldOps (field : Field.t) (index : nat) : list Op :=
  (if Nat.eqb index 0 then [] else [OpRetag (Field.ancestorDiscriminant field)])
    ++ [OpWalk (fieldTarget field)].

End WalkModel.

(** A struct with a field of type [Vec<Box<Expression>>], added to the sample
    catalogue. *)
Definition boxedElements : TypeDef :=
  struct "ArrayExpression" true
    [Sample.field "span" "Span"; Sample.field "elements" "Vec<Box<Expression>>"].

Definition boxedElementsTypes : Types := boxedElements :: Sample.types.

(** A generator run that produced no output: it threw or did not return. *)
Definition failed {A : Type} (r : Result A) : Prop :=
  match r with
  | Ok _ => False
  | AssertionError _ => True
  | OutOfFuel => True
  end.

(** [n] names a catalogued enum. *)
Definition isEnum (types : Types) (n : string) : bool :=
  match lookup types n with
  | Some (enum _ _ _ _) => true
  | _ => false
  end.


Section EnumModel.
Context {U : Utils}.

(** The arm [variantCodeFor] emits for a variant the enum lists itself. *)
Definition ownArm (typeName : string) (variant : Variant.t) : Arm :=
  let '(variantTypeName, wrappers) := typeAndWrappers (Variant.type variant) in
  mkArm [(typeName, Variant.name variant)] true (walkFnName variantTypeName)
        (match wrappers with
         | [] => Var "node"
         | _ :: _ => Unbox (Var "node")
         end).

(** The arm emitted for an inherited enum, given the patterns collected for it. *)
Definition inheritedArm (base : string) (variantMatches : list (string * string)) : Arm :=
  mkArm variantMatches false (walkFnName base) (Var "node").

(** [d] is [n] itself or an enum [n] inherits from, directly or through other
    catalogued enums. *)
Inductive inheritsFrom (types : Types) : string -> string -> Prop :=
| inheritsFrom_refl (n : string) :
    isEnum types n = true -> inheritsFrom types n n
| inheritsFrom_step (n b d name : string) (lt : bool) (variants : list Variant.t)
    (inherits : list string) :
    lookup types n = Some (enum name lt variants inherits) ->
    In b inherits ->
    inheritsFrom types b d ->
    inheritsFrom types n d.

(** The catalogued enum [d] lists a variant named [variant] itself. *)
Definition declares (types : Types) (d variant : string) : Prop :=
  exists name lt variants inherits,
    lookup types d = Some (enum name lt variants inherits)
    /\ In variant (map Variant.name variants).

(** The enums reachable from [n] by inheritance form a finite tree: the loop
    of [generateWalkForEnum] over them ends. *)
Inductive finiteInherits (types : Types) : string -> Prop :=
| finite_leaf (n : string) :
    isEnum types n = false -> finiteInherits types n
| finite_node (n name : string) (lt : bool) (variants : list Variant.t)
    (inherits : list string) :
    lookup types n = Some (enum name lt variants inherits) ->
    (forall b, In b inherits -> finiteInherits types b) ->
    finiteInherits types n.

End EnumModel.

(** * Meaning of the emitted code *)

(** ** Trees *)

(** What the pointers of the emitted code point at.  A struct is the map from
    the offsets at which its fields lie, each named by its offset constant, to
    the values stored there; an enum value is its variant and payload (the
    enums that inherit variants from one another share their representation,
    so the cast of an enum pointer to an inherited enum leaves the value as it
    is); a [Leaf] is a value of a type outside the catalogue. *)
Inductive Value :=
| Leaf (n : nat)
| StructV (fields : list (string * Value))
| EnumV (variant : string) (payload : Value)
| NoneV
| SomeV (v : Value)
| VecV (items : list Value)
| BoxV (v : Value).

(** ** Traversal state *)

(** What a run of a walk function leaves behind it, in order. *)
Inductive Event :=
| EvHook (method : string)
| EvPush (discriminant : nat)
| EvRetag (discriminant : nat)
| EvPop.

(** The ancestor stack.  An entry is kept as its discriminant; the pointer it
    carries is not represented. *)
Definition AncestorStack := list nat.

(** The visitor's own state and the ancestor stack of the context. *)
Record State (S : Type) := mkState {
  visitor : S;
  stack : AncestorStack
}.
Arguments mkState {S} visitor stack.
Arguments visitor {S} s.
Arguments stack {S} s.

(** A [Traverse] method as a visitor implements it: it may change the
    visitor and the node and reads the context
    ([fn enter_x(&mut self, node: &mut X, ctx: &TraverseCtx)]). *)
Definition HookFn (S : Type) := S -> Value -> AncestorStack -> S * Value.

Notation "x <-? r ;; k" := (match r with Some x => k | None => None end)
  (at level 61, r at next level, right associativity).
Notation "' p <-? r ;; k" := (match r with Some p => k | None => None end)
  (at level 61, p pattern, r at next level, right associativity).

(** Local variables and struct fields: the first binding of a name. *)
Fixpoint assoc (x : string) (l : list (string * Value)) : option Value :=
  match l with
  | [] => None
  | (y, v) :: l' => if String.eqb y x then Some v else assoc x l'
  end.

Fixpoint assocSet (x : string) (v : Value) (l : list (string * Value))
  : option (list (string * Value)) :=
  match l with
  | [] => None
  | (y, w) :: l' =>
      if String.eqb y x then Some ((y, v) :: l')
      else l'' <-? assocSet x v l' ;; Some ((y, w) :: l'')
  end.

Definition Env := list (string * Value).

(** The value a pointer expression points at. *)
Fixpoint readPlace (env : Env) (e : Expr) : option Value :=
  match e with
  | Var x => assoc x env
  | FieldPtr (Some offset) _ =>
      match assoc "node" env with
      | Some (StructV fields) => assoc offset fields
      | _ => None
      end
  | FieldPtr None _ => None
  | Unbox e' =>
      match readPlace env e' with
      | Some (BoxV v) => Some v
      | _ => None
      end
  end.

(** Storing through a pointer expression. *)
Fixpoint writePlace (env : Env) (e : Expr) (v : Value) : option Env :=
  match e with
  | Var x => assocSet x v env
  | FieldPtr (Some offset) _ =>
      match assoc "node" env with
      | Some (StructV fields) =>
          fields' <-? assocSet offset v fields ;;
          assocSet "node" (StructV fields') env
      | _ => None
      end
  | FieldPtr None _ => None
  | Unbox e' =>
      match readPlace env e' with
      | Some (BoxV _) => writePlace env e' (BoxV v)
      | _ => None
      end
  end.

(** [Ancestor::${variantName}(..)]: the discriminant the enum [Ancestor]
    declares for the variant. *)
Definition discriminantOf (ancestor : list EnumVariant) (variant : string) : option nat :=
  option_map discriminant
    (find (fun ev => String.eqb (variantName ev) variant) ancestor).

(** The function of that name among the emitted ones. *)
Definition findFn (fn : string) (program : list Function) : option Function :=
  find (fun f => String.eqb (fnName f) fn) program.

Section Semantics.
Context {S : Type}.

(** The emitted [Ancestor] enum, the methods of the emitted [Traverse] trait
    and the methods the visitor implements itself. *)
Context (ancestor : list EnumVariant) (trait : list TraitMethod)
        (impl : string -> option (HookFn S)).

(** [traverser.${method}(&mut *node, ctx)]: the visitor's own method, or the
    trait's provided one, whose body is empty. *)
Definition callHook (method : string) (v : Value) (st : State S)
  : option (Value * State S * list Event) :=
  if existsb (fun tm => String.eqb (tmName tm) method) trait then
    match impl method with
    | Some hook =>
        let '(s', v') := hook (visitor st) v (stack st) in
        Some (v', mkState s' (stack st), [EvHook method])
    | None => Some (v, st, [EvHook method])
    end
  else None.

(** Modelled from the spec: [TraverseCtx::push_stack], [retag_stack] and
    [pop_stack] are missing from the sources.  A push puts the entry on top
    of the stack, a retag changes the tag of the top entry in place, a pop
    removes the top entry. *)
Definition push_stack (d : nat) (st : State S) : State S :=
  mkState (visitor st) (d :: stack st).

Definition retag_stack (d : nat) (st : State S) : option (State S) :=
  match stack st with
  | _ :: rest => Some (mkState (visitor st) (d :: rest))
  | [] => None
  end.

Definition pop_stack (st : State S) : option (State S) :=
  match stack st with
  | _ :: rest => Some (mkState (visitor st) rest)
  | [] => None
  end.

Definition Outcome : Type := Env * State S * list Event.

Section Blocks.
Context (run : Stmt -> Env -> State S -> option Outcome).

(** A sequence of statements. *)
Fixpoint runBlock (body : list Stmt) (env : Env) (st : State S) : option Outcome :=
  match body with
  | [] => Some (env, st, [])
  | s :: body' =>
      '(env1, st1, tr1) <-? run s env st ;;
      '(env2, st2, tr2) <-? runBlock body' env1 st1 ;;
      Some (env2, st2, tr1 ++ tr2)
  end.
End Blocks.

(** A block with [x] bound to [v]; returns what [x] is bound to afterwards. *)
Definition scoped (block : Env -> State S -> option Outcome) (x : string) (v : Value)
    (env : Env) (st : State S) : option (Value * Env * State S * list Event) :=
  match block ((x, v) :: env) st with
  | Some ((_, v') :: env', st', tr) => Some (v', env', st', tr)
  | _ => None
  end.

(** [for x in items.iter_mut()], with [.flatten()] skipping the [None]s. *)
Fixpoint forEach (block : Env -> State S -> option Outcome) (x : string) (flatten : bool)
    (items : list Value) (env : Env) (st : State S)
  : option (list Value * Env * State S * list Event) :=
  match items with
  | [] => Some ([], env, st, [])
  | item :: rest =>
      if flatten then
        match item with
        | NoneV =>
            '(rest', env', st', tr) <-? forEach block x flatten rest env st ;;
            Some (NoneV :: rest', env', st', tr)
        | SomeV v =>
            '(v', env1, st1, tr1) <-? scoped block x v env st ;;
            '(rest', env2, st2, tr2) <-? forEach block x flatten rest env1 st1 ;;
            Some (SomeV v' :: rest', env2, st2, tr1 ++ tr2)
        | _ => None
        end
      else
        '(v', env1, st1, tr1) <-? scoped block x item env st ;;
        '(rest', env2, st2, tr2) <-? forEach block x flatten rest env1 st1 ;;
        Some (v' :: rest', env2, st2, tr1 ++ tr2)
  end.

Section Statements.

(** How a call of a walk function runs: the value pointed at before, then
    the value after, the state and the events. *)
Context (callFn : string -> Value -> State S -> option (Value * State S * list Event)).

(** [${fn}(traverser, ${arg}, ctx)] *)
Definition walkCall (fn : string) (arg : Expr) (env : Env) (st : State S)
  : option Outcome :=
  v <-? readPlace env arg ;;
  '(v', st', tr) <-? callFn fn v st ;;
  env' <-? writePlace env arg v' ;;
  Some (env', st', tr).

Fixpoint exec (s : Stmt) (env : Env) (st : State S) {struct s} : option Outcome :=
  match s with
  | Hook method arg =>
      v <-? readPlace env arg ;;
      '(v', st', tr) <-? callHook method v st ;;
      env' <-? writePlace env arg v' ;;
      Some (env', st', tr)
  | PushStack variant _ =>
      d <-? discriminantOf ancestor variant ;;
      Some (env, push_stack d st, [EvPush d])
  | RetagStack (Some d) =>
      st' <-? retag_stack d st ;;
      Some (env, st', [EvRetag d])
  | RetagStack None => None
  | PopStack =>
      st' <-? pop_stack st ;;
      Some (env, st', [EvPop])
  | Walk fn arg => walkCall fn arg env st
  | IfLetSome x e body =>
      match readPlace env e with
      | Some NoneV => Some (env, st, [])
      | Some (SomeV v) =>
          '(v', env1, st1, tr) <-? scoped (runBlock exec body) x v env st ;;
          env2 <-? writePlace env1 e (SomeV v') ;;
          Some (env2, st1, tr)
      | _ => None
      end
  | ForIn x e flatten body =>
      match readPlace env e with
      | Some (VecV items) =>
          '(items', env1, st1, tr) <-? forEach (runBlock exec body) x flatten items env st ;;
          env2 <-? writePlace env1 e (VecV items') ;;
          Some (env2, st1, tr)
      | _ => None
      end
  | Match e arms =>
      match readPlace env e with
      | Some (EnumV variant payload) =>
          arm <-? dispatch arms variant ;;
          if armBinds arm then
            '(payload', env1, st1, tr) <-?
               scoped (walkCall (armFn arm) (armArg arm)) "node" payload env st ;;
            env2 <-? writePlace env1 e (EnumV variant payload') ;;
            Some (env2, st1, tr)
          else walkCall (armFn arm) (armArg arm) env st
      | _ => None
      end
  end.

End Statements.

(** A call of an emitted function on the value its pointer argument points
    at; [fuel] bounds the depth of nested calls. *)
Fixpoint call (program : list Function) (fuel : nat) (fn : string) (v : Value)
    (st : State S) : option (Value * State S * list Event) :=
  match fuel with
  | 0 => None
  | Datatypes.S fuel' =>
      f <-? findFn fn program ;;
      '(v', _, st', tr) <-?
         scoped (runBlock (exec (call program fuel')) (fnBody f)) (fnParam f) v [] st ;;
      Some (v', st', tr)
  end.

End Semantics.

(** ** Worked example: a struct whose first visited field is optional *)

(** [struct ReturnStatement { span: Span, argument: Option<Expression> }] added
    to the sample catalogue, the three generators run on it, and a
    [return;] node, whose [argument] is [None]. *)
Definition returnTypes : Types :=
  struct "ReturnStatement" true
    [Sample.field "span" "Span"; Sample.field "argument" "Option<Expression>"]
  :: Sample.types.

Definition returnAncestors : AncestorsCode :=
  Eval vm_compute in fst (generateAncestorsCode (U := Sample.utils) returnTypes).

Definition returnAnnotated : Types :=
  Eval vm_compute in snd (generateAncestorsCode (U := Sample.utils) returnTypes).

Definition returnProgram : list Function :=
  Eval vm_compute in
  match generateWalkFunctionsCode (U := Sample.utils) 8 returnAnnotated with
  | Ok program => program
  | _ => []
  end.

Definition argumentField : Field.t :=
  Field.mk "argument" "Option<Expression>" "argument" "Option<Expression>" "Expression"
           (Some "OFFSET_RETURN_STATEMENT_ARGUMENT") (Some 1).

Definition returnTrait : list TraitMethod :=
  Eval vm_compute in generateTraverseTraitCode (U := Sample.utils) returnAnnotated.

Definition bareReturn : Value :=
  StructV [("OFFSET_RETURN_STATEMENT_SPAN", Leaf 0);
           ("OFFSET_RETURN_STATEMENT_ARGUMENT", NoneV)].

(** ** Dispatch through inherited enums *)

Section Routes.
Context {U : Utils}.

(** [routes program V E D]: in [program], the walk function of the enum [E],
    handed a value of variant [V], passes it on from enum to inherited enum
    (each time through an arm [.. => walk_b(traverser, node as *mut _, ctx)]
    that does not bind the payload) down to the walk function of [D], whose
    [match] has an arm for [V] that binds the payload. *)
Inductive routes (program : list Function) (V : string) : string -> string -> Prop :=
| routes_own (E : string) (fn : Function) (m1 m2 : string) (arms : list Arm) (arm : Arm) :
    findFn (walkFnName E) program = Some fn ->
    fnBody fn = [Hook m1 (Var "node"); Match (Var "node") arms; Hook m2 (Var "node")] ->
    dispatch arms V = Some arm ->
    armBinds arm = true ->
    routes program V E E
| routes_inherited (E B D : string) (fn : Function) (m1 m2 : string) (arms : list Arm)
    (arm : Arm) :
    findFn (walkFnName E) program = Some fn ->
    fnBody fn = [Hook m1 (Var "node"); Match (Var "node") arms; Hook m2 (Var "node")] ->
    dispatch arms V = Some arm ->
    armBinds arm = false ->
    armFn arm = walkFnName B ->
    armArg arm = Var "node" ->
    routes program V B D ->
    routes program V E D.

End Routes.

(** ** Trees of the catalogue *)

(** Every push of a trace is matched by a later pop, a retag or a pop finds
    an entry pushed before it: [depthAfter d tr] is the depth of the stack
    after [tr] when it was [d] before, if no retag or pop of [tr] meets an
    empty stack. *)
Fixpoint depthAfter (d : nat) (tr : list Event) : option nat :=
  match tr with
  | [] => Some d
  | EvHook _ :: tr' => depthAfter d tr'
  | EvPush _ :: tr' => depthAfter (Datatypes.S d) tr'
  | EvRetag _ :: tr' =>
      match d with
      | 0 => None
      | Datatypes.S _ => depthAfter d tr'
      end
  | EvPop :: tr' =>
      match d with
      | 0 => None
      | Datatypes.S d' => depthAfter d' tr'
      end
  end.

Definition balanced (tr : list Event) : Prop := depthAfter 0 tr = Some 0.

(** Traces that leave the depth of the stack as it was, whatever it was. *)
Definition neutral (tr : list Event) : Prop := forall d, depthAfter d tr = Some d.

(** Traces that need an entry on the stack and leave the depth as it was. *)
Definition neutralAbove (tr : list Event) : Prop :=
  forall d, depthAfter (Datatypes.S d) tr = Some (Datatypes.S d).

Definition optionOf (P : Value -> Prop) (v : Value) : Prop :=
  match v with
  | NoneV => True
  | SomeV x => P x
  | _ => False
  end.

Definition boxOf (P : Value -> Prop) (v : Value) : Prop :=
  match v with
  | BoxV x => P x
  | _ => False
  end.

Definition vecOf (P : Value -> Prop) (v : Value) : Prop :=
  match v with
  | VecV items => Forall P items
  | _ => False
  end.

Section Conformance.
Context {U : Utils} (types : Types).

(** Every struct field's [innerTypeName] is the unwrapped name of its [type]. *)
Definition consistent : bool :=
  forallb (fun type =>
             forallb (fun field =>
                        String.eqb (Field.innerTypeName field)
                                   (unwrapTypeName (Field.type field)))
                     (fieldsOf type))
          types.

(** Some enum that [b] is or inherits from lists the variant [V]. *)
Definition reaches (b V : string) : Prop :=
  exists d, inheritsFrom types b d /\ declares types d V.

(** A field value of element type [T] under a wrapper chain, [conf] saying
    what a value of a catalogued type is and [statements] what a statement
    list is. *)
Definition fieldValueConforms (conf : string -> Value -> Prop)
    (statements : Value -> Prop) (shape : FieldShape) (T : string) (v : Value) : Prop :=
  match shape with
  | Plain => conf T v
  | Boxed => boxOf (conf T) v
  | Opt => optionOf (conf T) v
  | OptBox => optionOf (boxOf (conf T)) v
  | OptVec =>
      optionOf (if String.eqb T "Statement" then statements else vecOf (conf T)) v
  | Seq => if String.eqb T "Statement" then statements v else vecOf (conf T) v
  | SeqOpt => vecOf (optionOf (conf T)) v
  end.

(** [conforms n T v]: [v] is a tree of the catalogued type [T], and walking
    it nests calls at most [n] deep.  A struct value stores, for every
    visited field, a value of the field's type; an enum value is a variant
    the enum lists itself, with a payload of the variant's type, or a value
    of the inherited enums that have its variant. *)
Fixpoint conforms (n : nat) (T : string) (v : Value) {struct n} : Prop :=
  match n with
  | 0 => False
  | Datatypes.S m =>
      match lookup types T with
      | Some (struct name lt fields) =>
          match v with
          | StructV stored =>
              Forall
                (fun field =>
                   exists offset shape fv,
                     Field.offsetVarName field = Some offset
                     /\ shapeOf (snd (typeAndWrappers (Field.type field))) = Some shape
                     /\ assoc offset stored = Some fv
                     /\ fieldValueConforms (conforms m)
                          (fun s =>
                             match m with
                             | 0 => False
                             | Datatypes.S k => vecOf (conforms k "Statement") s
                             end)
                          shape (fst (typeAndWrappers (Field.type field))) fv)
                (visitedFields (struct name lt fields) types)
          | _ => False
          end
      | Some (enum name lt variants inherits) =>
          match v with
          | EnumV V payload =>
              match find (fun variant => String.eqb (Variant.name variant) V) variants with
              | Some variant =>
                  match snd (typeAndWrappers (Variant.type variant)) with
                  | [] => conforms m (fst (typeAndWrappers (Variant.type variant))) payload
                  | _ :: _ =>
                      boxOf (conforms m (fst (typeAndWrappers (Variant.type variant))))
                            payload
                  end
              | None =>
                  (exists b, In b inherits /\ reaches b V)
                  /\ forall b, In b inherits -> reaches b V -> conforms m b v
              end
          | _ => False
          end
      | None => False
      end
  end.

End Conformance.

Section Annotation.
Context {U : Utils} (types0 : Types).

(** How [generateAncestorsCode] leaves a field object [f] of the struct
    [typeName]: as [f'], with a discriminant, declared by one of
    [enumVariants], when the field is tagged. *)
Definition annotatedField (typeName : string) (enumVariants : list EnumVariant)
    (f f' : Field.t) : Prop :=
  Field.name f' = Field.name f
  /\ Field.type f' = Field.type f
  /\ Field.innerTypeName f' = Field.innerTypeName f
  /\ (tagged types0 f = true ->
      exists d sn,
        Field.ancestorDiscriminant f' = Some d
        /\ In (mkEnumVariant (tagName typeName f) sn d) enumVariants).

Definition annotatedType (enumVariants : list EnumVariant) (t t' : TypeDef) : Prop :=
  match t with
  | struct name lt fields =>
      exists fields',
        t' = struct name lt fields'
        /\ Forall2 (annotatedField name enumVariants) fields fields'
  | enum _ _ _ _ => t' = t
  end.

End Annotation.

(** ** Worked example: the sample catalogue *)

Definition sampleAncestors : AncestorsCode :=
  Eval vm_compute in fst (generateAncestorsCode (U := Sample.utils) Sample.types).

Definition sampleAnnotated : Types :=
  Eval vm_compute in snd (generateAncestorsCode (U := Sample.utils) Sample.types).

Definition sampleProgram : list Function :=
  Eval vm_compute in
  match generateWalkFunctionsCode (U := Sample.utils) 8 sampleAnnotated with
  | Ok program => program
  | _ => []
  end.

Definition sampleTrait : list TraitMethod :=
  Eval vm_compute in generateTraverseTraitCode (U := Sample.utils) sampleAnnotated.

(** The expressions [n], [object.property] and [left op right]. *)
Definition numericLiteral (n : nat) : Value :=
  EnumV "NumericLiteral"
    (BoxV (StructV [("OFFSET_NUMERIC_LITERAL_SPAN", Leaf 0);
                    ("OFFSET_NUMERIC_LITERAL_VALUE", Leaf n)])).

Definition staticMember (object : Value) : Value :=
  EnumV "StaticMemberExpression"
    (BoxV (StructV [("OFFSET_STATIC_MEMBER_EXPRESSION_SPAN", Leaf 0);
                    ("OFFSET_STATIC_MEMBER_EXPRESSION_OBJECT", object);
                    ("OFFSET_STATIC_MEMBER_EXPRESSION_OPTIONAL", Leaf 0)])).

Definition binaryExpression (left right : Value) : Value :=
  StructV [("OFFSET_BINARY_EXPRESSION_SPAN", Leaf 0);
           ("OFFSET_BINARY_EXPRESSION_LEFT", left);
           ("OFFSET_BINARY_EXPRESSION_OPERATOR", Leaf 3);
           ("OFFSET_BINARY_EXPRESSION_RIGHT", right)].

Definition sampleTree : Value :=
  binaryExpression (numericLiteral 1) (staticMember (numericLiteral 2)).



(** * Further vocabulary *)

(** ** When the walk generators return *)

(** The wrapper chains of the branches of [generateWalkForStruct]:
    [T], [Box<T>], [Option<T>], [Option<Vec<T>>], [Option<Box<T>>], [Vec<T>]
    and [Vec<Option<T>>]. *)
Definition supportedChains : list (list string) :=
  [ []; ["Box"]; ["Option"]; ["Option"; "Vec"]; ["Option"; "Box"]; ["Vec"];
    ["Vec"; "Option"] ].

(** [sized types n k]: the enums reachable from the name [n] by inheritance,
    counted with repetitions and with the names that are no catalogued enum,
    are [k] in number; [k] is the number of iterations the loop of
    [generateWalkForEnum] needs for [n]. *)
Inductive sized (types : Types) : string -> nat -> Prop :=
| sized_leaf (n : string) :
    isEnum types n = false -> sized types n 1
| sized_node (n name : string) (lt : bool) (variants : list Variant.t)
    (inherits : list string) (ks : list nat) :
    lookup types n = Some (enum name lt variants inherits) ->
    Forall2 (sized types) inherits ks ->
    sized types n (Datatypes.S (list_sum ks)).

(** Everything the name [n] leads to by inheritance, [n] included, is a
    catalogued enum, and the inheritance below [n] has no cycle. *)
Inductive closedInherits (types : Types) : string -> Prop :=
| closed_node (n name : string) (lt : bool) (variants : list Variant.t)
    (inherits : list string) :
    lookup types n = Some (enum name lt variants inherits) ->
    (forall b, In b inherits -> closedInherits types b) ->
    closedInherits types n.


(** ** The emitted program as a whole *)

(** The methods of the [Traverse] trait a function body calls, in program
    order. *)
Definition hooksOf (body : list Stmt) : list string :=
  flat_map (fun o => match o with OpHook m => [m] | _ => [] end) (flat_map opsOf body).

(** The walk functions a function body calls, in program order. *)
Definition callsOf (body : list Stmt) : list string :=
  flat_map (fun o => match o with OpWalk fn => [fn] | _ => [] end) (flat_map opsOf body).

(** Name, parameter and parameter type of an emitted function. *)
Definition signature (fn : Function) : string * string * string :=
  (fnName fn, fnParam fn, fnParamType fn).

Section ProgramModel.
Context {U : Utils}.

(** What [generateWalkFunctionsCode] asks of a catalogued type: of a struct,
    that each visited field has one of the supported wrapper chains; of an
    enum, that each variant's payload is a catalogued type, bare or boxed, and
    that all it inherits from are catalogued enums without a cycle. *)
Definition supportedType (types : Types) (type : TypeDef) : Prop :=
  match type with
  | struct _ _ _ =>
      forall field,
        In field (visitedFields type types) ->
        In (snd (typeAndWrappers (Field.type field))) supportedChains
  | enum _ _ _ _ =>
      (forall variant,
          In variant (variantsOf type) ->
          lookup types (fst (typeAndWrappers (Variant.type variant))) <> None
          /\ (snd (typeAndWrappers (Variant.type variant)) = []
              \/ snd (typeAndWrappers (Variant.type variant)) = ["Box"]))
      /\ (forall base, In base (inheritsOf type) -> closedInherits types base)
  end.

End ProgramModel.

(** ** The emitted [Ancestor] module as a whole *)

Section AncestorShape.
Context {U : Utils}.

(** The field objects [rest] with the discriminants [d], [d + 1], ... written
    onto the tagged ones in order. *)
Fixpoint numberFields (types : Types) (d : nat) (rest : list Field.t) : list Field.t :=
  match rest with
  | [] => []
  | field :: rest' =>
      if tagged types field
      then Field.set_ancestorDiscriminant d field :: numberFields types (Datatypes.S d) rest'
      else field :: numberFields types d rest'
  end.

(** The [Ancestor] variants of the tagged fields among [rest], numbered from
    [d]. *)
Fixpoint numberTags (types : Types) (type : TypeDef) (d : nat) (rest : list Field.t)
  : list EnumVariant :=
  match rest with
  | [] => []
  | field :: rest' =>
      if tagged types field
      then mkEnumVariant (tagName (type_name type) field) (withoutStructName type field) d
             :: numberTags types type (Datatypes.S d) rest'
      else numberTags types type d rest'
  end.

(** The number of tags declared before the field at position [k] of the
    catalogue entry at position [i]. *)
Definition tagsBefore (types : Types) (i : nat) (fields : list Field.t) (k : nat) : nat :=
  length (tagNames types (firstn i types))
  + length (filter (tagged types) (firstn k fields)).

(** The [offset_of!] constants among the emitted items. *)
Definition offsetConsts (items : list AncestorItem) : list AncestorItem :=
  filter (fun item => match item with OffsetConst _ _ _ => true | _ => false end) items.

(** The tags of the fields whose inner type is the enum [E], in declaration
    order. *)
Definition viaTags (types : Types) (E : string) : list string :=
  flat_map (fun type =>
              map (tagName (type_name type))
                  (filter (fun field => String.eqb (Field.innerTypeName field) E)
                          (fieldsOf type)))
           types.

(** The [is_<struct>] functions: one per struct with a tagged field. *)
Definition structIs (types : Types) (todo : list TypeDef) : list IsFunction :=
  flat_map (fun type =>
              match type with
              | struct name _ fields =>
                  match filter (tagged types) fields with
                  | [] => []
                  | first :: rest =>
                      [mkIsFunction ("is_" ++ camelToSnake name)%string
                         (map (tagName name) (first :: rest))]
                  end
              | enum _ _ _ _ => []
              end)
           todo.

(** The catalogue entries [todo] as the loop over them leaves them when the
    next discriminant is [d]: every struct field carries the name of its
    offset constant, the tagged ones their discriminant. *)
Fixpoint numberTypes (types : Types) (d : nat) (todo : list TypeDef) : list TypeDef :=
  match todo with
  | [] => []
  | type :: todo' =>
      match type with
      | struct name lt fields =>
          struct name lt (numberFields types d (withOffsets name fields))
      | enum _ _ _ _ => type
      end
      :: numberTypes types (d + length (filter (tagged types) (fieldsOf type))) todo'
  end.

(** The [Ancestor] variants of all of [todo], numbered from [d]. *)
Fixpoint numberAllTags (types : Types) (d : nat) (todo : list TypeDef) : list EnumVariant :=
  match todo with
  | [] => []
  | type :: todo' =>
      numberTags types type d (fieldsOf type)
        ++ numberAllTags types (d + length (filter (tagged types) (fieldsOf type))) todo'
  end.

(** The offset constants of a catalogue entry. *)
Definition constsOf (type : TypeDef) : list AncestorItem :=
  match type with
  | struct name _ fields =>
      map (fun field =>
             OffsetConst (offsetVarNameOf (toUpperCase (camelToSnake name)) field) name
                         (Field.rawName field))
          fields
  | enum _ _ _ _ => []
  end.

(** The tag names recorded for the key [E] of [variantNamesForEnums]. *)
Definition viaLookup (m : list (string * list string)) (E : string) : list string :=
  match find (fun p => String.eqb (fst p) E) m with
  | Some p => snd p
  | None => []
  end.

End AncestorShape.

(** ** Stack discipline of the emitted code *)

(** Statements that leave the ancestor stack alone: hooks, calls and
    dispatch, and the conditionals and loops over such. *)
Fixpoint calm (s : Stmt) : bool :=
  match s with
  | Hook _ _ | Walk _ _ | Match _ _ => true
  | PushStack _ _ | RetagStack _ | PopStack => false
  | IfLetSome _ _ body => forallb calm body
  | ForIn _ _ _ body => forallb calm body
  end.

(** Statements that neither push nor pop; they may retag the top entry. *)
Fixpoint quiet (s : Stmt) : bool :=
  match s with
  | Hook _ _ | Walk _ _ | Match _ _ | RetagStack _ => true
  | PushStack _ _ | PopStack => false
  | IfLetSome _ _ body => forallb quiet body
  | ForIn _ _ _ body => forallb quiet body
  end.

(** The two stacks are equally deep and agree below their top entry. *)
Definition sameBelow (s s' : AncestorStack) : Prop :=
  length s' = length s /\ tl s' = tl s.

(** The two shapes of an emitted function body: no stack operation at all,
    or one push after the first hook and one pop before the last, with
    neither push nor pop in between. *)
Definition disciplined (body : list Stmt) : Prop :=
  forallb calm body = true
  \/ exists m1 e1 variant structName mid m2 e2,
       body = Hook m1 e1 :: PushStack variant structName :: mid ++ [PopStack; Hook m2 e2]
       /\ forallb quiet mid = true.

Section StackRelations.
Context {S : Type}.

(** What a piece of code does to the stack: in the strict sense it leaves it
    as it was, in the loose sense it may have retagged the top entry. *)
Definition keeps (strict : bool) (st st' : State S) (tr : list Event) : Prop :=
  if strict then stack st' = stack st /\ neutral tr
  else sameBelow (stack st) (stack st') /\ neutralAbove tr.

Definition keeping (strict : bool) (block : Env -> State S -> option (Outcome (S := S)))
  : Prop :=
  forall env st env' st' tr,
    block env st = Some (env', st', tr) -> keeps strict st st' tr.

End StackRelations.

(** A visitor that counts, in its own state, the depth of the ancestor stack
    at every hook. *)
Definition depthCounter : string -> option (HookFn nat) :=
  fun _ => Some (fun count node ancestors => (count + length ancestors, node)).

(** ** Values the walk generator reads off the field objects *)

Definition isSome {A : Type} (o : option A) : bool :=
  match o with
  | Some _ => true
  | None => false
  end.

(** No [undefined] is interpolated into the expression. *)
Fixpoint exprDefined (e : Expr) : bool :=
  match e with
  | Var _ => true
  | FieldPtr offsetVarName _ => isSome offsetVarName
  | Unbox e' => exprDefined e'
  end.

(** No [undefined] is interpolated into the statement: every field pointer
    names an offset constant and every retag a discriminant. *)
Fixpoint defined (s : Stmt) : bool :=
  match s with
  | Hook _ arg => exprDefined arg
  | PushStack _ _ => true
  | RetagStack d => isSome d
  | PopStack => true
  | Walk _ arg => exprDefined arg
  | IfLetSome _ e body => exprDefined e && forallb defined body
  | ForIn _ e _ body => exprDefined e && forallb defined body
  | Match e arms => exprDefined e && forallb (fun arm => exprDefined (armArg arm)) arms
  end.

(** What [fieldCodeFor] reads off the visited field at position [index]: its
    [offsetVarName] and, unless it is the first, its [ancestorDiscriminant]. *)
Definition fieldDefined (field : Field.t) (index : nat) : bool :=
  isSome (Field.offsetVarName field)
  && (Nat.eqb index 0 || isSome (Field.ancestorDiscriminant field)).

Fixpoint fieldsDefined (index : nat) (fields : list Field.t) : bool :=
  match fields with
  | [] => true
  | field :: rest => fieldDefined field index && fieldsDefined (Datatypes.S index) rest
  end.

(** ** The events of a struct's walk *)

Section FieldEvents.
Context {U : Utils}.

(** The events of the walk of a visited field that is not the first of its
    struct: none when the field is an [Option] that holds nothing, otherwise
    the retag to the field's discriminant followed by events that leave the
    stack as deep as they found it. *)
Definition retagged (field : Field.t) (part : list Event) : Prop :=
  (firstIs (snd (typeAndWrappers (Field.type field))) "Option" = true /\ part = [])
  \/ exists d t,
       Field.ancestorDiscriminant field = Some d
       /\ neutral t
       /\ part = EvRetag d :: t.

End FieldEvents.

(** ** Worked example: a catalogue with statements *)

(** [struct BlockStatement { span: Span, body: Vec<Statement> }] and an enum
    [Statement] of blocks and returns, added to the catalogue with
    [ReturnStatement]. *)
Definition blockTypes : Types :=
  struct "BlockStatement" true
    [Sample.field "span" "Span"; Sample.field "body" "Vec<Statement>"]
  :: enum "Statement" true
       [Variant.mk "BlockStatement" "Box<BlockStatement>" (Some 0);
        Variant.mk "ReturnStatement" "Box<ReturnStatement>" (Some 1)] []
  :: returnTypes.

Definition blockProgram : list Function :=
  Eval vm_compute in
  match generateWalkFunctionsCode (U := Sample.utils) 8 blockTypes with
  | Ok program => program
  | _ => []
  end.

(** * The earlier revision of walk.mjs

    The sources hold a second, earlier revision of [generateWalkFunctionsCode]
    (walk.mjs as of the comment [TODO: Remove `todo!` insertions into code and
    throw error here instead]).  It has no assertion: where the later revision
    throws, it writes a [todo!(...)] into the emitted Rust. *)

Module Legacy.

(** The right-hand side of a [match] arm. *)
Inductive ArmBody :=
| ArmWalk (fn : string) (arg : Expr)
    (* ${fn}(traverser, ${arg} as *mut _, ctx) *)
| ArmTodo (message : string).
    (* todo!("${message}") *)

(** One arm of a [match]; the pattern [None] is the wildcard [_]. *)
Record Arm := mkArm {
  armPatterns : option (list (string * string));
  armBinds : bool;
  armBody : ArmBody
}.

Inductive Stmt :=
| Hook (method : string) (arg : Expr)
| PushStack (variantName structName : string)
| RetagStack (discriminant : option nat)
| PopStack
| Walk (fn : string) (arg : Expr)
| IfLetSome (x : string) (e : Expr) (body : list Stmt)
| ForIn (x : string) (e : Expr) (flatten : bool) (body : list Stmt)
| Match (e : Expr) (arms : list Arm)
| Todo (message : string).
    (* todo!("${message}"); *)

Record Function := mkFunction {
  fnName : string;
  fnParam : string;
  fnParamType : string;
  fnBody : list Stmt
}.

(** [array.map((x, index) => f(x, index))] *)
Fixpoint mapi {A B : Type} (f : A -> nat -> B) (index : nat) (l : list A) : list B :=
  match l with
  | [] => []
  | x :: l' => f x index :: mapi f (Datatypes.S index) l'
  end.

Section Generator.
Context {U : Utils}.

(** The callback of [visitedFields.map((field, index) => ...)]. *)
Definition fieldCodeFor (field : Field.t) (index : nat) : list Stmt :=
  let '(fieldTypeName, fieldTypeWrappers) := typeAndWrappers (Field.type field) in
  let retagCode :=
    if Nat.eqb index 0 then [] else [RetagStack (Field.ancestorDiscriminant field)] in
  let fieldCode := FieldPtr (Field.offsetVarName field) (Field.type field) in
  let todo := Todo ("TODO: " ++ Field.type field)%string in
  if firstIs fieldTypeWrappers "Option" then
    let remainingWrappers := tl fieldTypeWrappers in
    let walkCode :=
      if Nat.eqb (length remainingWrappers) 1 && firstIs remainingWrappers "Vec" then
        if String.eqb fieldTypeName "Statement" then
          [Walk "walk_statements" (Var "field")]
        else
          [ForIn "item" (Var "field") false
             [Walk (walkFnName fieldTypeName) (Var "item")]]
      else if Nat.eqb (length remainingWrappers) 1 && firstIs remainingWrappers "Box" then
        [Walk (walkFnName fieldTypeName) (Unbox (Var "field"))]
      else if Nat.ltb 0 (length remainingWrappers) then
        [todo]
      else
        [Walk (walkFnName fieldTypeName) (Var "field")] in
    [IfLetSome "field" fieldCode (retagCode ++ walkCode)]
  else if firstIs fieldTypeWrappers "Vec" then
    let remainingWrappers := tl fieldTypeWrappers in
    let walkVecCode :=
      if Nat.eqb (length remainingWrappers) 0 && String.eqb fieldTypeName "Statement" then
        [Walk "walk_statements" fieldCode]
      else
        let walk := Walk (walkFnName fieldTypeName) (Var "item") in
        let '(walkCode, iterModifier) :=
          if Nat.eqb (length remainingWrappers) 1 && firstIs remainingWrappers "Option" then
            (walk, true)
          else if Nat.ltb 0 (length remainingWrappers) then
            (todo, false)
          else
            (walk, false) in
        [ForIn "item" fieldCode iterModifier [walkCode]] in
    retagCode ++ walkVecCode
  else if Nat.eqb (length fieldTypeWrappers) 1 && firstIs fieldTypeWrappers "Box" then
    retagCode ++ [Walk (walkFnName fieldTypeName) (Unbox fieldCode)]
  else if Nat.ltb 0 (length fieldTypeWrappers) then
    [todo]
  else
    retagCode ++ [Walk (walkFnName fieldTypeName) fieldCode].

(** The branch [type.kind === 'struct'] of the loop over the catalogue. *)
Definition walkForStruct (type : TypeDef) (types : Types) : Function :=
  let snakeName := camelToSnake (type_name type) in
  let ty := toTypeName type in
  let visitedFields := visitedFields type types in
  let fieldsCodes := mapi fieldCodeFor 0 visitedFields in
  let fieldsCodes :=
    match visitedFields with
    | field :: _ =>
        let fieldCamelName := snakeToCamel (Field.name field) in
        [PushStack (type_name type ++ fieldCamelName)%string
                   (type_name type ++ "Without" ++ fieldCamelName)%string]
          :: fieldsCodes ++ [[PopStack]]
    | [] => fieldsCodes
    end in
  mkFunction ("walk_" ++ snakeName)%string "node" ty
    (Hook ("enter_" ++ snakeName)%string (Var "node")
       :: concat fieldsCodes
       ++ [Hook ("exit_" ++ snakeName)%string (Var "node")]).

(** The callback of [type.variants.map((variant) => ...)]. *)
Definition variantCodeFor (type : TypeDef) (types : Types) (variant : Variant.t) : Arm :=
  let '(variantTypeName, fieldTypeWrappers) := typeAndWrappers (Variant.type variant) in
  let variantType := lookup types variantTypeName in
  let unboxedCode :=
    if Nat.eqb (length fieldTypeWrappers) 1 && firstIs fieldTypeWrappers "Box" then
      Some (Unbox (Var "node"))
    else if Nat.eqb (length fieldTypeWrappers) 0 then
      Some (Var "node")
    else None in
  let walkCode :=
    match variantType, unboxedCode with
    | Some _, Some code => ArmWalk (walkFnName variantTypeName) code
    | _, _ => ArmTodo ("TODO: " ++ Variant.type variant)%string
    end in
  mkArm (Some [(type_name type, Variant.name variant)]) true walkCode.

(** The loop [for (const inheritedTypeName of type.inherits)]; its inner loop
    is the one of the later revision, word for word. *)
Fixpoint inheritedArms (fuel : nat) (types : Types) (typeName : string)
    (inherits : list string) (missingVariants : list string)
  : Result (list Arm * list string) :=
  match inherits with
  | [] => Ok ([], missingVariants)
  | inheritedTypeName :: rest =>
      '(variantMatches, missingVariants) <-
         inheritedLoop fuel types typeName [inheritedTypeName] [] missingVariants ;;
      '(arms, missingVariants) <-
         inheritedArms fuel types typeName rest missingVariants ;;
      Ok (mkArm (Some variantMatches) false
                (ArmWalk (walkFnName inheritedTypeName) (Var "node")) :: arms,
          missingVariants)
  end.

(** The branch [type.kind === 'enum']. *)
Definition walkForEnum (fuel : nat) (type : TypeDef) (types : Types) : Result Function :=
  let snakeName := camelToSnake (type_name type) in
  let ty := toTypeName type in
  let variantCodes := map (variantCodeFor type types) (variantsOf type) in
  '(inherited, missingVariants) <-
     inheritedArms fuel types (type_name type) (inheritsOf type) [] ;;
  let variantCodes := variantCodes ++ inherited in
  let variantCodes :=
    if Nat.ltb 0 (length missingVariants) then
      variantCodes
        ++ [mkArm None false
              (ArmTodo ("TODO: Missing " ++ String.concat ", " missingVariants)%string)]
    else variantCodes in
  Ok (mkFunction ("walk_" ++ snakeName)%string "node" ty
        [Hook ("enter_" ++ snakeName)%string (Var "node");
         Match (Var "node") variantCodes;
         Hook ("exit_" ++ snakeName)%string (Var "node")]).

Definition walk_statements : Function :=
  mkFunction "walk_statements" "stmts" "Vec<'a, Statement<'a>>"
    [Hook "enter_statements" (Var "stmts");
     ForIn "stmt" (Var "stmts") false [Walk "walk_statement" (Var "stmt")];
     Hook "exit_statements" (Var "stmts")].

(** [for (const type of Object.values(types))]; a catalogue entry is a struct
    or an enum, so the [throw] of the last branch is never reached. *)
Fixpoint walkMethods (fuel : nat) (todo : list TypeDef) (types : Types)
  : Result (list Function) :=
  match todo with
  | [] => Ok []
  | type :: todo' =>
      f <- match type with
           | struct _ _ _ => Ok (walkForStruct type types)
           | enum _ _ _ _ => walkForEnum fuel type types
           end ;;
      fs <- walkMethods fuel todo' types ;;
      Ok (f :: fs)
  end.

Definition generateWalkFunctionsCode (fuel : nat) (types : Types) : Result (list Function) :=
  walkMethods <- walkMethods fuel types types ;;
  Ok (walkMethods ++ [walk_statements]).

End Generator.

(** The arm is no [todo!]. *)
Definition armComplete (arm : Arm) : bool :=
  match armBody arm with
  | ArmWalk _ _ => true
  | ArmTodo _ => false
  end.

(** No [todo!] occurs in the statement. *)
Fixpoint todoFree (s : Stmt) : bool :=
  match s with
  | Todo _ => false
  | IfLetSome _ _ body => forallb todoFree body
  | ForIn _ _ _ body => forallb todoFree body
  | Match _ arms => forallb armComplete arms
  | _ => true
  end.

Definition complete (program : list Function) : bool :=
  forallb (fun fn => forallb todoFree (fnBody fn)) program.

End Legacy.

(** The code of the later revision in the syntax of the earlier one. *)
Definition embedArm (arm : Arm) : Legacy.Arm :=
  Legacy.mkArm (Some (armPatterns arm)) (armBinds arm)
               (Legacy.ArmWalk (armFn arm) (armArg arm)).

Fixpoint embed (s : Stmt) : Legacy.Stmt :=
  match s with
  | Hook method arg => Legacy.Hook method arg
  | PushStack variantName structName => Legacy.PushStack variantName structName
  | RetagStack d => Legacy.RetagStack d
  | PopStack => Legacy.PopStack
  | Walk fn arg => Legacy.Walk fn arg
  | IfLetSome x e body => Legacy.IfLetSome x e (map embed body)
  | ForIn x e flatten body => Legacy.ForIn x e flatten (map embed body)
  | Match e arms => Legacy.Match e (map embedArm arms)
  end.

Definition embedFunction (fn : Function) : Legacy.Function :=
  Legacy.mkFunction (fnName fn) (fnParam fn) (fnParamType fn) (map embed (fnBody fn)).

(** ** What a failed assertion reports *)


(** ** Worked examples: what is skipped and what does not end *)




(** * Part II: properties *)

(** ** Ancestor model *)
Section AncestorFacts.
Context {U : Utils}.

Lemma tagFields_enumVariants types type all :
  forall rest i st vn fs st' vn',
    tagFields types type all i rest st vn = (fs, st', vn') ->
    exists new,
      g_enumVariants st' = g_enumVariants st ++ new
      /\ map discriminant new = seq (g_discriminant st) (length new)
      /\ g_discriminant st' = g_discriminant st + length new
      /\ map variantName new
         = map (tagName (type_name type)) (filter (tagged types) rest).
Proof.
  induction rest as [|field rest IH]; intros i st vn fs st' vn' H; simpl in H.
  - inversion H; subst. exists []. rewrite app_nil_r. simpl. auto.
  - unfold tagged, inTypes in *. simpl.
    destruct (lookup types (Field.innerTypeName field)) as [fieldType|] eqn:L.
    + destruct (tagFields types type all (S i) rest _ _) as [[fs0 st0] vn0] eqn:E.
      inversion H; subst. apply IH in E. destruct E as (new & E1 & E2 & E3 & E4).
      simpl in *.
      exists (mkEnumVariant (tagName (type_name type) field)
                (type_name type ++ "Without" ++ snakeToCamel (Field.name field)
                   ++ lifetimeOf type)%string
                (g_discriminant st) :: new).
      rewrite E1, E3, <- app_assoc. simpl. rewrite E2, E4. unfold tagName.
      repeat split; auto; lia.
    + destruct (tagFields types type all (S i) rest st vn) as [[fs0 st0] vn0] eqn:E.
      inversion H; subst. apply IH in E. exact E.
Qed.

Lemma ancestorsForType_enumVariants types type st type' st' :
  ancestorsForType types type st = (type', st') ->
  exists new,
    g_enumVariants st' = g_enumVariants st ++ new
    /\ map discriminant new = seq (g_discriminant st) (length new)
    /\ g_discriminant st' = g_discriminant st + length new
    /\ map variantName new = tagNames types [type].
Proof.
  intros H. destruct type as [name lt fields|name lt variants inherits]; simpl in H.
  - destruct (tagFields types _ _ 0 _ _ _) as [[fs0 st0] vn0] eqn:E.
    apply tagFields_enumVariants in E. destruct E as (new & E1 & E2 & E3 & E4).
    simpl in *. exists new.
    assert (Hf : forall g, map (tagName name)
                     (filter (tagged types)
                        (map (fun field => Field.set_offsetVarName (g field) field) fields))
                   = map (tagName name) (filter (tagged types) fields)).
    { clear. intros g. induction fields as [|f fs IH]; simpl; auto.
      replace (tagged types (Field.set_offsetVarName (g f) f)) with (tagged types f)
        by reflexivity.
      destruct (tagged types f); simpl; rewrite IH; auto. }
    rewrite Hf in E4. unfold tagNames. simpl. rewrite app_nil_r, <- E4.
    destruct vn0; inversion H; subst; simpl; auto.
  - inversion H; subst. exists []. rewrite app_nil_r. simpl. auto.
Qed.

Lemma ancestorsLoop_enumVariants types :
  forall todo st done st',
    ancestorsLoop types todo st = (done, st') ->
    exists new,
      g_enumVariants st' = g_enumVariants st ++ new
      /\ map discriminant new = seq (g_discriminant st) (length new)
      /\ g_discriminant st' = g_discriminant st + length new
      /\ map variantName new = tagNames types todo.
Proof.
  induction todo as [|type todo IH]; intros st done st' H; simpl in H.
  - inversion H; subst. exists []. rewrite app_nil_r. simpl. auto.
  - destruct (ancestorsForType types type st) as [type' st1] eqn:E1.
    destruct (ancestorsLoop types todo st1) as [done2 st2] eqn:E2.
    inversion H; subst.
    apply ancestorsForType_enumVariants in E1. destruct E1 as (n1 & A1 & A2 & A3 & A4).
    apply IH in E2. destruct E2 as (n2 & B1 & B2 & B3 & B4).
    exists (n1 ++ n2). rewrite B1, A1, <- app_assoc.
    rewrite !map_app, length_app, seq_app, A2, B2, A3, B3, A4, B4.
    unfold tagNames in *. simpl in *. rewrite app_nil_r.
    repeat split; auto; lia.
Qed.

(** C9.  The [Ancestor] enum declares [None = 0] followed by one variant per
    (struct, tagged field) pair in catalogue declaration order, numbered
    1, 2, 3, ... without gaps; its representation is [u8] when the number of
    declared variants, [None] included, is at most 256 and [u16] otherwise. *)
Theorem discriminants_sequential_and_compact (types : Types) :
  let code := fst (generateAncestorsCode types) in
  map variantName (ancestorEnum code) = "None" :: tagNames types types
  /\ map discriminant (ancestorEnum code) = seq 0 (length (ancestorEnum code))
  /\ discriminantType code
     = (if (length (ancestorEnum code) <=? 256)%nat then "u8" else "u16").
Proof.
  unfold generateAncestorsCode.
  destruct (ancestorsLoop types types initialState) as [types' st] eqn:E.
  apply ancestorsLoop_enumVariants in E. destruct E as (new & E1 & E2 & E3 & E4).
  cbn [initialState g_enumVariants g_discriminant app] in E1, E2, E3.
  cbn [fst ancestorEnum discriminantType map length seq variantName discriminant].
  rewrite E1, E3, E2, E4. repeat split; auto.
Qed.


Lemma constValue_In (offset_of : string -> string -> nat) items :
  distinct (constNames items) = true ->
  forall c typeName rawName,
    In (OffsetConst c typeName rawName) items ->
    constValue offset_of items c = Some (offset_of typeName rawName).
Proof.
  induction items as [|item items IH]; intros D c tn rn HIn; [destruct HIn|].
  destruct HIn as [->|HIn].
  - simpl. rewrite String.eqb_refl. reflexivity.
  - destruct item as [c' tn' rn'|]; simpl in *; [|apply IH; auto].
    apply andb_true_iff in D. destruct D as [D1 D2].
    destruct (String.eqb c' c) eqn:E; [|apply IH; auto].
    apply String.eqb_eq in E. subst c'. exfalso.
    apply negb_true_iff in D1.
    assert (X : existsb (String.eqb c) (constNames items) = true).
    { apply existsb_exists. exists c. split; [|apply String.eqb_refl].
      unfold constNames. apply in_flat_map.
      exists (OffsetConst c tn rn). split; simpl; auto. }
    congruence.
Qed.

Lemma methodsCode_after : forall fields i j,
  i < j -> methodsCode i j fields = map accessorOf fields.
Proof.
  induction fields as [|f fields IH]; intros i j Hij; simpl; auto.
  destruct (Nat.eqb_spec j i); [lia|]. unfold accessorOf at 2. f_equal.
  apply IH. lia.
Qed.

Lemma methodsCode_removeAt : forall fields i j,
  methodsCode (j + i) j fields = map accessorOf (removeAt i fields).
Proof.
  induction fields as [|f fields IH]; intros i j; destruct i as [|i]; simpl; auto.
  - rewrite Nat.add_0_r, Nat.eqb_refl. apply methodsCode_after. lia.
  - destruct (Nat.eqb_spec j (j + S i)); [lia|].
    unfold accessorOf at 2. f_equal.
    replace (j + S i) with (S j + i) by lia. apply IH.
Qed.

Lemma tagFields_items types type all :
  forall rest i st vn fs st' vn',
    tagFields types type all i rest st vn = (fs, st', vn') ->
    (forall x, In x (g_ancestorTypes st) -> In x (g_ancestorTypes st'))
    /\ (forall x, In x (g_enumVariants st) -> In x (g_enumVariants st'))
    /\ forall k G,
        nth_error rest k = Some G -> tagged types G = true ->
        In (WithoutStruct (withoutStructName type G) (type_name type) (lifetimeOf type)
              (methodsCode (i + k) 0 all))
           (g_ancestorTypes st')
        /\ exists d,
            In (mkEnumVariant (tagName (type_name type) G) (withoutStructName type G) d)
               (g_enumVariants st').
Proof.
  induction rest as [|field rest IH]; intros i st vn fs st' vn' H; simpl in H.
  - inversion H; subst. repeat split; auto; destruct k; discriminate.
  - destruct (lookup types (Field.innerTypeName field)) as [fieldType|] eqn:L.
    + destruct (tagFields types type all (S i) rest _ _) as [[fs0 st0] vn0] eqn:E.
      inversion H; subst. apply IH in E. destruct E as (M1 & M2 & M3).
      cbn [g_ancestorTypes g_enumVariants] in M1, M2.
      split; [|split].
      * intros x Hx. apply M1, in_or_app. auto.
      * intros x Hx. apply M2, in_or_app. auto.
      * intros [|k] G Hk HG.
        -- inversion Hk; subst. rewrite Nat.add_0_r. split.
           ++ apply M1, in_or_app. right. left. reflexivity.
           ++ eexists. apply M2, in_or_app. right. left. reflexivity.
        -- replace (i + S k) with (S i + k) by lia. apply M3; auto.
    + destruct (tagFields types type all (S i) rest st vn) as [[fs0 st0] vn0] eqn:E.
      inversion H; subst. apply IH in E. destruct E as (M1 & M2 & M3).
      split; [|split]; auto.
      intros [|k] G Hk HG.
      * inversion Hk; subst. unfold tagged, inTypes in HG. rewrite L in HG. discriminate.
      * replace (i + S k) with (S i + k) by lia. apply M3; auto.
Qed.

Lemma ancestorsForType_items types name lt fields st type' st' :
  ancestorsForType types (struct name lt fields) st = (type', st') ->
  (forall x, In x (g_ancestorTypes st) -> In x (g_ancestorTypes st'))
  /\ (forall x, In x (g_enumVariants st) -> In x (g_enumVariants st'))
  /\ (forall F, In F fields ->
        In (OffsetConst (offsetVarNameOf (toUpperCase (camelToSnake name)) F) name
              (Field.rawName F))
           (g_ancestorTypes st'))
  /\ forall g G,
      nth_error fields g = Some G -> tagged types G = true ->
      In (WithoutStruct (withoutStructName (struct name lt fields) G) name
            (lifetimeOf (struct name lt fields))
            (map accessorOf (removeAt g (withOffsets name fields))))
         (g_ancestorTypes st')
      /\ exists d,
          In (mkEnumVariant (tagName name G)
                (withoutStructName (struct name lt fields) G) d)
             (g_enumVariants st').
Proof.
  intros H. simpl in H.
  destruct (tagFields types _ _ 0 _ _ _) as [[fs0 st0] vn0] eqn:E.
  apply tagFields_items in E. destruct E as (M1 & M2 & M3).
  cbn [g_ancestorTypes g_enumVariants] in M1, M2.
  assert (A : g_ancestorTypes st' = g_ancestorTypes st0
              /\ g_enumVariants st' = g_enumVariants st0).
  { destruct vn0; inversion H; subst; auto. }
  destruct A as [A1 A2]. rewrite A1, A2. clear H A1 A2.
  split; [|split; [|split]]; auto.
  - intros x Hx. apply M1, in_or_app. auto.
  - intros F HF. apply M1, in_or_app. right.
    apply in_map_iff. exists F. auto.
  - intros g G Hg HG.
    specialize (M3 g (Field.set_offsetVarName
                        (offsetVarNameOf (toUpperCase (camelToSnake name)) G) G)).
    rewrite nth_error_map, Hg in M3. specialize (M3 eq_refl HG).
    simpl in M3. rewrite <- (methodsCode_removeAt _ g 0). exact M3.
Qed.

Lemma ancestorsLoop_items types :
  forall todo st done st',
    ancestorsLoop types todo st = (done, st') ->
    (forall x, In x (g_ancestorTypes st) -> In x (g_ancestorTypes st'))
    /\ (forall x, In x (g_enumVariants st) -> In x (g_enumVariants st'))
    /\ forall name lt fields,
        In (struct name lt fields) todo ->
        (forall F, In F fields ->
           In (OffsetConst (offsetVarNameOf (toUpperCase (camelToSnake name)) F) name
                 (Field.rawName F))
              (g_ancestorTypes st'))
        /\ forall g G,
            nth_error fields g = Some G -> tagged types G = true ->
            In (WithoutStruct (withoutStructName (struct name lt fields) G) name
                  (lifetimeOf (struct name lt fields))
                  (map accessorOf (removeAt g (withOffsets name fields))))
               (g_ancestorTypes st')
            /\ exists d,
                In (mkEnumVariant (tagName name G)
                      (withoutStructName (struct name lt fields) G) d)
                   (g_enumVariants st').
Proof.
  induction todo as [|type todo IH]; intros st done st' H; simpl in H.
  - inversion H; subst. repeat split; auto; contradiction.
  - destruct (ancestorsForType types type st) as [type' st1] eqn:E1.
    destruct (ancestorsLoop types todo st1) as [done2 st2] eqn:E2.
    inversion H; subst. apply IH in E2. destruct E2 as (N1 & N2 & N3).
    assert (M : (forall x, In x (g_ancestorTypes st) -> In x (g_ancestorTypes st1))
                /\ (forall x, In x (g_enumVariants st) -> In x (g_enumVariants st1))).
    { destruct type.
      - apply ancestorsForType_items in E1. tauto.
      - inversion E1; subst. auto. }
    destruct M as [M1 M2].
    split; [|split]; auto.
    intros name lt fields [->|HIn]; [|apply N3; auto].
    apply ancestorsForType_items in E1. destruct E1 as (_ & _ & C & W).
    split; [intros F HF; apply N1, C, HF|].
    intros g G Hg HG. destruct (W g G Hg HG) as (W1 & d & W2).
    split; [apply N1, W1|exists d; apply N2, W2].
Qed.

Lemma removeAt_map {A B : Type} (f : A -> B) : forall l g,
  removeAt g (map f l) = map f (removeAt g l).
Proof.
  induction l as [|x l IH]; intros [|g]; simpl; auto. rewrite IH. reflexivity.
Qed.

Lemma removeAt_In {A : Type} : forall (l : list A) g x,
  In x (removeAt g l) -> In x l.
Proof.
  induction l as [|y l IH]; intros [|g] x H; simpl in *; auto.
  destruct H as [H|H]; eauto.
Qed.

(** C5.  Let [G] be a tagged field of a catalogued struct and [base] the
    pointer carried by the tag emitted for [G].  The accessor struct of that
    tag has exactly one method per field of the struct other than [G], in
    declaration order and whatever the field's type, and none for [G]; the
    method named after field [F] returns the address [base + offset_of!(T, F)]. *)
Theorem accessor_address_is_base_plus_offset
    (offset_of : string -> string -> nat) (types : Types)
    (name : string) (lt : bool) (fields : list Field.t)
    (g : nat) (G : Field.t) (base : nat) :
  let code := fst (generateAncestorsCode types) in
  In (struct name lt fields) types ->
  nth_error fields g = Some G ->
  tagged types G = true ->
  distinct (constNames (ancestorTypes code)) = true ->
  exists d methods,
    In (mkEnumVariant (tagName name G)
          (withoutStructName (struct name lt fields) G) d)
       (ancestorEnum code)
    /\ In (WithoutStruct (withoutStructName (struct name lt fields) G) name
             (lifetimeOf (struct name lt fields)) methods)
          (ancestorTypes code)
    /\ Forall2 (fun m F =>
                  method_name m = Field.rawName F
                  /\ method_type m = Field.rawTypeName F
                  /\ accessorAddress offset_of (ancestorTypes code) base m
                     = Some (base + offset_of name (Field.rawName F)))
               methods (removeAt g fields).
Proof.
  intros code HIn Hg HG D. subst code. unfold generateAncestorsCode in *.
  destruct (ancestorsLoop types types initialState) as [types' st] eqn:E.
  apply ancestorsLoop_items in E. destruct E as (_ & _ & E).
  destruct (E name lt fields HIn) as (C & W).
  destruct (W g G Hg HG) as (W1 & d & W2).
  cbn [fst ancestorEnum ancestorTypes] in *.
  exists d, (map accessorOf (removeAt g (withOffsets name fields))).
  split; [right; exact W2|]. split; [exact W1|].
  unfold withOffsets. rewrite removeAt_map, map_map.
  assert (S : forall F, In F (removeAt g fields) -> In F fields)
    by (intros F; apply removeAt_In).
  induction (removeAt g fields) as [|F l IH]; simpl; constructor.
  - repeat split. unfold accessorAddress. simpl.
    rewrite (constValue_In offset_of _ D _ name (Field.rawName F)); auto.
    apply C, S. left. reflexivity.
  - apply IH. intros F' HF'. apply S. right. exact HF'.
Qed.

End AncestorFacts.

Lemma accessor_address_witness :
  exists d methods,
    In (mkEnumVariant "BinaryExpressionRight" "BinaryExpressionWithoutRight<'a>" d)
       (ancestorEnum (fst (generateAncestorsCode (U := Sample.utils) Sample.types)))
    /\ In (WithoutStruct "BinaryExpressionWithoutRight<'a>" "BinaryExpression" "<'a>" methods)
          (ancestorTypes (fst (generateAncestorsCode (U := Sample.utils) Sample.types)))
    /\ Forall2 (fun m F =>
                  method_name m = Field.rawName F
                  /\ method_type m = Field.rawTypeName F
                  /\ accessorAddress sampleOffsets
                       (ancestorTypes
                          (fst (generateAncestorsCode (U := Sample.utils) Sample.types)))
                       4096 m
                     = Some (4096 + sampleOffsets "BinaryExpression" (Field.rawName F)))
               methods
               [Sample.field "span" "Span"; Sample.field "left" "Expression";
                Sample.field "operator" "BinaryOperator"].
Proof.
  apply (accessor_address_is_base_plus_offset (U := Sample.utils) sampleOffsets
           Sample.types "BinaryExpression" true
           [Sample.field "span" "Span"; Sample.field "left" "Expression";
            Sample.field "operator" "BinaryOperator"; Sample.field "right" "Expression"]
           3 (Sample.field "right" "Expression") 4096).
  - left. reflexivity.
  - reflexivity.
  - reflexivity.
  - reflexivity.
Defined.

(** ** Walk functions of structs *)

Section StructWalkFacts.
Context {U : Utils}.

Lemma fieldCodeFor_shape (field : Field.t) (index : nat) :
  match shapeOf (snd (typeAndWrappers (Field.type field))) with
  | Some shape =>
      fieldCodeFor field index
      = Ok (fieldStmts shape (fst (typeAndWrappers (Field.type field)))
              (retagCodeOf field index) (fieldCodeOf field))
  | None => exists message, fieldCodeFor field index = AssertionError message
  end.
Proof.
  unfold fieldCodeFor, retagCodeOf, fieldCodeOf.
  destruct (typeAndWrappers (Field.type field)) as [n ws]. cbn [fst snd].
  destruct ws as [|w1 [|w2 [|w3 ws]]]; cbn [shapeOf firstIs tl length Nat.eqb andb].
  - reflexivity.
  - destruct (String.eqb w1 "Option") eqn:E1; [reflexivity|].
    destruct (String.eqb w1 "Vec") eqn:E2.
    + cbn. destruct (String.eqb n "Statement"); reflexivity.
    + destruct (String.eqb w1 "Box") eqn:E3; [reflexivity|].
      cbn. eexists; reflexivity.
  - destruct (String.eqb w1 "Option") eqn:E1.
    + destruct (String.eqb w2 "Vec") eqn:E2.
      * cbn. destruct (String.eqb n "Statement"); reflexivity.
      * destruct (String.eqb w2 "Box") eqn:E3; [reflexivity|].
        cbn. eexists; reflexivity.
    + destruct (String.eqb w1 "Vec") eqn:E2; [|cbn; eexists; reflexivity].
      destruct (String.eqb w2 "Option") eqn:E3; [reflexivity|].
      cbn. eexists; reflexivity.
  - destruct (String.eqb w1 "Option") eqn:E1.
    + cbn. eexists; reflexivity.
    + destruct (String.eqb w1 "Vec") eqn:E2; cbn; eexists; reflexivity.
Qed.

Lemma shapeOf_Box (wrappers : list string) :
  In "Box" wrappers ->
  (wrappers = ["Box"] /\ shapeOf wrappers = Some Boxed)
  \/ (wrappers = ["Option"; "Box"] /\ shapeOf wrappers = Some OptBox)
  \/ (wrappers <> ["Box"] /\ wrappers <> ["Option"; "Box"] /\ shapeOf wrappers = None).
Proof.
  intros HIn.
  destruct wrappers as [|w1 [|w2 [|w3 ws]]]; cbn [shapeOf].
  - destruct HIn.
  - destruct HIn as [->|[]]. left. split; reflexivity.
  - destruct (String.eqb_spec w1 "Option") as [->|N1].
    + destruct HIn as [H|[->|[]]]; [discriminate|]. right. left. split; reflexivity.
    + right. right. destruct (String.eqb_spec w1 "Vec") as [->|N2].
      * destruct HIn as [H|[->|[]]]; [discriminate|].
        repeat split; try discriminate.
      * repeat split; try discriminate. intros E. inversion E; subst. apply N1; reflexivity.
  - right. right. repeat split; discriminate.
Qed.

(** C3 (amended).  A boxed reference is dereferenced once and the walk then
    descends as for [T] when the field is [Box<T>] or [Option<Box<T>>]; every
    other wrapper chain that contains [Box] (a box under [Vec], a box under
    [Option<Vec>], ...) is rejected by an assertion at generation time. *)
Theorem boxed_reference_support (field : Field.t) (index : nat) :
  let T := fst (typeAndWrappers (Field.type field)) in
  let wrappers := snd (typeAndWrappers (Field.type field)) in
  In "Box" wrappers ->
  (wrappers = ["Box"] ->
   fieldCodeFor field index
   = Ok (retagCodeOf field index ++ [Walk (walkFnName T) (Unbox (fieldCodeOf field))]))
  /\ (wrappers = ["Option"; "Box"] ->
      fieldCodeFor field index
      = Ok [IfLetSome "field" (fieldCodeOf field)
              (retagCodeOf field index ++ [Walk (walkFnName T) (Unbox (Var "field"))])])
  /\ (wrappers <> ["Box"] -> wrappers <> ["Option"; "Box"] ->
      exists message, fieldCodeFor field index = AssertionError message).
Proof.
  intros T wrappers HIn. subst T wrappers.
  pose proof (fieldCodeFor_shape field index) as S.
  destruct (shapeOf_Box _ HIn) as [[E1 E2]|[[E1 E2]|[N1 [N2 E]]]]; rewrite ?E2, ?E in S.
  - split; [|split]; [auto|rewrite E1; discriminate|intros N; contradiction].
  - split; [|split]; [rewrite E1; discriminate|auto|intros _ N; contradiction].
  - split; [|split]; [intros; contradiction|intros; contradiction|auto].
Qed.

Lemma fieldCodeFor_ops (field : Field.t) (index : nat) (code : list Stmt) :
  fieldCodeFor field index = Ok code ->
  flat_map opsOf code = fieldOps field index.
Proof.
  intros H. pose proof (fieldCodeFor_shape field index) as S.
  unfold fieldOps, fieldTarget.
  destruct (typeAndWrappers (Field.type field)) as [n ws]. cbn [fst snd] in S.
  destruct (shapeOf ws) as [shape|]; [|destruct S as [m S]; congruence].
  rewrite S in H. inversion H; subst code. clear.
  unfold retagCodeOf.
  destruct shape, (Nat.eqb index 0); cbn; try reflexivity;
    destruct (String.eqb n "Statement"); reflexivity.
Qed.

Lemma mapIndexed_fieldCodeFor_ops : forall (fields : list Field.t) index codes,
  mapIndexed fieldCodeFor index fields = Ok codes ->
  flat_map opsOf (concat codes)
  = match fields with
    | [] => []
    | first :: rest =>
        fieldOps first index
          ++ flat_map (fun f => [OpRetag (Field.ancestorDiscriminant f);
                                 OpWalk (fieldTarget f)]) rest
    end.
Proof.
  induction fields as [|f fields IH]; intros index codes H; simpl in H.
  - inversion H. reflexivity.
  - destruct (fieldCodeFor f index) as [c| |] eqn:E; simpl in H; try discriminate.
    destruct (mapIndexed fieldCodeFor (S index) fields) as [cs| |] eqn:E2;
      simpl in H; try discriminate.
    inversion H; subst codes. simpl. rewrite flat_map_app.
    rewrite (fieldCodeFor_ops _ _ _ E). f_equal.
    rewrite (IH _ _ E2). destruct fields as [|f' fields]; reflexivity.
Qed.


End StructWalkFacts.

Lemma boxed_reference_support_witness :
  fieldCodeFor (U := Sample.utils) (Sample.field "argument" "Option<Box<Expression>>") 1
  = Ok [IfLetSome "field" (FieldPtr None "Option<Box<Expression>>")
          [RetagStack None; Walk "walk_expression" (Unbox (Var "field"))]].
Proof.
  apply (boxed_reference_support (U := Sample.utils)
           (Sample.field "argument" "Option<Box<Expression>>") 1).
  - right. left. reflexivity.
  - reflexivity.
Defined.

(** C3, as stated, fails: a struct field of type [Vec<Box<Expression>>] is
    rejected. *)
Lemma sequence_of_boxes_rejected :
  generateWalkForStruct (U := Sample.utils) boxedElements boxedElementsTypes
  = AssertionError "Cannot handle struct field with type Vec<Box<Expression>>".
Proof. reflexivity. Qed.

(** ** Generation-time failures *)

Section FailureFacts.
Context {U : Utils}.

Lemma mapIndexed_failed {A B : Type} (f : A -> nat -> Result B) (x : A) :
  (forall index, failed (f x index)) ->
  forall l index, In x l -> failed (mapIndexed f index l).
Proof.
  intros Hx. induction l as [|y l IH]; intros index HIn; [destruct HIn|].
  simpl. destruct HIn as [->|HIn].
  - specialize (Hx index). destruct (f x index); simpl in *; auto. destruct Hx.
  - destruct (f y index); simpl; auto.
    specialize (IH (S index) HIn). destruct (mapIndexed f (S index) l); simpl; auto.
Qed.

Lemma generateWalkForStruct_unsupported type types field :
  In field (visitedFields type types) ->
  shapeOf (snd (typeAndWrappers (Field.type field))) = None ->
  failed (generateWalkForStruct type types).
Proof.
  intros HIn HS. unfold generateWalkForStruct.
  assert (F : failed (mapIndexed fieldCodeFor 0 (visitedFields type types))).
  { apply mapIndexed_failed with (x := field); auto.
    intros index. pose proof (fieldCodeFor_shape field index) as S.
    rewrite HS in S. destruct S as [m ->]. exact I. }
  destruct (mapIndexed fieldCodeFor 0 (visitedFields type types)); simpl; auto.
Qed.

Lemma inheritedLoop_missing types typeName : forall fuel pending matches missing r,
  inheritedLoop fuel types typeName pending matches missing = Ok r ->
  (forall n, In n missing -> In n (snd r))
  /\ (forall n, In n pending -> isEnum types n = false -> In n (snd r)).
Proof.
  induction fuel as [|fuel IH]; intros pending matches missing r H;
    destruct pending as [|n0 pending]; simpl in H; try discriminate.
  - inversion H; subst. simpl. split; auto. intros n [].
  - inversion H; subst. simpl. split; auto. intros n [].
  - unfold isEnum.
    destruct (lookup types n0) as [[name lt fields|name lt variants inherits]|] eqn:L;
      apply IH in H; destruct H as [H1 H2]; split; auto.
    + intros n Hn. apply H1, in_or_app. auto.
    + intros n [->|Hn] E; [|apply H2; auto].
      apply H1, in_or_app. right. left. reflexivity.
    + intros n [->|Hn] E; [rewrite L in E; discriminate|].
      apply H2; auto. apply in_or_app. auto.
    + intros n Hn. apply H1, in_or_app. auto.
    + intros n [->|Hn] E; [|apply H2; auto].
      apply H1, in_or_app. right. left. reflexivity.
Qed.

Lemma inheritedArms_missing types typeName fuel : forall inherits missing r,
  inheritedArms fuel types typeName inherits missing = Ok r ->
  (forall n, In n missing -> In n (snd r))
  /\ (forall n, In n inherits -> isEnum types n = false -> In n (snd r)).
Proof.
  induction inherits as [|base inherits IH]; intros missing r H; simpl in H.
  - inversion H; subst. simpl. split; auto. intros n [].
  - destruct (inheritedLoop fuel types typeName [base] [] missing) as [[m1 miss1]| |] eqn:E1;
      simpl in H; try discriminate.
    destruct (inheritedArms fuel types typeName inherits miss1) as [[arms miss2]| |] eqn:E2;
      simpl in H; try discriminate.
    inversion H; subst. simpl.
    apply inheritedLoop_missing in E1. destruct E1 as [A1 A2].
    apply IH in E2. destruct E2 as [B1 B2]. simpl in *.
    split.
    + intros n Hn. apply B1, A1, Hn.
    + intros n [->|Hn] E; [|apply B2; auto].
      apply B1, A2; simpl; auto.
Qed.

Lemma generateWalkForEnum_missing fuel type types base :
  In base (inheritsOf type) ->
  isEnum types base = false ->
  failed (generateWalkForEnum fuel type types).
Proof.
  intros HIn HE. unfold generateWalkForEnum.
  destruct (mapIndexed (variantCodeFor type types) 0 (variantsOf type)); simpl; auto.
  destruct (inheritedArms fuel types (type_name type) (inheritsOf type) [])
    as [[arms missing]| |] eqn:E; simpl; auto.
  apply inheritedArms_missing in E. destruct E as [_ E].
  specialize (E base HIn HE). simpl in E.
  destruct missing as [|m missing]; [destruct E|]. simpl. exact I.
Qed.


End FailureFacts.

(** ** Walk functions of enums *)

Section EnumWalkFacts.
Context {U : Utils}.

Lemma variantCodeFor_ownArm type types variant index arm :
  variantCodeFor type types variant index = Ok arm ->
  arm = ownArm (type_name type) variant
  /\ inTypes types (fst (typeAndWrappers (Variant.type variant))) = true
  /\ (snd (typeAndWrappers (Variant.type variant)) = []
      \/ snd (typeAndWrappers (Variant.type variant)) = ["Box"]).
Proof.
  unfold variantCodeFor, ownArm, inTypes.
  destruct (typeAndWrappers (Variant.type variant)) as [n ws]. cbn [fst snd].
  destruct (lookup types n); cbn; [|discriminate].
  destruct ws as [|w [|w2 ws]]; cbn.
  - intros H; inversion H; auto.
  - destruct (String.eqb_spec w "Box") as [->|N]; cbn; [|discriminate].
    intros H; inversion H; auto.
  - discriminate.
Qed.

Lemma mapIndexed_ownArms type types : forall variants index arms,
  mapIndexed (variantCodeFor type types) index variants = Ok arms ->
  arms = map (ownArm (type_name type)) variants
  /\ forall variant, In variant variants ->
       inTypes types (fst (typeAndWrappers (Variant.type variant))) = true
       /\ (snd (typeAndWrappers (Variant.type variant)) = []
           \/ snd (typeAndWrappers (Variant.type variant)) = ["Box"]).
Proof.
  induction variants as [|v variants IH]; intros index arms H; simpl in H.
  - inversion H. split; auto. intros ? [].
  - destruct (variantCodeFor type types v index) as [a| |] eqn:E; simpl in H; try discriminate.
    destruct (mapIndexed (variantCodeFor type types) (S index) variants) as [as'| |] eqn:E2;
      simpl in H; try discriminate.
    inversion H; subst arms. apply variantCodeFor_ownArm in E. destruct E as (-> & E).
    apply IH in E2. destruct E2 as (-> & E2). split; auto.
    intros variant [<-|HIn]; auto.
Qed.

Lemma inheritedArms_shape types typeName fuel : forall inherits missing arms missing',
  inheritedArms fuel types typeName inherits missing = Ok (arms, missing') ->
  Forall2 (fun base arm =>
             exists variantMatches m1 m2,
               inheritedLoop fuel types typeName [base] [] m1 = Ok (variantMatches, m2)
               /\ arm = inheritedArm base variantMatches)
          inherits arms.
Proof.
  induction inherits as [|base inherits IH]; intros missing arms missing' H; simpl in H.
  - inversion H. constructor.
  - destruct (inheritedLoop fuel types typeName [base] [] missing) as [[m1 miss1]| |] eqn:E1;
      simpl in H; try discriminate.
    destruct (inheritedArms fuel types typeName inherits miss1) as [[arms2 miss2]| |] eqn:E2;
      simpl in H; try discriminate.
    inversion H; subst. constructor; [|eauto].
    exists m1, missing, miss1. auto.
Qed.

(** The function emitted for an enum: its name, its parameter and its body,
    the own arms first and one arm per inherited enum after them. *)
Lemma generateWalkForEnum_body fuel type types fn :
  generateWalkForEnum fuel type types = Ok fn ->
  exists inherited,
    inheritedArms fuel types (type_name type) (inheritsOf type) [] = Ok (inherited, [])
    /\ (forall variant, In variant (variantsOf type) ->
          inTypes types (fst (typeAndWrappers (Variant.type variant))) = true
          /\ (snd (typeAndWrappers (Variant.type variant)) = []
              \/ snd (typeAndWrappers (Variant.type variant)) = ["Box"]))
    /\ fn = mkFunction (walkFnName (type_name type)) "node" (toTypeName type)
              [Hook ("enter_" ++ camelToSnake (type_name type))%string (Var "node");
               Match (Var "node")
                 (map (ownArm (type_name type)) (variantsOf type) ++ inherited);
               Hook ("exit_" ++ camelToSnake (type_name type))%string (Var "node")].
Proof.
  unfold generateWalkForEnum. intros H.
  destruct (mapIndexed (variantCodeFor type types) 0 (variantsOf type)) as [own| |] eqn:E1;
    simpl in H; try discriminate.
  destruct (inheritedArms fuel types (type_name type) (inheritsOf type) [])
    as [[inherited missing]| |] eqn:E2; simpl in H; try discriminate.
  destruct missing as [|m missing]; simpl in H; try discriminate.
  inversion H; subst fn. apply mapIndexed_ownArms in E1. destruct E1 as (-> & E1).
  exists inherited. auto.
Qed.

Lemma armMatches_ownArm typeName variant V :
  armMatches V (ownArm typeName variant) = String.eqb (Variant.name variant) V.
Proof.
  unfold armMatches, ownArm. destruct (typeAndWrappers (Variant.type variant)).
  simpl. apply orb_false_r.
Qed.

Lemma dispatch_own typeName V rest : forall variants variant,
  find (fun v => String.eqb (Variant.name v) V) variants = Some variant ->
  dispatch (map (ownArm typeName) variants ++ rest) V = Some (ownArm typeName variant).
Proof.
  unfold dispatch. induction variants as [|v variants IH]; intros variant H; simpl in *.
  - discriminate.
  - rewrite armMatches_ownArm. destruct (String.eqb (Variant.name v) V).
    + inversion H; reflexivity.
    + apply IH, H.
Qed.

Lemma dispatch_not_own typeName V rest : forall variants,
  ~ In V (map Variant.name variants) ->
  dispatch (map (ownArm typeName) variants ++ rest) V = dispatch rest V.
Proof.
  unfold dispatch. induction variants as [|v variants IH]; intros H; simpl in *; auto.
  rewrite armMatches_ownArm. destruct (String.eqb_spec (Variant.name v) V).
  - exfalso. apply H. auto.
  - apply IH. intros HIn. apply H. auto.
Qed.

(** C8.  A variant the enum lists itself is dispatched by the arm emitted for
    it, which is the first arm of the [match] that names the variant, whatever
    the inherited enums contain: the arm binds the payload and calls the walk
    function of the payload type, on the payload itself or, for a [Box]
    payload, on what the box points to. *)
Theorem own_variant_dispatch (fuel : nat) (type : TypeDef) (types : Types) (fn : Function)
    (V : string) (variant : Variant.t) :
  generateWalkForEnum fuel type types = Ok fn ->
  find (fun v => String.eqb (Variant.name v) V) (variantsOf type) = Some variant ->
  let T := fst (typeAndWrappers (Variant.type variant)) in
  let wrappers := snd (typeAndWrappers (Variant.type variant)) in
  exists arms arm,
    fnBody fn
    = [Hook ("enter_" ++ camelToSnake (type_name type))%string (Var "node");
       Match (Var "node") arms;
       Hook ("exit_" ++ camelToSnake (type_name type))%string (Var "node")]
    /\ dispatch arms V = Some arm
    /\ armPatterns arm = [(type_name type, V)]
    /\ armBinds arm = true
    /\ armFn arm = walkFnName T
    /\ ((wrappers = [] /\ armArg arm = Var "node")
        \/ (wrappers = ["Box"] /\ armArg arm = Unbox (Var "node"))).
Proof.
  intros H F T wrappers.
  apply generateWalkForEnum_body in H. destruct H as (inherited & _ & W & ->).
  exists (map (ownArm (type_name type)) (variantsOf type) ++ inherited),
         (ownArm (type_name type) variant).
  split; [reflexivity|]. split; [apply dispatch_own, F|].
  pose proof (find_some _ _ F) as [HIn HV]. apply String.eqb_eq in HV.
  destruct (W variant HIn) as [_ HW]. subst T wrappers.
  unfold ownArm. destruct (typeAndWrappers (Variant.type variant)) as [n ws].
  cbn in *. subst V. repeat split; auto.
  destruct HW as [->| ->]; auto.
Qed.

End EnumWalkFacts.

Lemma own_variant_dispatch_witness :
  exists arms arm,
    fnBody (mkFunction "walk_expression" "node" "Expression<'a>"
              [Hook "enter_expression" (Var "node");
               Match (Var "node")
                 [mkArm [("Expression", "NumericLiteral")] true "walk_numeric_literal"
                        (Unbox (Var "node"));
                  mkArm [("Expression", "BinaryExpression")] true "walk_binary_expression"
                        (Unbox (Var "node"));
                  mkArm [("Expression", "StaticMemberExpression")] false
                        "walk_member_expression" (Var "node")];
               Hook "exit_expression" (Var "node")])
    = [Hook "enter_expression" (Var "node"); Match (Var "node") arms;
       Hook "exit_expression" (Var "node")]
    /\ dispatch arms "BinaryExpression" = Some arm
    /\ armPatterns arm = [("Expression", "BinaryExpression")]
    /\ armBinds arm = true
    /\ armFn arm = "walk_binary_expression"
    /\ (("Box" :: nil = [] /\ armArg arm = Var "node")
        \/ (["Box"] = ["Box"] /\ armArg arm = Unbox (Var "node"))).
Proof.
  apply (own_variant_dispatch (U := Sample.utils) 5
           (enum "Expression" true
              [Variant.mk "NumericLiteral" "Box<NumericLiteral>" (Some 2);
               Variant.mk "BinaryExpression" "Box<BinaryExpression>" (Some 10)]
              ["MemberExpression"])
           Sample.types _ "BinaryExpression"
           (Variant.mk "BinaryExpression" "Box<BinaryExpression>" (Some 10))).
  - reflexivity.
  - reflexivity.
Defined.

(** ** Running the emitted code: optional fields *)

Section OptionalFieldFacts.
Context {U : Utils} {S : Type}.
Context (ancestor : list EnumVariant) (trait : list TraitMethod)
        (impl : string -> option (HookFn S)).

Lemma mapIndexed_Forall2 {A B : Type} (f : A -> nat -> Result B) :
  forall l index ys,
    mapIndexed f index l = Ok ys ->
    Forall2 (fun x y => exists i, f x i = Ok y) l ys.
Proof.
  induction l as [|x l IH]; intros index ys H; simpl in H.
  - inversion H. constructor.
  - destruct (f x index) as [y| |] eqn:E; simpl in H; try discriminate.
    destruct (mapIndexed f (Datatypes.S index) l) as [ys'| |] eqn:E2;
      simpl in H; try discriminate.
    inversion H; subst. constructor; eauto.
Qed.

Lemma absent_field_code (field : Field.t) (index : nat) (code : list Stmt) :
  fieldCodeFor field index = Ok code ->
  firstIs (snd (typeAndWrappers (Field.type field))) "Option" = true ->
  forall callFn env st,
    readPlace env (fieldCodeOf field) = Some NoneV ->
    runBlock (exec ancestor trait impl callFn) code env st = Some (env, st, []).
Proof.
  intros H HO callFn env st HR.
  pose proof (fieldCodeFor_shape field index) as Sh.
  destruct (typeAndWrappers (Field.type field)) as [n ws]. cbn [fst snd] in *.
  assert (X : exists body, code = [IfLetSome "field" (fieldCodeOf field) body]).
  { destruct ws as [|w1 [|w2 [|w3 ws]]]; cbn [shapeOf firstIs] in *; try discriminate;
      rewrite ?HO in Sh.
    - rewrite Sh in H. inversion H. eexists; reflexivity.
    - destruct (String.eqb w2 "Vec").
      + rewrite Sh in H. inversion H. eexists; reflexivity.
      + destruct (String.eqb w2 "Box").
        * rewrite Sh in H. inversion H. eexists; reflexivity.
        * destruct Sh as [m Sh]. congruence.
    - destruct Sh as [m Sh]. congruence. }
  destruct X as [body ->]. cbn [runBlock exec]. rewrite HR. reflexivity.
Qed.

(** C2 (amended).  The walk function of a struct with visited fields is the
    [enter] hook, one push tagged with the first visited field, the code of
    the visited fields in order, one pop and the [exit] hook.  The push is
    made whatever the fields hold, so also when the first visited field is an
    [Option] holding [None]; the code of an [Option]-wrapped field, run on a
    node in which the field holds [None], calls no walk function, pushes and
    retags nothing and leaves node and context as they are. *)
Theorem absent_optional_field (type : TypeDef) (types : Types) (fn : Function)
    (first : Field.t) (rest : list Field.t) :
  generateWalkForStruct type types = Ok fn ->
  visitedFields type types = first :: rest ->
  exists codes,
    fnBody fn
    = Hook ("enter_" ++ camelToSnake (type_name type))%string (Var "node")
        :: PushStack (tagName (type_name type) first)
             (type_name type ++ "Without" ++ snakeToCamel (Field.name first))%string
        :: concat codes
        ++ [PopStack; Hook ("exit_" ++ camelToSnake (type_name type))%string (Var "node")]
    /\ Forall2
         (fun field code =>
            (exists index, fieldCodeFor field index = Ok code)
            /\ (firstIs (snd (typeAndWrappers (Field.type field))) "Option" = true ->
                forall callFn env st,
                  readPlace env (fieldCodeOf field) = Some NoneV ->
                  runBlock (exec ancestor trait impl callFn) code env st
                  = Some (env, st, [])))
         (first :: rest) codes.
Proof.
  unfold generateWalkForStruct. intros H HV. rewrite HV in H.
  destruct (mapIndexed fieldCodeFor 0 (first :: rest)) as [codes| |] eqn:E;
    cbn [bind] in H; try discriminate.
  inversion H; subst fn. clear H. exists codes. split.
  - cbn [fnBody concat]. unfold tagName. cbn [app].
    rewrite concat_app. cbn [concat]. rewrite app_nil_r, <- app_assoc. reflexivity.
  - apply mapIndexed_Forall2 in E.
    eapply Forall2_impl; [|exact E].
    intros field code [index Hc]. split; [eauto|].
    intros HO callFn env st HR. eapply absent_field_code; eauto.
Qed.

End OptionalFieldFacts.

Lemma absent_optional_field_witness :
  exists codes,
    fnBody (mkFunction "walk_return_statement" "node" "ReturnStatement<'a>"
              [Hook "enter_return_statement" (Var "node");
               PushStack "ReturnStatementArgument" "ReturnStatementWithoutArgument";
               IfLetSome "field"
                 (FieldPtr (Some "OFFSET_RETURN_STATEMENT_ARGUMENT") "Option<Expression>")
                 [Walk "walk_expression" (Var "field")];
               PopStack;
               Hook "exit_return_statement" (Var "node")])
    = Hook "enter_return_statement" (Var "node")
        :: PushStack "ReturnStatementArgument" "ReturnStatementWithoutArgument"
        :: concat codes
        ++ [PopStack; Hook "exit_return_statement" (Var "node")]
    /\ Forall2
         (fun field code =>
            (exists index, fieldCodeFor (U := Sample.utils) field index = Ok code)
            /\ (firstIs (snd (typeAndWrappers (Utils := Sample.utils) (Field.type field)))
                       "Option" = true ->
                forall callFn env st,
                  readPlace env (fieldCodeOf field) = Some NoneV ->
                  runBlock (exec (S := unit) (ancestorEnum returnAncestors) returnTrait
                              (fun _ => None) callFn)
                           code env st
                  = Some (env, st, [])))
         [argumentField] codes.
Proof.
  apply (absent_optional_field (U := Sample.utils) (S := unit)
           (ancestorEnum returnAncestors) returnTrait (fun _ => None)
           (struct "ReturnStatement" true
              [Field.mk "span" "Span" "span" "Span" "Span"
                        (Some "OFFSET_RETURN_STATEMENT_SPAN") None;
               argumentField])
           returnAnnotated _ argumentField []).
  - reflexivity.
  - reflexivity.
Defined.

(** C2, as stated, fails for a first visited field: walking a [return;] node,
    whose only visited field [argument] holds [None], pushes the tag of that
    field (discriminant 1) all the same. *)
Lemma absent_first_field_is_pushed :
  discriminantOf (ancestorEnum returnAncestors) "ReturnStatementArgument" = Some 1
  /\ call (S := unit) (ancestorEnum returnAncestors) returnTrait (fun _ => None)
          returnProgram 1 "walk_return_statement" bareReturn (mkState tt [])
     = Some (bareReturn, mkState tt [],
             [EvHook "enter_return_statement"; EvPush 1; EvPop;
              EvHook "exit_return_statement"]).
Proof. split; reflexivity. Qed.

(** ** Who touches the ancestor stack *)

(** Splits a hypothesis that says a sequence of partial steps succeeded. *)
Ltac scrutinee t :=
  lazymatch t with
  | match ?x with _ => _ end => scrutinee x
  | _ => constr:(t)
  end.

Ltac step_in H :=
  lazymatch type of H with
  | match ?y with _ => _ end = _ =>
      let x := scrutinee y in
      first [ is_var x; destruct x
            | let E := fresh "E" in destruct x eqn:E ];
      try discriminate H; cbn beta iota in H
  end.

Section StackFacts.
Context {U : Utils}.

Lemma walkMethods_Forall2 fuel types : forall todo fns,
  walkMethods fuel todo types = Ok fns ->
  Forall2 (fun type fn =>
             match type with
             | struct _ _ _ => generateWalkForStruct type types
             | enum _ _ _ _ => generateWalkForEnum fuel type types
             end = Ok fn)
          todo fns.
Proof.
  induction todo as [|type todo IH]; intros fns H; simpl in H.
  - inversion H. constructor.
  - match type of H with bind ?r _ = _ => destruct r as [f| |] eqn:E end;
      simpl in H; try discriminate.
    destruct (walkMethods fuel todo types) as [fs| |] eqn:E2; simpl in H; try discriminate.
    inversion H; subst. constructor; auto.
Qed.

Lemma Forall2_In_r {A B : Type} (P : A -> B -> Prop) l l' y :
  Forall2 P l l' -> In y l' -> exists x, In x l /\ P x y.
Proof.
  induction 1 as [|x y' l l' HP _ IH]; intros HIn; [destruct HIn|].
  destruct HIn as [->|HIn]; [exists x; simpl; auto|].
  destruct (IH HIn) as (x' & H1 & H2). exists x'. simpl. auto.
Qed.

Lemma Forall2_In_l {A B : Type} (P : A -> B -> Prop) l l' x :
  Forall2 P l l' -> In x l -> exists y, In y l' /\ P x y.
Proof.
  induction 1 as [|x' y l l' HP _ IH]; intros HIn; [destruct HIn|].
  destruct HIn as [->|HIn]; [exists y; simpl; auto|].
  destruct (IH HIn) as (y' & H1 & H2). exists y'. simpl. auto.
Qed.

Lemma stackOps_enum_body m1 e1 e arms m2 e2 :
  stackOps [Hook m1 e1; Match e arms; Hook m2 e2] = [].
Proof.
  unfold stackOps. cbn [flat_map opsOf app filter isStackOp].
  induction arms as [|arm arms IH]; simpl; auto.
Qed.

Lemma callHook_stack {S : Type} trait (impl : string -> option (HookFn S))
    method v st v' st' tr :
  callHook trait impl method v st = Some (v', st', tr) ->
  stack st' = stack st /\ tr = [EvHook method].
Proof.
  unfold callHook. intros H. repeat step_in H; inversion H; subst; auto.
Qed.

(** C10.  In an emitted program a function whose body holds a push, a retag
    or a pop is the walk function of a struct.  The walk function of an enum
    is the [enter] hook, the [match] and the [exit] hook; hooks leave the
    stack as it is, so every completed run of the function has handed the
    value, or its payload, to one walk function with the stack the function
    was entered with, and returns with the stack as that call left it. *)
Theorem only_struct_walks_touch_stack (fuel : nat) (types : Types)
    (program : list Function) :
  generateWalkFunctionsCode fuel types = Ok program ->
  (forall fn, In fn program -> stackOps (fnBody fn) <> [] ->
     exists name lt fields,
       In (struct name lt fields) types
       /\ generateWalkForStruct (struct name lt fields) types = Ok fn)
  /\ (forall name lt variants inherits,
        In (enum name lt variants inherits) types ->
        exists fn arms,
          In fn program
          /\ fnName fn = walkFnName name
          /\ fnBody fn
             = [Hook ("enter_" ++ camelToSnake name)%string (Var "node");
                Match (Var "node") arms;
                Hook ("exit_" ++ camelToSnake name)%string (Var "node")]
          /\ stackOps (fnBody fn) = []
          /\ forall (S : Type) ancestor trait (impl : string -> option (HookFn S))
                    callFn v st v' env' st' tr,
               scoped (runBlock (exec ancestor trait impl callFn) (fnBody fn))
                      (fnParam fn) v [] st
               = Some (v', env', st', tr) ->
               exists variant arm arg st1 arg' st2 tr2,
                 dispatch arms variant = Some arm
                 /\ callFn (armFn arm) arg st1 = Some (arg', st2, tr2)
                 /\ stack st1 = stack st
                 /\ stack st' = stack st2
                 /\ tr = [EvHook ("enter_" ++ camelToSnake name)%string] ++ tr2
                         ++ [EvHook ("exit_" ++ camelToSnake name)%string]).
Proof.
  unfold generateWalkFunctionsCode. intros H.
  destruct (walkMethods fuel types types) as [fns| |] eqn:E; simpl in H; try discriminate.
  inversion H; subst program. clear H. apply walkMethods_Forall2 in E.
  split.
  - intros fn HIn HS. apply in_app_or in HIn. destruct HIn as [HIn|[<-|[]]].
    + destruct (Forall2_In_r _ _ _ _ E HIn) as (type & HT & Hg).
      destruct type as [name lt fields|name lt variants inherits].
      * exists name, lt, fields. split; [exact HT|exact Hg].
      * apply generateWalkForEnum_body in Hg. destruct Hg as (inh & _ & _ & ->).
        exfalso. apply HS. apply stackOps_enum_body.
    + exfalso. apply HS. reflexivity.
  - intros name lt variants inherits HIn.
    assert (X : exists fn, In fn fns
                  /\ generateWalkForEnum fuel (enum name lt variants inherits) types = Ok fn).
    { apply (Forall2_In_l _ _ _ _ E HIn). }
    destruct X as (fn & HF & Hg).
    apply generateWalkForEnum_body in Hg. destruct Hg as (inh & _ & _ & ->).
    eexists; eexists. split; [apply in_or_app; left; exact HF|].
    split; [reflexivity|]. split; [reflexivity|]. split.
    + apply stackOps_enum_body.
    + intros S ancestor trait impl callFn v st v' env' st' tr HR.
      cbn [fnBody fnParam type_name] in HR. unfold scoped in HR.
      simpl in HR. unfold walkCall, scoped in HR.
      repeat step_in HR; inversion HR; subst; clear HR;
        match goal with
        | H1 : callHook _ _ _ _ st = Some (_, ?s1, _),
          H2 : callFn (armFn ?a) ?arg ?s1 = Some (?arg', ?s2, ?tr2),
          H3 : callHook _ _ _ _ ?s2 = Some (_, _, _),
          H4 : dispatch _ ?variant = Some ?a |- _ =>
            apply callHook_stack in H1; destruct H1 as [H1 ->];
            apply callHook_stack in H3; destruct H3 as [H3 ->];
            exists variant, a, arg, s1, arg', s2, tr2;
            rewrite app_nil_r; auto
        end.
Qed.

End StackFacts.

(** ** Inherited variants *)

Section InheritanceFacts.
Context {U : Utils}.

Lemma inheritsFrom_isEnum types n d :
  inheritsFrom types n d -> isEnum types n = true.
Proof.
  intros H. destruct H as [n H|n b d name lt variants inherits L _ _]; auto.
  unfold isEnum. rewrite L. reflexivity.
Qed.

Lemma inheritedLoop_sound types typeName : forall fuel pending matches missing r,
  inheritedLoop fuel types typeName pending matches missing = Ok r ->
  forall p, In p (fst r) ->
    In p matches
    \/ exists b d, In b pending /\ inheritsFrom types b d /\ declares types d (snd p).
Proof.
  induction fuel as [|fuel IH]; intros pending matches missing r H p Hp;
    destruct pending as [|n0 pending]; simpl in H; try discriminate.
  - inversion H; subst. auto.
  - inversion H; subst. auto.
  - destruct (lookup types n0) as [[name lt fields|name lt variants inherits]|] eqn:L.
    + destruct (IH _ _ _ _ H p Hp) as [X|(b & d & Hb & X)]; auto.
      right. exists b, d. split; [right; exact Hb|exact X].
    + destruct (IH _ _ _ _ H p Hp) as [X|(b & d & Hb & Hi & Hd)].
      * apply in_app_or in X. destruct X as [X|X]; auto.
        right. exists n0, n0. split; [left; reflexivity|]. split.
        -- constructor. unfold isEnum. rewrite L. reflexivity.
        -- apply in_map_iff in X. destruct X as (v & <- & Hv).
           exists name, lt, variants, inherits. split; auto.
           simpl. apply in_map. exact Hv.
      * right. apply in_app_or in Hb. destruct Hb as [Hb|Hb].
        -- exists b, d. split; [right; exact Hb|auto].
        -- exists n0, d. split; [left; reflexivity|]. split; auto.
           econstructor; eauto.
    + destruct (IH _ _ _ _ H p Hp) as [X|(b & d & Hb & X)]; auto.
      right. exists b, d. split; [right; exact Hb|exact X].
Qed.

Lemma inheritedLoop_complete types typeName : forall fuel pending matches missing r,
  inheritedLoop fuel types typeName pending matches missing = Ok r ->
  (forall p, In p matches -> In p (fst r))
  /\ forall b d V,
      In b pending -> inheritsFrom types b d -> declares types d V ->
      In (typeName, V) (fst r).
Proof.
  induction fuel as [|fuel IH]; intros pending matches missing r H;
    destruct pending as [|n0 pending]; simpl in H; try discriminate.
  - inversion H; subst. split; auto. intros ? ? ? [].
  - inversion H; subst. split; auto. intros ? ? ? [].
  - destruct (lookup types n0) as [[name lt fields|name lt variants inherits]|] eqn:L;
      apply IH in H; destruct H as [H1 H2].
    + split; auto. intros b d V [->|Hb] Hi Hd; [|eapply H2; eauto].
      apply inheritsFrom_isEnum in Hi. unfold isEnum in Hi. rewrite L in Hi. discriminate.
    + split; [intros p Hp; apply H1, in_or_app; auto|].
      intros b d V [->|Hb] Hi Hd.
      * destruct Hi as [n _|n b' d' name' lt' variants' inherits' L' Hb' Hi'].
        -- destruct Hd as (name' & lt' & variants' & inherits' & L' & HV).
           rewrite L in L'. inversion L'; subst. apply H1, in_or_app. right.
           apply in_map_iff in HV. destruct HV as (v & <- & Hv).
           apply in_map_iff. exists v. auto.
        -- rewrite L in L'. inversion L'; subst.
           eapply H2; eauto. apply in_or_app. auto.
      * eapply H2; eauto. apply in_or_app. auto.
    + split; auto. intros b d V [->|Hb] Hi Hd; [|eapply H2; eauto].
      apply inheritsFrom_isEnum in Hi. unfold isEnum in Hi. rewrite L in Hi. discriminate.
Qed.

Lemma inheritedLoop_finite types typeName : forall fuel pending matches missing r,
  inheritedLoop fuel types typeName pending matches missing = Ok r ->
  forall b, In b pending -> finiteInherits types b.
Proof.
  induction fuel as [|fuel IH]; intros pending matches missing r H b Hb;
    destruct pending as [|n0 pending]; simpl in H; try discriminate;
    try (destruct Hb; fail).
  destruct (lookup types n0) as [[name lt fields|name lt variants inherits]|] eqn:L.
  - destruct Hb as [->|Hb]; [|eapply IH; eauto].
    apply finite_leaf. unfold isEnum. rewrite L. reflexivity.
  - destruct Hb as [->|Hb].
    + eapply finite_node; eauto. intros b' Hb'. eapply IH; eauto.
      apply in_or_app. auto.
    + eapply IH; eauto. apply in_or_app. auto.
  - destruct Hb as [->|Hb]; [|eapply IH; eauto].
    apply finite_leaf. unfold isEnum. rewrite L. reflexivity.
Qed.

End InheritanceFacts.

Section ProgramFacts.
Context {U : Utils}.

Lemma findFn_distinct : forall (program : list Function) fn,
  distinct (map fnName program) = true ->
  In fn program ->
  findFn (fnName fn) program = Some fn.
Proof.
  unfold findFn. induction program as [|f program IH]; intros fn D HIn; [destruct HIn|].
  simpl in *. apply andb_true_iff in D. destruct D as [D1 D2].
  destruct HIn as [->|HIn]; [rewrite String.eqb_refl; reflexivity|].
  destruct (String.eqb_spec (fnName f) (fnName fn)) as [E|N]; [|apply IH; auto].
  exfalso. apply negb_true_iff in D1.
  assert (X : existsb (String.eqb (fnName f)) (map fnName program) = true).
  { apply existsb_exists. exists (fnName fn). split; [apply in_map; exact HIn|].
    apply String.eqb_eq. exact E. }
  congruence.
Qed.

Lemma lookup_In types n type :
  lookup types n = Some type -> In type types /\ type_name type = n.
Proof.
  unfold lookup. intros H. apply find_some in H. destruct H as [H1 H2].
  apply String.eqb_eq in H2. auto.
Qed.

(** The emitted program holds, for every catalogued type, the function
    generated for it. *)
Lemma program_has fuel types program :
  generateWalkFunctionsCode fuel types = Ok program ->
  In walk_statements program
  /\ forall type, In type types ->
       exists fn, In fn program
                  /\ match type with
                     | struct _ _ _ => generateWalkForStruct type types
                     | enum _ _ _ _ => generateWalkForEnum fuel type types
                     end = Ok fn.
Proof.
  unfold generateWalkFunctionsCode. intros H.
  destruct (walkMethods fuel types types) as [fns| |] eqn:E; simpl in H; try discriminate.
  inversion H; subst program. apply walkMethods_Forall2 in E. split.
  - apply in_or_app. right. left. reflexivity.
  - intros type HIn. destruct (Forall2_In_l _ _ _ _ E HIn) as (fn & H1 & H2).
    exists fn. split; [apply in_or_app; auto|exact H2].
Qed.

Lemma findFn_enum fuel types program n name lt variants inherits :
  generateWalkFunctionsCode fuel types = Ok program ->
  distinct (map fnName program) = true ->
  lookup types n = Some (enum name lt variants inherits) ->
  exists inherited,
    inheritedArms fuel types n inherits [] = Ok (inherited, [])
    /\ (forall variant, In variant variants ->
          inTypes types (fst (typeAndWrappers (Variant.type variant))) = true
          /\ (snd (typeAndWrappers (Variant.type variant)) = []
              \/ snd (typeAndWrappers (Variant.type variant)) = ["Box"]))
    /\ findFn (walkFnName n) program
       = Some (mkFunction (walkFnName n) "node" (toTypeName (enum name lt variants inherits))
                 [Hook ("enter_" ++ camelToSnake n)%string (Var "node");
                  Match (Var "node") (map (ownArm n) variants ++ inherited);
                  Hook ("exit_" ++ camelToSnake n)%string (Var "node")]).
Proof.
  intros G D L. apply lookup_In in L. destruct L as [HIn Hn]. simpl in Hn. subst name.
  destruct (program_has _ _ _ G) as [_ P]. destruct (P _ HIn) as (fn & HF & Hg).
  apply generateWalkForEnum_body in Hg. destruct Hg as (inherited & H1 & H2 & ->).
  exists inherited. split; [exact H1|]. split; [exact H2|].
  apply (findFn_distinct _ _ D HF).
Qed.

Lemma dispatch_inherited types typeName fuel V : forall inherits missing arms missing',
  inheritedArms fuel types typeName inherits missing = Ok (arms, missing') ->
  (exists b d, In b inherits /\ inheritsFrom types b d /\ declares types d V) ->
  exists arm b d,
    dispatch arms V = Some arm
    /\ armBinds arm = false /\ armFn arm = walkFnName b /\ armArg arm = Var "node"
    /\ In b inherits /\ inheritsFrom types b d /\ declares types d V
    /\ finiteInherits types b.
Proof.
  unfold dispatch.
  induction inherits as [|base inherits IH]; intros missing arms missing' H (b & d & Hb & Hi & Hd);
    [destruct Hb|]. simpl in H.
  destruct (inheritedLoop fuel types typeName [base] [] missing) as [[m1 miss1]| |] eqn:E1;
    simpl in H; try discriminate.
  destruct (inheritedArms fuel types typeName inherits miss1) as [[arms2 miss2]| |] eqn:E2;
    simpl in H; try discriminate.
  inversion H; subst. simpl.
  destruct (armMatches V (mkArm m1 false (walkFnName base) (Var "node"))) eqn:M.
  - unfold armMatches in M. simpl in M. apply existsb_exists in M.
    destruct M as (p & Hp & Ep). apply String.eqb_eq in Ep.
    destruct (inheritedLoop_sound _ _ _ _ _ _ _ E1 p Hp) as [[]|(b' & d' & Hb' & Hi' & Hd')].
    destruct Hb' as [<-|[]]. rewrite Ep in Hd'.
    eexists. exists base, d'.
    split; [reflexivity|]. split; [reflexivity|]. split; [reflexivity|].
    split; [reflexivity|]. split; [left; reflexivity|]. split; [exact Hi'|].
    split; [exact Hd'|]. eapply inheritedLoop_finite; [exact E1|]. left. reflexivity.
  - destruct Hb as [->|Hb].
    + exfalso. apply inheritedLoop_complete in E1. destruct E1 as [_ E1].
      specialize (E1 b d V (or_introl eq_refl) Hi Hd). simpl in E1.
      unfold armMatches in M. simpl in M.
      assert (X : existsb (fun p => String.eqb (snd p) V) m1 = true).
      { apply existsb_exists. exists (typeName, V). split; auto. apply String.eqb_refl. }
      congruence.
    + destruct (IH _ _ _ E2) as (arm & b' & d' & H1 & H2 & H3 & H4 & H5 & H6);
        [exists b, d; auto|].
      exists arm, b', d'. repeat split; try tauto.
Qed.

Lemma routes_from_finite fuel types program V :
  generateWalkFunctionsCode fuel types = Ok program ->
  distinct (map fnName program) = true ->
  forall n, finiteInherits types n ->
    (exists d, inheritsFrom types n d /\ declares types d V) ->
    exists D, routes program V n D /\ inheritsFrom types n D /\ declares types D V.
Proof.
  intros G Dn n F. induction F as [n HE|n name lt variants inherits L _ IH];
    intros (d & Hi & Hd).
  - apply inheritsFrom_isEnum in Hi. congruence.
  - destruct (findFn_enum _ _ _ _ _ _ _ _ G Dn L) as (inherited & HA & _ & HF).
    destruct (in_dec string_dec V (map Variant.name variants)) as [Own|NotOwn].
    + exists n. split; [|split].
      * apply in_map_iff in Own. destruct Own as (v & Ev & Hv).
        destruct (find (fun v => String.eqb (Variant.name v) V) variants) as [v0|] eqn:Fd.
        -- eapply routes_own; [exact HF|reflexivity|apply dispatch_own; exact Fd|].
           unfold ownArm. destruct (typeAndWrappers (Variant.type v0)). reflexivity.
        -- exfalso. eapply find_none in Fd; [|exact Hv]. simpl in Fd.
           rewrite Ev, String.eqb_refl in Fd. discriminate.
      * constructor. unfold isEnum. rewrite L. reflexivity.
      * exists name, lt, variants, inherits. auto.
    + assert (X : exists b d', In b inherits /\ inheritsFrom types b d' /\ declares types d' V).
      { destruct Hi as [n _|n b d' name' lt' variants' inherits' L' Hb' Hi'].
        - destruct Hd as (name' & lt' & variants' & inherits' & L' & HV).
          rewrite L in L'. inversion L'; subst. contradiction.
        - rewrite L in L'. inversion L'; subst. eauto. }
      destruct (dispatch_inherited _ _ _ V _ _ _ _ HA X)
        as (arm & b & d' & H1 & H2 & H3 & H4 & H5 & H6 & H7 & _).
      destruct (IH b H5) as (D & R & RI & RD); [eauto|].
      exists D. split; [|split; [|exact RD]].
      * eapply routes_inherited with (arm := arm) (B := b);
          [exact HF|reflexivity|rewrite dispatch_not_own; auto
          |exact H2|exact H3|exact H4|exact R].
      * econstructor; eauto.
Qed.

(** C4.  In an emitted program whose functions have distinct names, let [V]
    be a variant that the enum [T] does not list itself but that an enum [T]
    inherits from, directly or through other enums, lists.  The [match] of
    [T]'s walk function then has an arm for [V]: the arm of an enum [B] that
    [T] inherits from directly, which hands the node to [B]'s walk function;
    and from there the value is passed on, enum by enum, until it reaches the
    walk function of an enum that lists [V] itself. *)
Theorem inherited_variant_dispatch (fuel : nat) (types : Types) (program : list Function)
    (T name : string) (lt : bool) (variants : list Variant.t) (inherits : list string)
    (V D : string) :
  generateWalkFunctionsCode fuel types = Ok program ->
  distinct (map fnName program) = true ->
  lookup types T = Some (enum name lt variants inherits) ->
  ~ In V (map Variant.name variants) ->
  inheritsFrom types T D ->
  declares types D V ->
  exists fn arms arm B D',
    findFn (walkFnName T) program = Some fn
    /\ fnBody fn
       = [Hook ("enter_" ++ camelToSnake T)%string (Var "node");
          Match (Var "node") arms;
          Hook ("exit_" ++ camelToSnake T)%string (Var "node")]
    /\ dispatch arms V = Some arm
    /\ armBinds arm = false
    /\ armFn arm = walkFnName B
    /\ armArg arm = Var "node"
    /\ In B inherits
    /\ routes program V B D'
    /\ inheritsFrom types B D'
    /\ declares types D' V.
Proof.
  intros G Dn L NotOwn Hi Hd.
  destruct (findFn_enum _ _ _ _ _ _ _ _ G Dn L) as (inherited & HA & _ & HF).
  assert (X : exists b d', In b inherits /\ inheritsFrom types b d' /\ declares types d' V).
  { destruct Hi as [n _|n b d' name' lt' variants' inherits' L' Hb' Hi'].
    - destruct Hd as (name' & lt' & variants' & inherits' & L' & HV).
      rewrite L in L'. inversion L'; subst. contradiction.
    - rewrite L in L'. inversion L'; subst. eauto. }
  destruct (dispatch_inherited _ _ _ V _ _ _ _ HA X)
    as (arm & b & d' & H1 & H2 & H3 & H4 & H5 & H6 & H7 & H8).
  destruct (routes_from_finite _ _ _ V G Dn b H8) as (D' & R & RI & RD); [eauto|].
  eexists. exists (map (ownArm T) variants ++ inherited), arm, b, D'.
  split; [exact HF|]. split; [reflexivity|].
  rewrite dispatch_not_own; auto. repeat split; auto.
Qed.

End ProgramFacts.

(** ** The catalogue as [generateAncestorsCode] leaves it *)

Section AnnotationFacts.
Context {U : Utils}.

Lemma annotatedField_mono types0 typeName (ev ev' : list EnumVariant) f f' :
  (forall x, In x ev -> In x ev') ->
  annotatedField types0 typeName ev f f' -> annotatedField types0 typeName ev' f f'.
Proof.
  intros M (H1 & H2 & H3 & H4). repeat split; auto.
  intros T. destruct (H4 T) as (d & sn & A & B). exists d, sn. auto.
Qed.

Lemma annotatedType_mono types0 (ev ev' : list EnumVariant) t t' :
  (forall x, In x ev -> In x ev') ->
  annotatedType types0 ev t t' -> annotatedType types0 ev' t t'.
Proof.
  intros M H. destruct t as [name lt fields|]; simpl in *; auto.
  destruct H as (fields' & -> & F). exists fields'. split; auto.
  eapply Forall2_impl; [|exact F]. intros a b. apply annotatedField_mono, M.
Qed.

Lemma Forall2_map_left {A B C : Type} (g : A -> B) (P : B -> C -> Prop) :
  forall l l', Forall2 P (map g l) l' -> Forall2 (fun a c => P (g a) c) l l'.
Proof.
  induction l as [|a l IH]; intros l' H; inversion H; subst; constructor; auto.
Qed.

Lemma tagFields_annotated types0 type all :
  forall rest i st vn fs st' vn',
    tagFields types0 type all i rest st vn = (fs, st', vn') ->
    Forall2 (annotatedField types0 (type_name type) (g_enumVariants st')) rest fs.
Proof.
  induction rest as [|field rest IH]; intros i st vn fs st' vn' H; simpl in H.
  - inversion H. constructor.
  - destruct (lookup types0 (Field.innerTypeName field)) as [fieldType|] eqn:L.
    + destruct (tagFields types0 type all (Datatypes.S i) rest _ _) as [[fs0 st0] vn0] eqn:E.
      inversion H; subst. constructor; [|eapply IH; eauto].
      repeat split; auto. intros _.
      exists (g_discriminant st), (withoutStructName type field). split; [reflexivity|].
      apply tagFields_items in E. destruct E as (_ & M & _). apply M.
      cbn [g_enumVariants]. apply in_or_app. right. left. reflexivity.
    + destruct (tagFields types0 type all (Datatypes.S i) rest st vn) as [[fs0 st0] vn0] eqn:E.
      inversion H; subst. constructor; [|eapply IH; eauto].
      repeat split; auto. unfold tagged, inTypes. rewrite L. discriminate.
Qed.

Lemma ancestorsForType_annotated types0 type st type' st' :
  ancestorsForType types0 type st = (type', st') ->
  annotatedType types0 (g_enumVariants st') type type'
  /\ (forall x, In x (g_enumVariants st) -> In x (g_enumVariants st')).
Proof.
  intros H. destruct type as [name lt fields|name lt variants inherits].
  - pose proof H as H'. apply ancestorsForType_items in H'. destruct H' as (_ & M & _).
    split; [|exact M]. simpl in H.
    destruct (tagFields types0 _ _ 0 _ _ _) as [[fs0 st0] vn0] eqn:E.
    apply tagFields_annotated in E.
    assert (A : type' = struct name lt fs0 /\ g_enumVariants st' = g_enumVariants st0).
    { destruct vn0; inversion H; subst; auto. }
    destruct A as [-> ->]. simpl. exists fs0. split; auto.
    apply Forall2_map_left in E. eapply Forall2_impl; [|exact E].
    intros f f' (H1 & H2 & H3 & H4). repeat split; auto.
  - inversion H; subst. split; auto. reflexivity.
Qed.

Lemma ancestorsLoop_annotated types0 : forall todo st done st',
  ancestorsLoop types0 todo st = (done, st') ->
  Forall2 (annotatedType types0 (g_enumVariants st')) todo done.
Proof.
  induction todo as [|type todo IH]; intros st done st' H; simpl in H.
  - inversion H. constructor.
  - destruct (ancestorsForType types0 type st) as [type' st1] eqn:E1.
    destruct (ancestorsLoop types0 todo st1) as [done2 st2] eqn:E2.
    inversion H; subst. constructor; [|eapply IH; eauto].
    apply ancestorsForType_annotated in E1. destruct E1 as [A _].
    apply ancestorsLoop_items in E2. destruct E2 as (_ & M & _).
    eapply annotatedType_mono; eauto.
Qed.

Lemma annotatedType_name types0 ev t t' :
  annotatedType types0 ev t t' -> type_name t' = type_name t.
Proof.
  destruct t; simpl; [intros (fields' & -> & _)|intros ->]; reflexivity.
Qed.

Lemma lookup_annotated types0 ev : forall l l',
  Forall2 (annotatedType types0 ev) l l' ->
  forall n, inTypes l' n = inTypes l n.
Proof.
  unfold inTypes, lookup. induction 1 as [|t t' l l' HA _ IH]; intros n; simpl; auto.
  rewrite (annotatedType_name _ _ _ _ HA).
  destruct (String.eqb (type_name t) n); auto.
Qed.

Lemma consistent_In types0 type field :
  consistent types0 = true ->
  In type types0 -> In field (fieldsOf type) ->
  Field.innerTypeName field = unwrapTypeName (Field.type field).
Proof.
  unfold consistent. intros C HT HF.
  rewrite forallb_forall in C. specialize (C type HT).
  rewrite forallb_forall in C. apply String.eqb_eq, C, HF.
Qed.

Lemma discriminantOf_In (ancestor : list EnumVariant) vn sn d :
  In (mkEnumVariant vn sn d) ancestor ->
  exists d', discriminantOf ancestor vn = Some d'.
Proof.
  unfold discriminantOf. intros HIn.
  destruct (find (fun ev => String.eqb (variantName ev) vn) ancestor) as [ev|] eqn:F.
  - exists (discriminant ev). reflexivity.
  - eapply find_none in F; [|exact HIn]. simpl in F. rewrite String.eqb_refl in F.
    discriminate.
Qed.

(** In the catalogue left by [generateAncestorsCode], the names are those of
    the catalogue it was given, and every visited field of a struct carries a
    discriminant and has its tag declared by the [Ancestor] enum. *)
Lemma annotated_catalogue types0 :
  consistent types0 = true ->
  let code := fst (generateAncestorsCode types0) in
  let types := snd (generateAncestorsCode types0) in
  forall name lt fields field,
    In (struct name lt fields) types ->
    In field (visitedFields (struct name lt fields) types) ->
    (exists d, Field.ancestorDiscriminant field = Some d)
    /\ exists d, discriminantOf (ancestorEnum code) (tagName name field) = Some d.
Proof.
  intros C code types name lt fields field HT HF. subst code types.
  unfold generateAncestorsCode in *.
  destruct (ancestorsLoop types0 types0 initialState) as [types st] eqn:E.
  cbn [fst snd ancestorEnum] in *.
  apply ancestorsLoop_annotated in E.
  pose proof (lookup_annotated _ _ _ _ E) as LK.
  destruct (Forall2_In_r _ _ _ _ E HT) as (t0 & HT0 & A).
  destruct t0 as [name0 lt0 fields0|]; simpl in A; [|subst; discriminate].
  destruct A as (fields' & A1 & A2). inversion A1; subst name0 lt0 fields'. clear A1.
  unfold visitedFields in HF. cbn [fieldsOf] in HF. apply filter_In in HF.
  destruct HF as [HF HV]. rewrite LK in HV.
  destruct (Forall2_In_r _ _ _ _ A2 HF) as (f0 & HF0 & (N1 & N2 & N3 & N4)).
  rewrite N2 in HV.
  assert (T : tagged types0 f0 = true).
  { unfold tagged. rewrite (consistent_In _ _ _ C HT0 HF0). exact HV. }
  destruct (N4 T) as (d & sn & D1 & D2). split; [eauto|].
  unfold tagName in *. rewrite N1.
  eapply discriminantOf_In. right. exact D2.
Qed.

End AnnotationFacts.

(** ** A pass with the default visitor *)

Section RunFacts.
Context {S : Type}.
Context (ancestor : list EnumVariant) (trait : list TraitMethod)
        (impl : string -> option (HookFn S)).

Lemma assocSet_same : forall (l : list (string * Value)) x v,
  assoc x l = Some v -> assocSet x v l = Some l.
Proof.
  induction l as [|[y w] l IH]; intros x v H; simpl in *; [discriminate|].
  destruct (String.eqb y x).
  - inversion H; reflexivity.
  - rewrite (IH _ _ H). reflexivity.
Qed.

Lemma writePlace_same : forall e env v,
  readPlace env e = Some v -> writePlace env e v = Some env.
Proof.
  induction e as [x|o ty|e IH]; intros env v H; simpl in *.
  - apply assocSet_same, H.
  - destruct o as [o|]; [|discriminate].
    destruct (assoc "node" env) as [[| fields| | | | |]|] eqn:E; try discriminate.
    rewrite (assocSet_same _ _ _ H). apply assocSet_same, E.
  - destruct (readPlace env e) as [[| | | | | |b]|] eqn:E; try discriminate.
    inversion H; subst. apply IH, E.
Qed.

Lemma runBlock_app (run : Stmt -> Env -> State S -> option (Outcome (S := S))) :
  forall a b env st env1 st1 tr1 env2 st2 tr2,
    runBlock run a env st = Some (env1, st1, tr1) ->
    runBlock run b env1 st1 = Some (env2, st2, tr2) ->
    runBlock run (a ++ b) env st = Some (env2, st2, tr1 ++ tr2).
Proof.
  induction a as [|s a IH]; intros b env st env1 st1 tr1 env2 st2 tr2 H1 H2; simpl in *.
  - inversion H1; subst. exact H2.
  - destruct (run s env st) as [[[e0 s0] t0]|]; [|discriminate].
    destruct (runBlock run a e0 s0) as [[[e3 s3] t3]|] eqn:E; [|discriminate].
    inversion H1; subst. rewrite (IH _ _ _ _ _ _ _ _ _ E H2), app_assoc. reflexivity.
Qed.

Lemma runBlock_cons (run : Stmt -> Env -> State S -> option (Outcome (S := S)))
    s rest env st env1 st1 tr1 env2 st2 tr2 :
  run s env st = Some (env1, st1, tr1) ->
  runBlock run rest env1 st1 = Some (env2, st2, tr2) ->
  runBlock run (s :: rest) env st = Some (env2, st2, tr1 ++ tr2).
Proof. intros H1 H2. simpl. rewrite H1, H2. reflexivity. Qed.

Lemma runBlock_single (run : Stmt -> Env -> State S -> option (Outcome (S := S)))
    s env st env1 st1 tr1 :
  run s env st = Some (env1, st1, tr1) ->
  runBlock run [s] env st = Some (env1, st1, tr1).
Proof. intros H1. simpl. rewrite H1, app_nil_r. reflexivity. Qed.

Section ExecFacts.
Context (callFn : string -> Value -> State S -> option (Value * State S * list Event)).

Lemma exec_Hook method arg env st v v' st' tr :
  readPlace env arg = Some v ->
  callHook trait impl method v st = Some (v', st', tr) ->
  writePlace env arg v' = Some env ->
  exec ancestor trait impl callFn (Hook method arg) env st = Some (env, st', tr).
Proof. intros H1 H2 H3. simpl. rewrite H1, H2, H3. reflexivity. Qed.

Lemma exec_ForIn x e flatten body env st items items' env1 st1 tr env2 :
  readPlace env e = Some (VecV items) ->
  forEach (runBlock (exec ancestor trait impl callFn) body) x flatten items env st
  = Some (items', env1, st1, tr) ->
  writePlace env1 e (VecV items') = Some env2 ->
  exec ancestor trait impl callFn (ForIn x e flatten body) env st = Some (env2, st1, tr).
Proof. intros H1 H2 H3. simpl. rewrite H1, H2, H3. reflexivity. Qed.

Lemma exec_IfLetSome_none x e body env st :
  readPlace env e = Some NoneV ->
  exec ancestor trait impl callFn (IfLetSome x e body) env st = Some (env, st, []).
Proof. intros H1. simpl. rewrite H1. reflexivity. Qed.

Lemma exec_IfLetSome_some x e body env st v v' env1 st1 tr env2 :
  readPlace env e = Some (SomeV v) ->
  scoped (runBlock (exec ancestor trait impl callFn) body) x v env st
  = Some (v', env1, st1, tr) ->
  writePlace env1 e (SomeV v') = Some env2 ->
  exec ancestor trait impl callFn (IfLetSome x e body) env st = Some (env2, st1, tr).
Proof. intros H1 H2 H3. simpl. rewrite H1, H2, H3. reflexivity. Qed.

Lemma exec_Match_binds e arms env st variant payload arm payload' env1 st1 tr env2 :
  readPlace env e = Some (EnumV variant payload) ->
  dispatch arms variant = Some arm ->
  armBinds arm = true ->
  scoped (walkCall callFn (armFn arm) (armArg arm)) "node" payload env st
  = Some (payload', env1, st1, tr) ->
  writePlace env1 e (EnumV variant payload') = Some env2 ->
  exec ancestor trait impl callFn (Match e arms) env st = Some (env2, st1, tr).
Proof. intros H1 H2 H3 H4 H5. simpl. rewrite H1, H2, H3, H4, H5. reflexivity. Qed.

Lemma exec_Match_passes e arms env st variant payload arm r :
  readPlace env e = Some (EnumV variant payload) ->
  dispatch arms variant = Some arm ->
  armBinds arm = false ->
  walkCall callFn (armFn arm) (armArg arm) env st = Some r ->
  exec ancestor trait impl callFn (Match e arms) env st = Some r.
Proof. intros H1 H2 H3 H4. simpl. rewrite H1, H2, H3, H4. reflexivity. Qed.

End ExecFacts.

Lemma depthAfter_app : forall a b d d',
  depthAfter d a = Some d' -> depthAfter d (a ++ b) = depthAfter d' b.
Proof.
  induction a as [|ev a IH]; intros b d d' H; simpl in *.
  - inversion H; reflexivity.
  - destruct ev; try (apply IH; exact H); destruct d; try discriminate; apply IH; exact H.
Qed.

Lemma neutral_nil : neutral [].
Proof. intros d. reflexivity. Qed.

Lemma neutral_app a b : neutral a -> neutral b -> neutral (a ++ b).
Proof. intros Ha Hb d. rewrite (depthAfter_app _ _ _ _ (Ha d)). apply Hb. Qed.

Lemma neutral_hook m : neutral [EvHook m].
Proof. intros d. reflexivity. Qed.

Lemma neutral_above tr : neutral tr -> neutralAbove tr.
Proof. intros H d. apply H. Qed.

Lemma neutralAbove_app a b : neutralAbove a -> neutralAbove b -> neutralAbove (a ++ b).
Proof. intros Ha Hb d. rewrite (depthAfter_app _ _ _ _ (Ha d)). apply Hb. Qed.

End RunFacts.

Section NullPass.
Context {U : Utils} {S : Type}.
Context (types0 : Types) (gfuel : nat) (program : list Function).
Context (C : consistent types0 = true).
Context (G : generateWalkFunctionsCode gfuel (snd (generateAncestorsCode types0))
             = Ok program).
Context (Dn : distinct (map fnName program) = true).
Context (St : camelToSnake "Statement" = "statement").

Local Abbreviation types := (snd (generateAncestorsCode types0)).
Local Abbreviation ancestor := (ancestorEnum (fst (generateAncestorsCode types0))).
Local Abbreviation trait := (generateTraverseTraitCode (snd (generateAncestorsCode types0))).
Local Abbreviation noImpl := (fun _ : string => @None (HookFn S)).
Local Abbreviation run := (call (S := S) ancestor trait noImpl program).
Local Abbreviation step m := (exec (S := S) ancestor trait noImpl (run m)).
Local Abbreviation good m :=
  (forall T v st,
      conforms types m T v ->
      exists tr, run m (walkFnName T) v st = Some (v, st, tr) /\ neutral tr).

Lemma trait_has type :
  In type types ->
  existsb (fun tm => String.eqb (tmName tm) ("enter_" ++ camelToSnake (type_name type)))
          trait = true
  /\ existsb (fun tm => String.eqb (tmName tm) ("exit_" ++ camelToSnake (type_name type)))
             trait = true.
Proof.
  intros HIn. unfold generateTraverseTraitCode. split; apply existsb_exists.
  - exists (mkTraitMethod ("enter_" ++ camelToSnake (type_name type)) (toTypeName type)).
    split; [|apply String.eqb_refl].
    apply in_or_app; left; apply in_flat_map; exists type; split; [exact HIn|].
    left. reflexivity.
  - exists (mkTraitMethod ("exit_" ++ camelToSnake (type_name type)) (toTypeName type)).
    split; [|apply String.eqb_refl].
    apply in_or_app; left; apply in_flat_map; exists type; split; [exact HIn|].
    right. left. reflexivity.
Qed.

Lemma callHook_default method v (st : State S) :
  existsb (fun tm => String.eqb (tmName tm) method) trait = true ->
  callHook trait noImpl method v st = Some (v, st, [EvHook method]).
Proof. unfold callHook. intros ->. reflexivity. Qed.

Lemma hook_statements v (st : State S) :
  callHook trait noImpl "enter_statements" v st = Some (v, st, [EvHook "enter_statements"])
  /\ callHook trait noImpl "exit_statements" v st = Some (v, st, [EvHook "exit_statements"]).
Proof.
  split; apply callHook_default; apply existsb_exists.
  - exists (mkTraitMethod "enter_statements" "Vec<'a, Statement<'a>>").
    split; [|reflexivity]. unfold generateTraverseTraitCode.
    apply in_or_app; right; simpl; auto.
  - exists (mkTraitMethod "exit_statements" "Vec<'a, Statement<'a>>").
    split; [|reflexivity]. unfold generateTraverseTraitCode.
    apply in_or_app; right; simpl; auto.
Qed.

Lemma walk_ok m T arg env x (st : State S) :
  good m ->
  conforms types m T x ->
  readPlace env arg = Some x ->
  exists tr,
    walkCall (run m) (walkFnName T) arg env st = Some (env, st, tr) /\ neutral tr.
Proof.
  intros IH Hc Hr. destruct (IH T x st Hc) as (tr & R & N).
  exists tr. split; [|exact N].
  unfold walkCall. rewrite Hr, R, (writePlace_same _ _ _ Hr). reflexivity.
Qed.

Lemma scoped_walk_ok m T arg x item env (st : State S) :
  good m ->
  conforms types m T item ->
  readPlace ((x, item) :: env) arg = Some item ->
  exists tr,
    scoped (runBlock (step m) [Walk (walkFnName T) arg]) x item env st
    = Some (item, env, st, tr) /\ neutral tr.
Proof.
  intros IH Hc Hr.
  destruct (walk_ok m T arg ((x, item) :: env) item st IH Hc Hr) as (tr & W & N).
  exists tr. split; [|exact N].
  unfold scoped.
  rewrite (runBlock_single (step m) (Walk (walkFnName T) arg) _ _ _ _ _ W). reflexivity.
Qed.

Lemma forEach_ok m T x (fn : string) :
  good m ->
  fn = walkFnName T ->
  forall items env (st : State S),
    Forall (conforms types m T) items ->
    exists tr,
      forEach (runBlock (step m) [Walk fn (Var x)]) x false items env st
      = Some (items, env, st, tr) /\ neutral tr.
Proof.
  intros IH ->. induction items as [|item items IHi]; intros env st F.
  - exists []. split; [reflexivity|apply neutral_nil].
  - inversion F as [|? ? Hc F']; subst.
    destruct (scoped_walk_ok m T (Var x) x item env st IH Hc) as (tr1 & R1 & N1).
    { simpl. rewrite String.eqb_refl. reflexivity. }
    destruct (IHi env st F') as (tr2 & R2 & N2).
    exists (tr1 ++ tr2). split; [|apply neutral_app; auto].
    cbn [forEach]. rewrite R1, R2. reflexivity.
Qed.

Lemma forEach_flatten_ok m T :
  good m ->
  forall items env (st : State S),
    Forall (optionOf (conforms types m T)) items ->
    exists tr,
      forEach (runBlock (step m) [Walk (walkFnName T) (Var "item")]) "item" true items env st
      = Some (items, env, st, tr) /\ neutral tr.
Proof.
  intros IH. induction items as [|item items IHi]; intros env st F.
  - exists []. split; [reflexivity|apply neutral_nil].
  - inversion F as [|? ? Hc F']; subst.
    destruct (IHi env st F') as (tr2 & R2 & N2).
    destruct item as [| | | |item| |]; simpl in Hc; try contradiction.
    + exists tr2. split; [|exact N2]. cbn [forEach]. rewrite R2. reflexivity.
    + destruct (scoped_walk_ok m T (Var "item") "item" item env st IH Hc)
        as (tr1 & R1 & N1); [reflexivity|].
      exists (tr1 ++ tr2). split; [|apply neutral_app; auto].
      cbn [forEach]. rewrite R1, R2. reflexivity.
Qed.

Local Abbreviation quiet m code env st :=
  (exists tr, runBlock (step m) code env st = Some (env, st, tr) /\ neutral tr).

Lemma core_walk m T arg env x (st : State S) :
  good m ->
  conforms types m T x ->
  readPlace env arg = Some x ->
  quiet m [Walk (walkFnName T) arg] env st.
Proof.
  intros IH Hc Hr. destruct (walk_ok m T arg env x st IH Hc Hr) as (tr & W & N).
  exists tr. split; [|exact N].
  apply (runBlock_single (step m) (Walk (walkFnName T) arg)). exact W.
Qed.

Lemma core_for m T e env items (st : State S) :
  good m ->
  readPlace env e = Some (VecV items) ->
  Forall (conforms types m T) items ->
  quiet m [ForIn "item" e false [Walk (walkFnName T) (Var "item")]] env st.
Proof.
  intros IH Hr F.
  destruct (forEach_ok m T "item" _ IH eq_refl items env st F) as (tr & R & N).
  exists tr. split; [|exact N]. apply runBlock_single.
  eapply exec_ForIn; [exact Hr|exact R|apply writePlace_same, Hr].
Qed.

Lemma core_for_flatten m T e env items (st : State S) :
  good m ->
  readPlace env e = Some (VecV items) ->
  Forall (optionOf (conforms types m T)) items ->
  quiet m [ForIn "item" e true [Walk (walkFnName T) (Var "item")]] env st.
Proof.
  intros IH Hr F.
  destruct (forEach_flatten_ok m T IH items env st F) as (tr & R & N).
  exists tr. split; [|exact N]. apply runBlock_single.
  eapply exec_ForIn; [exact Hr|exact R|apply writePlace_same, Hr].
Qed.

Lemma findFn_statements : findFn "walk_statements" program = Some walk_statements.
Proof.
  destruct (program_has _ _ _ G) as [H _]. apply (findFn_distinct _ _ Dn H).
Qed.

Lemma statements_ok k v (st : State S) :
  good k ->
  vecOf (conforms types k "Statement") v ->
  exists tr,
    run (Datatypes.S k) "walk_statements" v st = Some (v, st, tr) /\ neutral tr.
Proof.
  intros IH Hv. destruct v as [| | | | |items|]; simpl in Hv; try contradiction.
  assert (Fn : "walk_statement" = walkFnName "Statement").
  { unfold walkFnName. rewrite St. reflexivity. }
  destruct (forEach_ok k "Statement" "stmt" "walk_statement" IH Fn items
              [("stmts", VecV items)] st Hv) as (tr & R & N).
  destruct (hook_statements (VecV items) st) as [H1 H2].
  exists ([EvHook "enter_statements"] ++ tr ++ [EvHook "exit_statements"]).
  split.
  - assert (B : runBlock (step k) (fnBody walk_statements) [("stmts", VecV items)] st
               = Some ([("stmts", VecV items)], st,
                       [EvHook "enter_statements"] ++ tr ++ [EvHook "exit_statements"])).
    { cbn [walk_statements fnBody]. eapply runBlock_cons.
      - eapply exec_Hook; [reflexivity|exact H1|reflexivity].
      - eapply runBlock_cons.
        + eapply exec_ForIn; [reflexivity|exact R|reflexivity].
        + apply runBlock_single. eapply exec_Hook; [reflexivity|exact H2|reflexivity]. }
    cbn [call]. rewrite findFn_statements. unfold scoped.
    cbn [walk_statements fnParam] in *. rewrite B. reflexivity.
  - repeat apply neutral_app; auto using neutral_hook, neutral_nil.
Qed.

Lemma core_statements m e env v (st : State S) :
  (forall k, m = Datatypes.S k -> good k) ->
  match m with
  | 0 => False
  | Datatypes.S k => vecOf (conforms types k "Statement") v
  end ->
  readPlace env e = Some v ->
  quiet m [Walk "walk_statements" e] env st.
Proof.
  intros IH Hv Hr. destruct m as [|k]; [contradiction|].
  destruct (statements_ok k v st (IH k eq_refl) Hv) as (tr & R & N).
  exists tr. split; [|exact N]. apply runBlock_single.
  cbn [exec]. unfold walkCall.
  rewrite Hr, R, (writePlace_same _ _ _ Hr). reflexivity.
Qed.

(** The outcome of the code of one visited field: node and visitor as they
    were, the stack as it was below its top entry. *)
Local Abbreviation settled m code env st below :=
  (exists st' tr top',
      runBlock (step m) code env st = Some (env, st', tr)
      /\ visitor st' = visitor st
      /\ stack st' = top' :: below
      /\ neutralAbove tr).

Lemma retag_then m retag core env (st : State S) top below :
  stack st = top :: below ->
  (retag = [] \/ exists d, retag = [RetagStack (Some d)]) ->
  (forall st1 : State S, quiet m core env st1) ->
  settled m (retag ++ core) env st below.
Proof.
  intros Hs [->|[d ->]] Q.
  - destruct (Q st) as (tr & R & N). exists st, tr, top.
    split; [exact R|]. split; [reflexivity|]. split; [exact Hs|apply neutral_above, N].
  - destruct (Q (mkState (visitor st) (d :: below))) as (tr & R & N).
    exists (mkState (visitor st) (d :: below)), ([EvRetag d] ++ tr), d.
    split; [|split; [reflexivity|split; [reflexivity|]]].
    + change ([RetagStack (Some d)] ++ core) with (RetagStack (Some d) :: core).
      eapply (runBlock_cons (step m) (RetagStack (Some d))); [|exact R].
      cbn [exec]. unfold retag_stack. rewrite Hs. reflexivity.
    + apply neutralAbove_app; [intros n; reflexivity|apply neutral_above, N].
Qed.

Lemma optional_ok m retag core e env fv (P : Value -> Prop) (st : State S) top below :
  stack st = top :: below ->
  (retag = [] \/ exists d, retag = [RetagStack (Some d)]) ->
  readPlace env e = Some fv ->
  optionOf P fv ->
  (forall w (st1 : State S), P w -> quiet m core (("field", w) :: env) st1) ->
  settled m [IfLetSome "field" e (retag ++ core)] env st below.
Proof.
  intros Hs Hr Hf Hp Q. destruct fv as [| | |  |w| |]; simpl in Hp; try contradiction.
  - exists st, [], top. split; [|split; [reflexivity|split; [exact Hs|intros n; reflexivity]]].
    apply runBlock_single. apply exec_IfLetSome_none. exact Hf.
  - destruct (retag_then m retag core (("field", w) :: env) st top below Hs Hr
                (fun st1 => Q w st1 Hp)) as (st' & tr & top' & R & V & K & N).
    exists st', tr, top'. split; [|split; [exact V|split; [exact K|exact N]]].
    apply runBlock_single. eapply exec_IfLetSome_some; [exact Hf| |].
    + unfold scoped. rewrite R. reflexivity.
    + apply writePlace_same. exact Hf.
Qed.

Lemma field_ok m shape T retag offset ty stored fv (st : State S) top below :
  good m ->
  (forall k, m = Datatypes.S k -> good k) ->
  assoc offset stored = Some fv ->
  fieldValueConforms (conforms types m)
    (fun s => match m with
              | 0 => False
              | Datatypes.S k => vecOf (conforms types k "Statement") s
              end)
    shape T fv ->
  stack st = top :: below ->
  (retag = [] \/ exists d, retag = [RetagStack (Some d)]) ->
  settled m (fieldStmts shape T retag (FieldPtr (Some offset) ty))
          [("node", StructV stored)] st below.
Proof.
  intros IH IHk Ha Hc Hs Hr.
  assert (Rd : readPlace [("node", StructV stored)] (FieldPtr (Some offset) ty) = Some fv)
    by exact Ha.
  destruct shape; cbn [fieldStmts fieldValueConforms] in *.
  - apply (retag_then m retag _ _ st top below Hs Hr). intros st1.
    eapply core_walk; eauto.
  - destruct fv as [| | | | | |x]; simpl in Hc; try contradiction.
    apply (retag_then m retag _ _ st top below Hs Hr). intros st1.
    eapply core_walk; eauto. simpl. rewrite Ha. reflexivity.
  - eapply optional_ok; eauto. intros w st1 Hw.
    eapply core_walk; eauto.
  - destruct (String.eqb T "Statement").
    + eapply optional_ok; eauto. intros w st1 Hw.
      apply (core_statements m _ _ w st1 IHk Hw). reflexivity.
    + eapply optional_ok; eauto. intros w st1 Hw.
      destruct w as [| | | | |items|]; simpl in Hw; try contradiction.
      eapply core_for; eauto. reflexivity.
  - eapply optional_ok; eauto. intros w st1 Hw.
    destruct w as [| | | | | |x]; simpl in Hw; try contradiction.
    eapply core_walk; eauto.
  - destruct (String.eqb T "Statement").
    + apply (retag_then m retag _ _ st top below Hs Hr). intros st1.
      apply (core_statements m _ _ fv st1 IHk Hc Rd).
    + destruct fv as [| | | | |items|]; simpl in Hc; try contradiction.
      apply (retag_then m retag _ _ st top below Hs Hr). intros st1.
      eapply core_for; eauto.
  - destruct fv as [| | | | |items|]; simpl in Hc; try contradiction.
    apply (retag_then m retag _ _ st top below Hs Hr). intros st1.
    eapply core_for_flatten; eauto.
Qed.

Local Abbreviation storedField m stored field :=
  (exists offset shape fv,
      Field.offsetVarName field = Some offset
      /\ shapeOf (snd (typeAndWrappers (Field.type field))) = Some shape
      /\ assoc offset stored = Some fv
      /\ fieldValueConforms (conforms types m)
           (fun s => match m%nat with
                     | 0 => False
                     | Datatypes.S k => vecOf (conforms types k "Statement") s
                     end)
           shape (fst (typeAndWrappers (Field.type field))) fv).

Lemma fields_ok m stored :
  good m ->
  (forall k, m = Datatypes.S k -> good k) ->
  forall fields index codes (st : State S) top below,
    mapIndexed fieldCodeFor index fields = Ok codes ->
    Forall (fun field => exists d, Field.ancestorDiscriminant field = Some d) fields ->
    Forall (fun field => storedField m stored field) fields ->
    stack st = top :: below ->
    settled m (concat codes) [("node", StructV stored)] st below.
Proof.
  intros IH IHk. induction fields as [|field fields IHf];
    intros index codes st top below HM HD HF Hs; simpl in HM.
  - inversion HM; subst. exists st, [], top. cbn [concat runBlock].
    repeat split; auto.
  - destruct (fieldCodeFor field index) as [c| |] eqn:Ec; simpl in HM; try discriminate.
    destruct (mapIndexed fieldCodeFor (Datatypes.S index) fields) as [cs| |] eqn:Em;
      simpl in HM; try discriminate.
    inversion HM; subst codes. clear HM.
    inversion HD as [|? ? [d Hd] HD']; subst.
    inversion HF as [|? ? (offset & shape & fv & Ho & Hsh & Ha & Hc) HF']; subst.
    pose proof (fieldCodeFor_shape field index) as Sh. rewrite Hsh, Ec in Sh.
    inversion Sh; subst c. clear Sh. unfold fieldCodeOf. rewrite Ho.
    destruct (field_ok m shape (fst (typeAndWrappers (Field.type field)))
                (retagCodeOf field index) offset (Field.type field) stored fv
                st top below IH IHk Ha Hc Hs)
      as (st1 & tr1 & top1 & R1 & V1 & K1 & N1).
    { unfold retagCodeOf. rewrite Hd. destruct (Nat.eqb index 0); eauto. }
    destruct (IHf _ _ st1 top1 below Em HD' HF' K1) as (st2 & tr2 & top2 & R2 & V2 & K2 & N2).
    exists st2, (tr1 ++ tr2), top2. cbn [concat].
    split; [eapply runBlock_app; eauto|].
    split; [congruence|]. split; [exact K2|apply neutralAbove_app; auto].
Qed.

Lemma state_eta (st : State S) : mkState (visitor st) (stack st) = st.
Proof. destruct st; reflexivity. Qed.

Lemma struct_ok m T name lt fields stored (st : State S) :
  good m ->
  (forall k, m = Datatypes.S k -> good k) ->
  lookup types T = Some (struct name lt fields) ->
  Forall (fun field => storedField m stored field)
         (visitedFields (struct name lt fields) types) ->
  exists tr,
    run (Datatypes.S m) (walkFnName T) (StructV stored) st = Some (StructV stored, st, tr)
    /\ neutral tr.
Proof.
  intros IH IHk L HF. apply lookup_In in L. destruct L as [HIn Hn]. simpl in Hn. subst name.
  destruct (program_has _ _ _ G) as [_ P]. destruct (P _ HIn) as (fn & Hfn & Hg).
  destruct (trait_has _ HIn) as [He Hx]. cbn [type_name] in He, Hx.
  pose proof (annotated_catalogue types0 C T lt fields) as An. cbn zeta in An.
  assert (HD : Forall (fun field => exists d, Field.ancestorDiscriminant field = Some d)
                      (visitedFields (struct T lt fields) types)).
  { apply Forall_forall. intros field Hf. apply (An field HIn Hf). }
  unfold generateWalkForStruct in Hg.
  destruct (mapIndexed fieldCodeFor 0 (visitedFields (struct T lt fields) types))
    as [codes| |] eqn:Em; simpl in Hg; try discriminate.
  inversion Hg as [Hfn']. clear Hg.
  assert (Ff : findFn (walkFnName T) program = Some fn).
  { rewrite <- (findFn_distinct _ _ Dn Hfn). subst fn. reflexivity. }
  set (env := [("node", StructV stored)] : Env).
  assert (B : exists tr,
             runBlock (step m) (fnBody fn) env st = Some (env, st, tr) /\ neutral tr).
  { subst fn. cbn [fnBody type_name].
    destruct (visitedFields (struct T lt fields) types) as [|first rest] eqn:Ev.
    - simpl in Em. inversion Em; subst codes. cbn [concat app].
      eexists. split.
      + eapply runBlock_cons.
        * eapply exec_Hook; [reflexivity|apply callHook_default, He|reflexivity].
        * apply runBlock_single.
          eapply exec_Hook; [reflexivity|apply callHook_default, Hx|reflexivity].
      + apply neutral_app; apply neutral_hook.
    - destruct (An first HIn) as [_ [d Hd]]; [left; reflexivity|].
      destruct (fields_ok m stored IH IHk _ _ _ (push_stack d st) d (stack st) Em HD HF
                  eq_refl) as (st2 & trf & top2 & Rf & Vf & Kf & Nf).
      cbn [concat app]. rewrite concat_app. cbn [concat]. rewrite app_nil_r, <- app_assoc.
      eexists. split.
      + eapply runBlock_cons.
        * eapply exec_Hook; [reflexivity|apply callHook_default, He|reflexivity].
        * eapply runBlock_cons.
          -- cbn [exec]. unfold tagName in Hd. rewrite Hd. reflexivity.
          -- eapply runBlock_app; [exact Rf|].
             eapply runBlock_cons.
             ++ cbn [exec]. unfold pop_stack. rewrite Kf. reflexivity.
             ++ apply runBlock_single.
                eapply exec_Hook; [reflexivity| |reflexivity].
                rewrite Vf. cbn [push_stack visitor]. rewrite state_eta.
                apply callHook_default, Hx.
      + intros n. cbn [app depthAfter].
        rewrite (depthAfter_app _ _ _ _ (Nf n)). reflexivity. }
  destruct B as (tr & B & N). exists tr. split; [|exact N].
  cbn [call]. rewrite Ff. unfold scoped.
  replace (fnParam fn) with "node" by (subst fn; reflexivity).
  fold env. rewrite B. reflexivity.
Qed.

Lemma own_payload_ok m T variant payload env (st : State S) :
  good m ->
  inTypes types (fst (typeAndWrappers (Variant.type variant))) = true ->
  snd (typeAndWrappers (Variant.type variant)) = []
  \/ snd (typeAndWrappers (Variant.type variant)) = ["Box"] ->
  match snd (typeAndWrappers (Variant.type variant)) with
  | [] => conforms types m (fst (typeAndWrappers (Variant.type variant))) payload
  | _ :: _ => boxOf (conforms types m (fst (typeAndWrappers (Variant.type variant)))) payload
  end ->
  exists tr,
    scoped (walkCall (run m) (armFn (ownArm T variant)) (armArg (ownArm T variant)))
           "node" payload env st
    = Some (payload, env, st, tr)
    /\ neutral tr
    /\ armBinds (ownArm T variant) = true.
Proof.
  intros IH _ HW Hc. unfold ownArm.
  destruct (typeAndWrappers (Variant.type variant)) as [P ws]. cbn [fst snd] in *.
  destruct HW as [-> | ->]; cbn [armFn armArg armBinds].
  - destruct (walk_ok m P (Var "node") (("node", payload) :: env) payload st IH Hc eq_refl)
      as (tr & W & N).
    exists tr. unfold scoped. rewrite W. auto.
  - destruct payload as [| | | | | |x]; simpl in Hc; try contradiction.
    destruct (walk_ok m P (Unbox (Var "node")) (("node", BoxV x) :: env) x st IH Hc eq_refl)
      as (tr & W & N).
    exists tr. unfold scoped. rewrite W. auto.
Qed.

Lemma find_none_names V : forall variants,
  find (fun variant => String.eqb (Variant.name variant) V) variants = None ->
  ~ In V (map Variant.name variants).
Proof.
  intros variants F HIn. apply in_map_iff in HIn. destruct HIn as (v & Ev & Hv).
  eapply find_none in F; [|exact Hv]. simpl in F.
  rewrite Ev, String.eqb_refl in F. discriminate.
Qed.

Lemma enum_ok m T name lt variants inherits V payload (st : State S) :
  good m ->
  lookup types T = Some (enum name lt variants inherits) ->
  match find (fun variant => String.eqb (Variant.name variant) V) variants with
  | Some variant =>
      match snd (typeAndWrappers (Variant.type variant)) with
      | [] => conforms types m (fst (typeAndWrappers (Variant.type variant))) payload
      | _ :: _ =>
          boxOf (conforms types m (fst (typeAndWrappers (Variant.type variant)))) payload
      end
  | None =>
      (exists b, In b inherits /\ reaches types b V)
      /\ forall b, In b inherits -> reaches types b V -> conforms types m b (EnumV V payload)
  end ->
  exists tr,
    run (Datatypes.S m) (walkFnName T) (EnumV V payload) st
    = Some (EnumV V payload, st, tr)
    /\ neutral tr.
Proof.
  intros IH L Hc.
  destruct (findFn_enum _ _ _ _ _ _ _ _ G Dn L) as (inherited & HA & W & HF).
  apply lookup_In in L. destruct L as [HIn Hn]. simpl in Hn. subst name.
  destruct (trait_has _ HIn) as [He Hx]. cbn [type_name] in He, Hx.
  set (env := [("node", EnumV V payload)] : Env).
  assert (M : exists tr,
             exec ancestor trait noImpl (run m)
                  (Match (Var "node") (map (ownArm T) variants ++ inherited)) env st
             = Some (env, st, tr) /\ neutral tr).
  { destruct (find (fun variant => String.eqb (Variant.name variant) V) variants)
      as [variant|] eqn:Fd.
    - pose proof (find_some _ _ Fd) as [Hv _]. destruct (W variant Hv) as [W1 W2].
      destruct (own_payload_ok m T variant payload env st IH W1 W2 Hc)
        as (tr & R & N & Bd).
      exists tr. split; [|exact N].
      eapply exec_Match_binds; [reflexivity|apply dispatch_own, Fd|exact Bd|exact R|reflexivity].
    - destruct Hc as [(b & Hb & d & Hi & Hd) Hall].
      destruct (dispatch_inherited _ _ _ V _ _ _ _ HA)
        as (arm & b' & d' & H1 & H2 & H3 & H4 & H5 & H6 & H7 & _);
        [exists b, d; auto|].
      assert (Cb : conforms types m b' (EnumV V payload)).
      { apply Hall; [exact H5|]. exists d'. auto. }
      destruct (walk_ok m b' (Var "node") env (EnumV V payload) st IH Cb eq_refl)
        as (tr & Wk & N).
      exists tr. split; [|exact N].
      eapply exec_Match_passes; [reflexivity| |exact H2|].
      + rewrite dispatch_not_own; [exact H1|apply find_none_names, Fd].
      + rewrite H3, H4. exact Wk. }
  destruct M as (trm & M & N).
  exists ([EvHook ("enter_" ++ camelToSnake T)%string] ++ trm
            ++ [EvHook ("exit_" ++ camelToSnake T)%string]).
  split; [|repeat apply neutral_app; auto using neutral_hook].
  assert (B : runBlock (step m)
                [Hook ("enter_" ++ camelToSnake T)%string (Var "node");
                 Match (Var "node") (map (ownArm T) variants ++ inherited);
                 Hook ("exit_" ++ camelToSnake T)%string (Var "node")] env st
              = Some (env, st,
                      [EvHook ("enter_" ++ camelToSnake T)%string] ++ trm
                        ++ [EvHook ("exit_" ++ camelToSnake T)%string])).
  { eapply runBlock_cons.
    - eapply exec_Hook; [reflexivity|apply callHook_default, He|reflexivity].
    - eapply runBlock_cons; [exact M|].
      apply runBlock_single.
      eapply exec_Hook; [reflexivity|apply callHook_default, Hx|reflexivity]. }
  cbn [call]. rewrite HF. unfold scoped. cbn [fnBody fnParam]. fold env.
  rewrite B. reflexivity.
Qed.

Lemma all_good : forall n, good n.
Proof.
  induction n as [n IH] using lt_wf_ind. intros T v st Hc.
  destruct n as [|m]; [contradiction|]. cbn [conforms] in Hc.
  destruct (lookup types T) as [[name lt fields|name lt variants inherits]|] eqn:L;
    [| |contradiction].
  - destruct v as [|stored| | | | |]; try contradiction.
    eapply struct_ok; eauto. intros k ->. apply IH. lia.
  - destruct v as [| |V payload| | | |]; try contradiction.
    eapply enum_ok; eauto.
Qed.

(** C7.  Take the catalogue as [generateAncestorsCode] leaves it, the program
    [generateWalkFunctionsCode] emits for it and the trait
    [generateTraverseTraitCode] emits, and a visitor that implements none of
    the trait's methods.  Walking any tree of a catalogued type, from any
    state of the context and so from an empty ancestor stack, returns; the
    tree is the tree as it was, the visitor and the ancestor stack are as
    they were, and in the trace of the run every push is matched by a later
    pop and no retag or pop meets an empty stack. *)
Theorem null_pass_is_identity (n : nat) (T : string) (v : Value) (st : State S) :
  conforms types n T v ->
  exists tr,
    run n (walkFnName T) v st = Some (v, st, tr) /\ balanced tr.
Proof.
  intros Hc. destruct (all_good n T v st Hc) as (tr & R & N).
  exists tr. split; [exact R|apply N].
Qed.

End NullPass.

(** ** The sample catalogue, worked *)

(** The scenario of the struct with two expression fields: the events of a
    pass over [1 op (2).property] with the default visitor. *)
Example sample_pass :
  call (S := unit) (ancestorEnum sampleAncestors) sampleTrait (fun _ => None)
       sampleProgram 6 "walk_binary_expression" sampleTree (mkState tt [])
  = Some (sampleTree, mkState tt [],
          [EvHook "enter_binary_expression"; EvPush 1;
           EvHook "enter_expression"; EvHook "enter_numeric_literal";
           EvHook "exit_numeric_literal"; EvHook "exit_expression";
           EvRetag 2;
           EvHook "enter_expression"; EvHook "enter_member_expression";
           EvHook "enter_static_member_expression"; EvPush 3;
           EvHook "enter_expression"; EvHook "enter_numeric_literal";
           EvHook "exit_numeric_literal"; EvHook "exit_expression";
           EvPop; EvHook "exit_static_member_expression";
           EvHook "exit_member_expression"; EvHook "exit_expression";
           EvPop; EvHook "exit_binary_expression"]).
Proof. vm_compute. reflexivity. Qed.

Section ConformanceRules.
Context {U : Utils} (types : Types).

Lemma conforms_struct m T name lt fields stored :
  lookup types T = Some (struct name lt fields) ->
  Forall
    (fun field =>
       exists offset shape fv,
         Field.offsetVarName field = Some offset
         /\ shapeOf (snd (typeAndWrappers (Field.type field))) = Some shape
         /\ assoc offset stored = Some fv
         /\ fieldValueConforms (conforms types m)
              (fun s =>
                 match m with
                 | 0 => False
                 | Datatypes.S k => vecOf (conforms types k "Statement") s
                 end)
              shape (fst (typeAndWrappers (Field.type field))) fv)
    (visitedFields (struct name lt fields) types) ->
  conforms types (Datatypes.S m) T (StructV stored).
Proof. intros L F. cbn [conforms]. rewrite L. exact F. Qed.

Lemma conforms_own m T name lt variants inherits V payload variant :
  lookup types T = Some (enum name lt variants inherits) ->
  find (fun variant => String.eqb (Variant.name variant) V) variants = Some variant ->
  match snd (typeAndWrappers (Variant.type variant)) with
  | [] => conforms types m (fst (typeAndWrappers (Variant.type variant))) payload
  | _ :: _ => boxOf (conforms types m (fst (typeAndWrappers (Variant.type variant)))) payload
  end ->
  conforms types (Datatypes.S m) T (EnumV V payload).
Proof. intros L F H. cbn [conforms]. rewrite L, F. exact H. Qed.

Lemma conforms_inherited m T name lt variants inherits V payload :
  lookup types T = Some (enum name lt variants inherits) ->
  find (fun variant => String.eqb (Variant.name variant) V) variants = None ->
  (exists b, In b inherits /\ reaches types b V) ->
  (forall b, In b inherits -> reaches types b V -> conforms types m b (EnumV V payload)) ->
  conforms types (Datatypes.S m) T (EnumV V payload).
Proof. intros L F H1 H2. cbn [conforms]. rewrite L, F. auto. Qed.

End ConformanceRules.

(** Closed goals about the sample catalogue, by evaluation. *)
Ltac by_computation := vm_compute; reflexivity.

Lemma sample_numericLiteral_conforms n k :
  conforms (U := Sample.utils) sampleAnnotated (Datatypes.S (Datatypes.S k)) "Expression"
           (numericLiteral n).
Proof.
  eapply conforms_own with (variant := Variant.mk "NumericLiteral" "Box<NumericLiteral>" (Some 2)).
  - by_computation.
  - by_computation.
  - change (conforms (U := Sample.utils) sampleAnnotated (Datatypes.S k) "NumericLiteral"
      (StructV [("OFFSET_NUMERIC_LITERAL_SPAN", Leaf 0); ("OFFSET_NUMERIC_LITERAL_VALUE", Leaf n)])).
    eapply conforms_struct.
    + by_computation.
    + match goal with |- Forall _ ?l => let l' := eval vm_compute in l in change l with l' end.
      constructor.
Qed.

Lemma sample_reaches :
  reaches sampleAnnotated "MemberExpression" "StaticMemberExpression".
Proof.
  exists "MemberExpression". split.
  - apply inheritsFrom_refl. by_computation.
  - eexists; eexists; eexists; eexists. split; [by_computation|]. left. reflexivity.
Qed.

(** Evaluates the list a [Forall] ranges over. *)
Ltac visited_fields :=
  match goal with
  | |- Forall _ ?l => let l' := eval vm_compute in l in change l with l'
  end.

Lemma sample_staticMember_conforms n :
  conforms (U := Sample.utils) sampleAnnotated 5 "Expression"
           (staticMember (numericLiteral n)).
Proof.
  eapply conforms_inherited.
  - by_computation.
  - by_computation.
  - exists "MemberExpression". split; [left; reflexivity|apply sample_reaches].
  - intros b [<-|[]] _.
    eapply conforms_own
      with (variant := Variant.mk "StaticMemberExpression" "Box<StaticMemberExpression>"
                                  (Some 49)).
    + by_computation.
    + by_computation.
    + change (conforms (U := Sample.utils) sampleAnnotated 3 "StaticMemberExpression"
                (StructV [("OFFSET_STATIC_MEMBER_EXPRESSION_SPAN", Leaf 0);
                          ("OFFSET_STATIC_MEMBER_EXPRESSION_OBJECT", numericLiteral n);
                          ("OFFSET_STATIC_MEMBER_EXPRESSION_OPTIONAL", Leaf 0)])).
      eapply conforms_struct; [by_computation|]. visited_fields.
      constructor; [|constructor].
      exists "OFFSET_STATIC_MEMBER_EXPRESSION_OBJECT", Plain, (numericLiteral n).
      split; [reflexivity|]. split; [by_computation|]. split; [by_computation|].
      apply (sample_numericLiteral_conforms n 0).
Qed.

Lemma sampleTree_conforms :
  conforms (U := Sample.utils) sampleAnnotated 6 "BinaryExpression" sampleTree.
Proof.
  eapply conforms_struct; [by_computation|]. visited_fields.
  constructor; [|constructor; [|constructor]].
  - exists "OFFSET_BINARY_EXPRESSION_LEFT", Plain, (numericLiteral 1).
    split; [reflexivity|]. split; [by_computation|]. split; [by_computation|].
    apply (sample_numericLiteral_conforms 1 3).
  - exists "OFFSET_BINARY_EXPRESSION_RIGHT", Plain, (staticMember (numericLiteral 2)).
    split; [reflexivity|]. split; [by_computation|]. split; [by_computation|].
    apply (sample_staticMember_conforms 2).
Qed.

(** What the three generators emit for the sample catalogue. *)
Lemma sample_generated :
  fst (generateAncestorsCode (U := Sample.utils) Sample.types) = sampleAncestors
  /\ snd (generateAncestorsCode (U := Sample.utils) Sample.types) = sampleAnnotated
  /\ generateWalkFunctionsCode (U := Sample.utils) 8 sampleAnnotated = Ok sampleProgram
  /\ generateTraverseTraitCode (U := Sample.utils) sampleAnnotated = sampleTrait.
Proof. repeat split; by_computation. Qed.

Lemma null_pass_is_identity_witness :
  exists tr,
    call (S := unit) (ancestorEnum sampleAncestors) sampleTrait (fun _ => None)
         sampleProgram 6 "walk_binary_expression" sampleTree (mkState tt [])
    = Some (sampleTree, mkState tt [], tr)
    /\ balanced tr.
Proof.
  destruct sample_generated as (E1 & E2 & E3 & E4).
  assert (C : consistent (U := Sample.utils) Sample.types = true) by (vm_compute; reflexivity).
  assert (G : generateWalkFunctionsCode (U := Sample.utils) 8
                (snd (generateAncestorsCode (U := Sample.utils) Sample.types))
              = Ok sampleProgram) by (vm_compute; reflexivity).
  assert (D : distinct (map fnName sampleProgram) = true) by (vm_compute; reflexivity).
  assert (St : camelToSnake (Utils := Sample.utils) "Statement" = "statement")
    by (vm_compute; reflexivity).
  pose proof (null_pass_is_identity (U := Sample.utils) (S := unit) Sample.types 8
                sampleProgram C G D St 6 "BinaryExpression" sampleTree (mkState tt [])) as H.
  rewrite E1, E2, E4 in H.
  apply H. apply sampleTree_conforms.
Defined.

Lemma inherited_variant_dispatch_witness :
  exists fn arms arm B D',
    findFn "walk_expression" sampleProgram = Some fn
    /\ fnBody fn
       = [Hook "enter_expression" (Var "node"); Match (Var "node") arms;
          Hook "exit_expression" (Var "node")]
    /\ dispatch arms "StaticMemberExpression" = Some arm
    /\ armBinds arm = false
    /\ armFn arm = walkFnName (U := Sample.utils) B
    /\ armArg arm = Var "node"
    /\ In B ["MemberExpression"]
    /\ routes (U := Sample.utils) sampleProgram "StaticMemberExpression" B D'
    /\ inheritsFrom sampleAnnotated B D'
    /\ declares sampleAnnotated D' "StaticMemberExpression".
Proof.
  apply (inherited_variant_dispatch (U := Sample.utils) 8 sampleAnnotated sampleProgram
           "Expression" "Expression" true
           [Variant.mk "NumericLiteral" "Box<NumericLiteral>" (Some 2);
            Variant.mk "BinaryExpression" "Box<BinaryExpression>" (Some 10)]
           ["MemberExpression"] "StaticMemberExpression" "MemberExpression").
  - vm_compute. reflexivity.
  - vm_compute. reflexivity.
  - vm_compute. reflexivity.
  - simpl. intros [H|[H|[]]]; discriminate.
  - eapply inheritsFrom_step; [vm_compute; reflexivity|left; reflexivity|].
    apply inheritsFrom_refl. vm_compute. reflexivity.
  - eexists; eexists; eexists; eexists. split; [vm_compute; reflexivity|]. left. reflexivity.
Defined.

Lemma only_struct_walks_touch_stack_witness :
  exists fn arms,
    In fn sampleProgram
    /\ fnName fn = "walk_expression"
    /\ fnBody fn
       = [Hook "enter_expression" (Var "node"); Match (Var "node") arms;
          Hook "exit_expression" (Var "node")]
    /\ stackOps (fnBody fn) = []
    /\ forall (S : Type) ancestor trait (impl : string -> option (HookFn S))
              callFn v st v' env' st' tr,
         scoped (runBlock (exec ancestor trait impl callFn) (fnBody fn))
                (fnParam fn) v [] st
         = Some (v', env', st', tr) ->
         exists variant arm arg st1 arg' st2 tr2,
           dispatch arms variant = Some arm
           /\ callFn (armFn arm) arg st1 = Some (arg', st2, tr2)
           /\ stack st1 = stack st
           /\ stack st' = stack st2
           /\ tr = [EvHook "enter_expression"] ++ tr2 ++ [EvHook "exit_expression"].
Proof.
  assert (G : generateWalkFunctionsCode (U := Sample.utils) 8 sampleAnnotated
              = Ok sampleProgram) by (vm_compute; reflexivity).
  destruct (only_struct_walks_touch_stack (U := Sample.utils) 8 sampleAnnotated
              sampleProgram G) as [_ H].
  apply (H "Expression" true
           [Variant.mk "NumericLiteral" "Box<NumericLiteral>" (Some 2);
            Variant.mk "BinaryExpression" "Box<BinaryExpression>" (Some 10)]
           ["MemberExpression"]).
  vm_compute. do 4 right. left. reflexivity.
Defined.

(** * Further properties of the generators *)

(** ** When [generateWalkForStruct] returns *)

Section StructSuccess.
Context {U : Utils}.

Lemma shapeOf_supported (wrappers : list string) :
  shapeOf wrappers <> None <-> In wrappers supportedChains.
Proof.
  unfold supportedChains. split.
  - intros H. destruct wrappers as [|w1 [|w2 [|w3 ws]]]; cbn [shapeOf] in H;
      try contradiction;
      repeat match type of H with
             | context [String.eqb ?a ?b] =>
                 let E := fresh "E" in
                 destruct (String.eqb a b) eqn:E;
                 [apply String.eqb_eq in E; subst|]
             end;
      try contradiction; simpl; tauto.
  - intros H. simpl in H.
    repeat (destruct H as [<-|H]; [cbn; discriminate|]). destruct H.
Qed.

Lemma mapIndexed_succeeds {A B : Type} (f : A -> nat -> Result B) :
  forall l index,
    (forall x i, In x l -> exists y, f x i = Ok y) ->
    exists ys, mapIndexed f index l = Ok ys.
Proof.
  induction l as [|x l IH]; intros index H; simpl.
  - eexists; reflexivity.
  - destruct (H x index (or_introl eq_refl)) as [y ->].
    destruct (IH (Datatypes.S index)) as [ys ->]; [intros; apply H; right; auto|].
    eexists; reflexivity.
Qed.

Lemma generateWalkForStruct_succeeds (type : TypeDef) (types : Types) :
  (exists fn, generateWalkForStruct type types = Ok fn)
  <-> forall field,
        In field (visitedFields type types) ->
        shapeOf (snd (typeAndWrappers (Field.type field))) <> None.
Proof.
  split.
  - intros [fn H] field HIn HS.
    pose proof (generateWalkForStruct_unsupported type types field HIn HS) as F.
    rewrite H in F. exact F.
  - intros H. unfold generateWalkForStruct.
    destruct (mapIndexed_succeeds fieldCodeFor (visitedFields type types) 0) as [codes ->].
    + intros field i HIn. pose proof (fieldCodeFor_shape field i) as S.
      destruct (shapeOf (snd (typeAndWrappers (Field.type field)))) eqn:E.
      * eexists; exact S.
      * exfalso. apply (H field HIn). exact E.
    + eexists; reflexivity.
Qed.

(** X1.  [generateWalkForStruct] returns a function exactly when the wrapper chain
    of every visited field is one of the seven it has a branch for; a field
    whose element type is not catalogued is never looked at. *)
Theorem struct_walk_generated_iff (type : TypeDef) (types : Types) :
  (exists fn, generateWalkForStruct type types = Ok fn)
  <-> forall field,
        In field (visitedFields type types) ->
        In (snd (typeAndWrappers (Field.type field))) supportedChains.
Proof.
  rewrite generateWalkForStruct_succeeds.
  split; intros H field HIn; apply shapeOf_supported, H, HIn.
Qed.

End StructSuccess.

(** ** When the loop of [generateWalkForEnum] ends *)

Section LoopTermination.

Lemma sized_positive types n k : sized types n k -> 1 <= k.
Proof. intros H. destruct H; lia. Qed.

Lemma list_sum_Forall2_app types :
  forall ps ks qs js,
    Forall2 (sized types) ps ks -> Forall2 (sized types) qs js ->
    Forall2 (sized types) (ps ++ qs) (ks ++ js).
Proof. intros. apply Forall2_app; assumption. Qed.

Lemma finiteInherits_sized types n :
  finiteInherits types n -> exists k, sized types n k.
Proof.
  intros F. induction F as [n HE|n name lt variants inherits L _ IH].
  - exists 1. apply sized_leaf. exact HE.
  - assert (X : exists ks, Forall2 (sized types) inherits ks).
    { clear L. induction inherits as [|b inherits IHl].
      - exists []. constructor.
      - destruct (IH b (or_introl eq_refl)) as [k Hk].
        destruct IHl as [ks Hks]; [intros; apply IH; right; assumption|].
        exists (k :: ks). constructor; assumption. }
    destruct X as [ks Hks]. exists (Datatypes.S (list_sum ks)).
    eapply sized_node; eauto.
Qed.

Lemma inheritedLoop_enough types typeName :
  forall fuel pending ks matches missing,
    Forall2 (sized types) pending ks ->
    list_sum ks <= fuel ->
    exists r, inheritedLoop fuel types typeName pending matches missing = Ok r.
Proof.
  induction fuel as [|fuel IH]; intros pending ks matches missing HS Hle;
    destruct HS as [|n0 k0 pending ks H0 HS]; simpl.
  - eexists; reflexivity.
  - apply sized_positive in H0. simpl in Hle. lia.
  - eexists; reflexivity.
  - simpl in Hle. destruct H0 as [n0 HE|n0 name lt variants inherits ks0 L HS0].
    + unfold isEnum in HE.
      destruct (lookup types n0) as [[? ? ?|? ? ? ?]|]; try discriminate;
        apply IH with (ks := ks); auto; lia.
    + rewrite L. apply IH with (ks := ks ++ ks0).
      * apply Forall2_app; assumption.
      * rewrite list_sum_app. lia.
Qed.

Lemma inheritedLoop_short types typeName :
  forall fuel pending ks matches missing,
    Forall2 (sized types) pending ks ->
    fuel < list_sum ks ->
    inheritedLoop fuel types typeName pending matches missing = OutOfFuel.
Proof.
  induction fuel as [|fuel IH]; intros pending ks matches missing HS Hlt;
    destruct HS as [|n0 k0 pending ks H0 HS]; simpl in *; try lia; try reflexivity.
  destruct H0 as [n0 HE|n0 name lt variants inherits ks0 L HS0].
  - unfold isEnum in HE.
    destruct (lookup types n0) as [[? ? ?|? ? ? ?]|]; try discriminate;
      apply IH with (ks := ks); auto; lia.
  - rewrite L. apply IH with (ks := ks ++ ks0).
    + apply Forall2_app; assumption.
    + rewrite list_sum_app. lia.
Qed.

Lemma inheritedLoop_more_fuel types typeName :
  forall fuel fuel' pending matches missing r,
    inheritedLoop fuel types typeName pending matches missing = Ok r ->
    fuel <= fuel' ->
    inheritedLoop fuel' types typeName pending matches missing = Ok r.
Proof.
  induction fuel as [|fuel IH]; intros fuel' pending matches missing r H Hle;
    destruct pending as [|n0 pending]; simpl in H; try discriminate.
  - destruct fuel'; exact H.
  - destruct fuel'; exact H.
  - destruct fuel' as [|fuel']; [lia|]. simpl.
    destruct (lookup types n0) as [[? ? ?|? ? ? ?]|]; apply IH; auto; lia.
Qed.

(** X2.  The loop that collects the variants of an inherited enum ends, given
    enough iterations, exactly when the inheritance below that name has no
    cycle; then it ends with a result, never in a failed assertion. *)
Theorem inherited_loop_ends_iff (types : Types) (typeName base : string)
    (variantMatches : list (string * string)) (missingVariants : list string) :
  (exists fuel r,
      inheritedLoop fuel types typeName [base] variantMatches missingVariants = Ok r)
  <-> finiteInherits types base.
Proof.
  split.
  - intros (fuel & r & H). eapply inheritedLoop_finite; [exact H|]. left. reflexivity.
  - intros F. destruct (finiteInherits_sized _ _ F) as [k Hk].
    exists k.
    apply inheritedLoop_enough with (ks := [k]).
    + constructor; [exact Hk|constructor].
    + simpl. lia.
Qed.

(** X3.  The number of iterations the loop takes for an inherited name is the
    number of names met below it, repetitions counted: with fewer iterations
    allowed the run is cut short, with as many or more it returns. *)
Theorem inherited_loop_iterations (types : Types) (typeName base : string) (k fuel : nat)
    (variantMatches : list (string * string)) (missingVariants : list string) :
  sized types base k ->
  (exists r,
      inheritedLoop fuel types typeName [base] variantMatches missingVariants = Ok r)
  <-> k <= fuel.
Proof.
  intros Hk.
  assert (HS : Forall2 (sized types) [base] [k]) by (constructor; [exact Hk|constructor]).
  split.
  - intros [r H]. destruct (Nat.le_gt_cases k fuel) as [Hle|Hgt]; [exact Hle|].
    rewrite (inheritedLoop_short types typeName fuel [base] [k]) in H;
      [discriminate|exact HS|simpl; lia].
  - intros Hle. apply inheritedLoop_enough with (ks := [k]); [exact HS|simpl; lia].
Qed.

End LoopTermination.

Lemma inherited_loop_iterations_witness :
  sized Sample.types "Expression" 2
  /\ ((exists r, inheritedLoop 2 Sample.types "Statement" ["Expression"] [] [] = Ok r)
      <-> 2 <= 2).
Proof.
  assert (M : sized Sample.types "MemberExpression" 1).
  { eapply (sized_node _ _ _ _ _ _ []); [reflexivity|constructor]. }
  assert (H : sized Sample.types "Expression" 2).
  { eapply (sized_node _ _ _ _ _ _ [1]); [reflexivity|].
    constructor; [exact M|constructor]. }
  split; [exact H|].
  exact (inherited_loop_iterations Sample.types "Statement" "Expression" 2 2 [] [] H).
Defined.

(** ** When [generateWalkForEnum] returns *)

Section EnumSuccess.
Context {U : Utils}.

Lemma mapIndexed_each {A B : Type} (f : A -> nat -> Result B) :
  forall l index ys,
    mapIndexed f index l = Ok ys ->
    forall x, In x l -> exists i y, f x i = Ok y.
Proof.
  induction l as [|x0 l IH]; intros index ys H x HIn; [destruct HIn|].
  simpl in H. destruct (f x0 index) as [y0| |] eqn:E0; simpl in H; try discriminate.
  destruct (mapIndexed f (Datatypes.S index) l) as [ys'| |] eqn:E; simpl in H;
    try discriminate.
  destruct HIn as [->|HIn]; [eauto|]. eapply IH; eauto.
Qed.

Lemma variantCodeFor_succeeds_iff (type : TypeDef) (types : Types)
    (variant : Variant.t) (index : nat) :
  (exists arm, variantCodeFor type types variant index = Ok arm)
  <-> lookup types (fst (typeAndWrappers (Variant.type variant))) <> None
      /\ (snd (typeAndWrappers (Variant.type variant)) = []
          \/ snd (typeAndWrappers (Variant.type variant)) = ["Box"]).
Proof.
  unfold variantCodeFor.
  destruct (typeAndWrappers (Variant.type variant)) as [n ws]. cbn [fst snd].
  destruct (lookup types n) as [t|]; cbn [assert bind].
  - destruct ws as [|w [|w' ws]]; cbn [length Nat.eqb andb firstIs assert bind].
    + split; [intros _; split; [discriminate|auto]|intros _; eexists; reflexivity].
    + unfold firstIs. cbn [hd_error].
      destruct (String.eqb w "Box") eqn:E.
      * apply String.eqb_eq in E. subst.
        split; [intros _; split; [discriminate|auto]|intros _; eexists; reflexivity].
      * split; [intros [arm H]; discriminate|].
        intros [_ [H|H]]; [discriminate|]. inversion H; subst.
        rewrite String.eqb_refl in E. discriminate.
    + split; [intros [arm H]; discriminate|].
      intros [_ [H|H]]; discriminate.
  - split; [intros [arm H]; discriminate|]. intros [H _]. contradiction.
Qed.

Lemma closedInherits_finite types n :
  closedInherits types n -> finiteInherits types n.
Proof.
  intros C. induction C as [n name lt variants inherits L _ IH].
  eapply finite_node; eauto.
Qed.

Lemma inheritedLoop_closed types typeName :
  forall fuel pending matches missing matches',
    inheritedLoop fuel types typeName pending matches missing = Ok (matches', []) ->
    forall b, In b pending -> closedInherits types b.
Proof.
  induction fuel as [|fuel IH]; intros pending matches missing matches' H b Hb;
    destruct pending as [|n0 pending]; simpl in H; try discriminate;
    try (destruct Hb; fail).
  destruct (lookup types n0) as [[name lt fields|name lt variants inherits]|] eqn:L.
  - apply inheritedLoop_missing in H. destruct H as [H _].
    destruct (H n0). apply in_or_app. right. left. reflexivity.
  - destruct Hb as [->|Hb].
    + eapply closed_node; eauto. intros b' Hb'. eapply IH; eauto.
      apply in_or_app. auto.
    + eapply IH; eauto. apply in_or_app. auto.
  - apply inheritedLoop_missing in H. destruct H as [H _].
    destruct (H n0). apply in_or_app. right. left. reflexivity.
Qed.

Lemma inheritedLoop_keeps_missing types typeName :
  forall fuel pending matches missing r,
    (forall b, In b pending -> closedInherits types b) ->
    inheritedLoop fuel types typeName pending matches missing = Ok r ->
    snd r = missing.
Proof.
  induction fuel as [|fuel IH]; intros pending matches missing r C H;
    destruct pending as [|n0 pending]; simpl in H; try discriminate.
  - inversion H; reflexivity.
  - inversion H; reflexivity.
  - destruct (C n0 (or_introl eq_refl)) as [n0 name lt variants inherits L C0].
    rewrite L in H. apply IH in H; [exact H|].
    intros b Hb. apply in_app_or in Hb. destruct Hb as [Hb|Hb]; [|auto].
    apply C. right. exact Hb.
Qed.

Lemma inheritedArms_closed types typeName fuel :
  forall inherits missing arms,
    inheritedArms fuel types typeName inherits missing = Ok (arms, []) ->
    forall b, In b inherits -> closedInherits types b.
Proof.
  induction inherits as [|base inherits IH]; intros missing arms H b Hb; [destruct Hb|].
  simpl in H.
  destruct (inheritedLoop fuel types typeName [base] [] missing) as [[m1 miss1]| |] eqn:E1;
    simpl in H; try discriminate.
  destruct (inheritedArms fuel types typeName inherits miss1) as [[arms2 miss2]| |] eqn:E2;
    simpl in H; try discriminate.
  inversion H; subst.
  assert (miss1 = []) as ->.
  { destruct miss1 as [|x miss1]; [reflexivity|].
    apply inheritedArms_missing in E2. destruct E2 as [E2 _].
    destruct (E2 x (or_introl eq_refl)). }
  destruct Hb as [->|Hb].
  - eapply inheritedLoop_closed; [exact E1|]. left. reflexivity.
  - eapply IH; eauto.
Qed.

Lemma inheritedArms_more_fuel types typeName :
  forall inherits fuel fuel' missing r,
    inheritedArms fuel types typeName inherits missing = Ok r ->
    fuel <= fuel' ->
    inheritedArms fuel' types typeName inherits missing = Ok r.
Proof.
  induction inherits as [|base inherits IH]; intros fuel fuel' missing r H Hle;
    simpl in *; [exact H|].
  destruct (inheritedLoop fuel types typeName [base] [] missing) as [[m1 miss1]| |] eqn:E1;
    simpl in H; try discriminate.
  rewrite (inheritedLoop_more_fuel _ _ _ _ _ _ _ _ E1 Hle). simpl.
  destruct (inheritedArms fuel types typeName inherits miss1) as [[arms2 miss2]| |] eqn:E2;
    simpl in H; try discriminate.
  rewrite (IH _ _ _ _ E2 Hle). simpl. exact H.
Qed.

Lemma inheritedArms_enough types typeName :
  forall inherits,
    (forall b, In b inherits -> closedInherits types b) ->
    exists fuel, forall missing,
      exists arms, inheritedArms fuel types typeName inherits missing = Ok (arms, missing).
Proof.
  induction inherits as [|base inherits IH]; intros C.
  - exists 0. intros missing. eexists; reflexivity.
  - destruct IH as [fuel2 IH]; [intros; apply C; right; assumption|].
    pose proof (C base (or_introl eq_refl)) as Cb.
    destruct (finiteInherits_sized _ _ (closedInherits_finite _ _ Cb)) as [k Hk].
    exists (k + fuel2). intros missing.
    destruct (inheritedLoop_enough types typeName (k + fuel2) [base] [k] [] missing)
      as [[m1 miss1] E1]; [constructor; [exact Hk|constructor]|simpl; lia|].
    assert (miss1 = missing) as ->.
    { apply inheritedLoop_keeps_missing in E1; [exact E1|].
      intros b [<-|[]]. exact Cb. }
    destruct (IH missing) as [arms E2].
    simpl. rewrite E1. simpl.
    rewrite (inheritedArms_more_fuel _ _ _ _ (k + fuel2) _ _ E2); [|lia].
    simpl. eexists; reflexivity.
Qed.

Lemma generateWalkForEnum_closed fuel type types fn :
  generateWalkForEnum fuel type types = Ok fn ->
  (forall variant,
      In variant (variantsOf type) ->
      lookup types (fst (typeAndWrappers (Variant.type variant))) <> None
      /\ (snd (typeAndWrappers (Variant.type variant)) = []
          \/ snd (typeAndWrappers (Variant.type variant)) = ["Box"]))
  /\ (forall base, In base (inheritsOf type) -> closedInherits types base).
Proof.
  unfold generateWalkForEnum. intros H.
  destruct (mapIndexed (variantCodeFor type types) 0 (variantsOf type))
    as [codes| |] eqn:EM; simpl in H; try discriminate.
  destruct (inheritedArms fuel types (type_name type) (inheritsOf type) [])
    as [[arms missing]| |] eqn:EA; simpl in H; try discriminate.
  destruct missing as [|x missing]; [|simpl in H; discriminate].
  split.
  - intros variant HIn.
    destruct (mapIndexed_each _ _ _ _ EM variant HIn) as (i & arm & E).
    apply (variantCodeFor_succeeds_iff type types variant i). eauto.
  - eapply inheritedArms_closed; eauto.
Qed.

Lemma generateWalkForEnum_enough type types :
  (forall variant,
      In variant (variantsOf type) ->
      lookup types (fst (typeAndWrappers (Variant.type variant))) <> None
      /\ (snd (typeAndWrappers (Variant.type variant)) = []
          \/ snd (typeAndWrappers (Variant.type variant)) = ["Box"])) ->
  (forall base, In base (inheritsOf type) -> closedInherits types base) ->
  exists fuel fn, generateWalkForEnum fuel type types = Ok fn.
Proof.
  unfold generateWalkForEnum. intros HV HC.
  destruct (inheritedArms_enough types (type_name type) (inheritsOf type) HC)
    as [fuel HA].
  destruct (HA []) as [arms EA].
  destruct (mapIndexed_succeeds (variantCodeFor type types) (variantsOf type) 0)
    as [codes EM].
  { intros variant i HIn. apply variantCodeFor_succeeds_iff. auto. }
  exists fuel. rewrite EM. simpl. rewrite EA. simpl. eexists; reflexivity.
Qed.

(** X4.  [generateWalkForEnum] returns a function, given enough loop
    iterations, exactly when the payload of every variant is a catalogued type,
    bare or in a [Box], and everything the enum inherits from, directly or
    through other enums, is a catalogued enum with no cycle among them. *)
Theorem enum_walk_generated_iff (type : TypeDef) (types : Types) :
  (exists fuel fn, generateWalkForEnum fuel type types = Ok fn)
  <-> (forall variant,
          In variant (variantsOf type) ->
          lookup types (fst (typeAndWrappers (Variant.type variant))) <> None
          /\ (snd (typeAndWrappers (Variant.type variant)) = []
              \/ snd (typeAndWrappers (Variant.type variant)) = ["Box"]))
      /\ (forall base, In base (inheritsOf type) -> closedInherits types base).
Proof.
  split.
  - intros (fuel & fn & H). eapply generateWalkForEnum_closed; eauto.
  - intros [HV HC]. apply generateWalkForEnum_enough; assumption.
Qed.

End EnumSuccess.

(** ** The emitted program as a whole *)

Section ProgramShape.
Context {U : Utils}.

Lemma generateWalkForEnum_more_fuel type types fuel fuel' fn :
  generateWalkForEnum fuel type types = Ok fn ->
  fuel <= fuel' ->
  generateWalkForEnum fuel' type types = Ok fn.
Proof.
  unfold generateWalkForEnum. intros H Hle.
  destruct (mapIndexed (variantCodeFor type types) 0 (variantsOf type))
    as [codes| |]; simpl in *; try discriminate.
  destruct (inheritedArms fuel types (type_name type) (inheritsOf type) [])
    as [r| |] eqn:EA; simpl in H; try discriminate.
  rewrite (inheritedArms_more_fuel _ _ _ _ _ _ _ EA Hle). exact H.
Qed.

Lemma walkMethods_more_fuel types : forall todo fuel fuel' fns,
  walkMethods fuel todo types = Ok fns ->
  fuel <= fuel' ->
  walkMethods fuel' todo types = Ok fns.
Proof.
  induction todo as [|type todo IH]; intros fuel fuel' fns H Hle; simpl in *; [exact H|].
  destruct type as [name lt fields|name lt variants inherits].
  - destruct (generateWalkForStruct (struct name lt fields) types) as [f| |];
      simpl in *; try discriminate.
    destruct (walkMethods fuel todo types) as [fs| |] eqn:E; simpl in H; try discriminate.
    rewrite (IH _ _ _ E Hle). exact H.
  - destruct (generateWalkForEnum fuel (enum name lt variants inherits) types)
      as [f| |] eqn:EF; simpl in H; try discriminate.
    rewrite (generateWalkForEnum_more_fuel _ _ _ _ _ EF Hle). simpl.
    destruct (walkMethods fuel todo types) as [fs| |] eqn:E; simpl in H; try discriminate.
    rewrite (IH _ _ _ E Hle). exact H.
Qed.

Lemma supportedType_generated types type :
  supportedType types type
  <-> exists fuel fn,
        match type with
        | struct _ _ _ => generateWalkForStruct type types
        | enum _ _ _ _ => generateWalkForEnum fuel type types
        end = Ok fn.
Proof.
  destruct type as [name lt fields|name lt variants inherits]; unfold supportedType.
  - split.
    + intros H. exists 0.
      apply generateWalkForStruct_succeeds. intros field HIn.
      apply shapeOf_supported, H, HIn.
    + intros (_ & H) field HIn.
      apply shapeOf_supported.
      apply (proj1 (generateWalkForStruct_succeeds _ _) H field HIn).
  - split.
    + intros [HV HC]. apply generateWalkForEnum_enough; assumption.
    + intros (fuel & fn & H). eapply generateWalkForEnum_closed; eauto.
Qed.

(** X5.  [generateWalkFunctionsCode] returns a program, given enough loop
    iterations, exactly when every catalogued struct has only visited fields
    with a supported wrapper chain and every catalogued enum has only variants
    with a catalogued payload, bare or boxed, and inherits only from
    catalogued enums, without a cycle. *)
Theorem walk_code_generated_iff (types : Types) :
  (exists fuel program, generateWalkFunctionsCode fuel types = Ok program)
  <-> forall type, In type types -> supportedType types type.
Proof.
  unfold generateWalkFunctionsCode. split.
  - intros (fuel & program & H) type HIn.
    destruct (walkMethods fuel types types) as [fns| |] eqn:E; simpl in H; try discriminate.
    apply walkMethods_Forall2 in E.
    destruct (Forall2_In_l _ _ _ _ E HIn) as (fn & _ & G).
    apply supportedType_generated. exists fuel, fn. exact G.
  - intros HS.
    assert (X : forall todo, (forall type, In type todo -> supportedType types type) ->
                  exists fuel fns, walkMethods fuel todo types = Ok fns).
    { induction todo as [|type todo IH]; intros HT.
      - exists 0, []. reflexivity.
      - destruct IH as (fuel2 & fns & E2); [intros; apply HT; right; assumption|].
        destruct (proj1 (supportedType_generated types type) (HT type (or_introl eq_refl)))
          as (fuel1 & fn & E1).
        exists (fuel1 + fuel2), (fn :: fns). simpl.
        rewrite (walkMethods_more_fuel _ _ _ (fuel1 + fuel2) _ E2) by lia.
        destruct type as [name lt fields|name lt variants inherits].
        + rewrite E1. reflexivity.
        + rewrite (generateWalkForEnum_more_fuel _ _ _ (fuel1 + fuel2) _ E1) by lia.
          reflexivity. }
    destruct (X types HS) as (fuel & fns & E). exists fuel. rewrite E. simpl.
    eexists; reflexivity.
Qed.

Lemma struct_fn_ops (type : TypeDef) (types : Types) (fn : Function) :
  generateWalkForStruct type types = Ok fn ->
  signature fn = (walkFnName (type_name type), "node", toTypeName type)
  /\ flat_map opsOf (fnBody fn)
     = OpHook ("enter_" ++ camelToSnake (type_name type))%string
         :: match visitedFields type types with
            | [] => []
            | first :: rest =>
                OpPush (tagName (type_name type) first)
                  :: OpWalk (fieldTarget first)
                  :: flat_map (fun f => [OpRetag (Field.ancestorDiscriminant f);
                                         OpWalk (fieldTarget f)]) rest
                  ++ [OpPop]
            end
         ++ [OpHook ("exit_" ++ camelToSnake (type_name type))%string].
Proof.
  unfold generateWalkForStruct. intros H.
  destruct (mapIndexed fieldCodeFor 0 (visitedFields type types)) as [codes| |] eqn:E;
    simpl in H; try discriminate.
  inversion H; subst fn. clear H. split; [reflexivity|]. cbn [fnBody].
  apply mapIndexed_fieldCodeFor_ops in E.
  destruct (visitedFields type types) as [|first rest].
  - cbn [flat_map opsOf app]. rewrite flat_map_app, E. reflexivity.
  - cbn [flat_map opsOf app concat]. rewrite flat_map_app, concat_app, flat_map_app, E.
    unfold fieldOps. cbn. rewrite <- app_assoc. reflexivity.
Qed.

Lemma struct_fn_shape (type : TypeDef) (types : Types) (fn : Function) :
  generateWalkForStruct type types = Ok fn ->
  signature fn = (walkFnName (type_name type), "node", toTypeName type)
  /\ hooksOf (fnBody fn)
     = ["enter_" ++ camelToSnake (type_name type);
        "exit_" ++ camelToSnake (type_name type)]%string
  /\ callsOf (fnBody fn) = map fieldTarget (visitedFields type types).
Proof.
  intros H. destruct (struct_fn_ops _ _ _ H) as [A O]. split; [exact A|].
  assert (R : forall rest : list Field.t,
             flat_map (fun o => match o with OpHook m => [m] | _ => [] end)
               (flat_map (fun f => [OpRetag (Field.ancestorDiscriminant f);
                                    OpWalk (fieldTarget f)]) rest) = []
             /\ flat_map (fun o => match o with OpWalk g => [g] | _ => [] end)
                  (flat_map (fun f => [OpRetag (Field.ancestorDiscriminant f);
                                       OpWalk (fieldTarget f)]) rest)
                = map fieldTarget rest).
  { induction rest as [|f rest [IH1 IH2]]; simpl; [auto|]. rewrite IH1, IH2. auto. }
  unfold hooksOf, callsOf. rewrite O.
  destruct (visitedFields type types) as [|first rest].
  - split; reflexivity.
  - destruct (R rest) as [R1 R2].
    cbn [flat_map app map]. rewrite !flat_map_app, R1, R2.
    cbn [flat_map app]. split; [reflexivity|].
    rewrite !app_nil_r. reflexivity.
Qed.

Lemma enum_fn_shape (fuel : nat) (type : TypeDef) (types : Types) (fn : Function) :
  generateWalkForEnum fuel type types = Ok fn ->
  signature fn = (walkFnName (type_name type), "node", toTypeName type)
  /\ hooksOf (fnBody fn)
     = ["enter_" ++ camelToSnake (type_name type);
        "exit_" ++ camelToSnake (type_name type)]%string
  /\ callsOf (fnBody fn)
     = map (fun variant => walkFnName (fst (typeAndWrappers (Variant.type variant))))
           (variantsOf type)
       ++ map walkFnName (inheritsOf type).
Proof.
  intros H. destruct (generateWalkForEnum_body _ _ _ _ H) as (inherited & EA & _ & ->).
  split; [reflexivity|].
  assert (R : forall arms : list Arm,
             flat_map (fun o => match o with OpHook m => [m] | _ => [] end)
               (map (fun arm => OpWalk (armFn arm)) arms) = []
             /\ flat_map (fun o => match o with OpWalk g => [g] | _ => [] end)
                  (map (fun arm => OpWalk (armFn arm)) arms)
                = map armFn arms).
  { induction arms as [|a arms [IH1 IH2]]; simpl; [auto|]. rewrite IH2. auto. }
  unfold hooksOf, callsOf. cbn [fnBody flat_map opsOf app].
  rewrite !flat_map_app.
  destruct (R (map (ownArm (type_name type)) (variantsOf type) ++ inherited)) as [R1 R2].
  rewrite R1, R2. simpl. split; [reflexivity|].
  rewrite app_nil_r, map_app, map_map. f_equal.
  - apply map_ext. intros v. unfold ownArm.
    destruct (typeAndWrappers (Variant.type v)). reflexivity.
  - apply inheritedArms_shape in EA. clear - EA.
    induction EA as [|base arm inherits arms (vm & m1 & m2 & _ & ->) _ IH]; simpl; [auto|].
    rewrite IH. reflexivity.
Qed.

Lemma walkMethods_shape fuel types : forall todo fns,
  walkMethods fuel todo types = Ok fns ->
  Forall2 (fun type fn =>
             signature fn = (walkFnName (type_name type), "node", toTypeName type)
             /\ hooksOf (fnBody fn)
                = ["enter_" ++ camelToSnake (type_name type);
                   "exit_" ++ camelToSnake (type_name type)]%string)
          todo fns.
Proof.
  intros todo fns H. apply walkMethods_Forall2 in H.
  eapply Forall2_impl; [|exact H]. intros type fn G. cbv beta in G.
  destruct type.
  - destruct (struct_fn_shape _ _ _ G) as (A & B & _). auto.
  - destruct (enum_fn_shape _ _ _ _ G) as (A & B & _). auto.
Qed.

(** X6.  The emitted program has one walk function per catalogued type, in
    catalogue order, each named [walk_] followed by the snake-case type name
    and taking a [node] of that type, and after them [walk_statements], which
    takes the statement list [stmts]. *)
Theorem walk_functions_signatures (fuel : nat) (types : Types) (program : list Function) :
  generateWalkFunctionsCode fuel types = Ok program ->
  map signature program
  = map (fun type => (("walk_" ++ camelToSnake (type_name type))%string, "node",
                      toTypeName type)) types
    ++ [("walk_statements", "stmts", "Vec<'a, Statement<'a>>")].
Proof.
  unfold generateWalkFunctionsCode. intros H.
  destruct (walkMethods fuel types types) as [fns| |] eqn:E; simpl in H; try discriminate.
  inversion H; subst program. clear H. rewrite map_app. f_equal.
  apply walkMethods_shape in E.
  induction E as [|type fn todo fns [A _] _ IH]; simpl; [reflexivity|].
  rewrite A, IH. reflexivity.
Qed.

(** X7.  The hooks the emitted walk functions call, each with the type of the
    parameter of the function that calls it, are the methods
    [generateTraverseTraitCode] declares for the same catalogue, one call per
    method and in the same order: no hook is called that the trait lacks, and
    no method of the trait is left uncalled. *)
Theorem hooks_are_trait_methods (fuel : nat) (types : Types) (program : list Function) :
  generateWalkFunctionsCode fuel types = Ok program ->
  flat_map (fun fn => map (fun method => mkTraitMethod method (fnParamType fn))
                          (hooksOf (fnBody fn)))
           program
  = generateTraverseTraitCode types.
Proof.
  unfold generateWalkFunctionsCode, generateTraverseTraitCode. intros H.
  destruct (walkMethods fuel types types) as [fns| |] eqn:E; simpl in H; try discriminate.
  inversion H; subst program. clear H. rewrite flat_map_app. f_equal.
  apply walkMethods_shape in E.
  induction E as [|type fn todo fns [A B] _ IH]; simpl; [reflexivity|].
  rewrite B, IH. unfold signature in A. inversion A. reflexivity.
Qed.

Lemma program_names fuel types program :
  generateWalkFunctionsCode fuel types = Ok program ->
  In "walk_statements" (map fnName program)
  /\ forall n, inTypes types n = true -> In (walkFnName n) (map fnName program).
Proof.
  intros G. destruct (program_has _ _ _ G) as [HS HT]. split.
  - apply in_map_iff. exists walk_statements. auto.
  - intros n Hn. unfold inTypes in Hn.
    destruct (lookup types n) as [type|] eqn:L; [|discriminate].
    apply lookup_In in L. destruct L as [HIn <-].
    destruct (HT type HIn) as (fn & Hfn & Gfn).
    apply in_map_iff. exists fn. split; [|exact Hfn].
    destruct type.
    + destruct (struct_fn_shape _ _ _ Gfn) as (A & _). inversion A. auto.
    + destruct (enum_fn_shape _ _ _ _ Gfn) as (A & _). inversion A. auto.
Qed.

(** X8.  The emitted program is closed under calls: when the two helpers that
    unwrap a field type agree on the catalogued fields and [Statement] is a
    catalogued type whose snake-case name is [statement], every walk function
    that an emitted function calls is itself emitted. *)
Theorem calls_are_emitted (fuel : nat) (types : Types) (program : list Function) :
  (forall type field,
      In type types -> In field (fieldsOf type) ->
      fst (typeAndWrappers (Field.type field)) = unwrapTypeName (Field.type field)) ->
  inTypes types "Statement" = true ->
  camelToSnake "Statement" = "statement" ->
  generateWalkFunctionsCode fuel types = Ok program ->
  forall fn callee,
    In fn program -> In callee (callsOf (fnBody fn)) ->
    In callee (map fnName program).
Proof.
  intros HU HS HC G fn callee Hfn Hc.
  destruct (program_names _ _ _ G) as [NS NT].
  pose proof G as G'. unfold generateWalkFunctionsCode in G'.
  destruct (walkMethods fuel types types) as [fns| |] eqn:E; simpl in G'; try discriminate.
  inversion G'; subst program. clear G'.
  apply in_app_or in Hfn. destruct Hfn as [Hfn|[<-|[]]].
  - apply walkMethods_Forall2 in E.
    destruct (Forall2_In_r _ _ _ _ E Hfn) as (type & HIn & Gfn).
    destruct type as [name lt fields|name lt variants inherits].
    + destruct (struct_fn_shape _ _ _ Gfn) as (_ & _ & C). rewrite C in Hc.
      apply in_map_iff in Hc. destruct Hc as (field & <- & Hf).
      unfold visitedFields in Hf. apply filter_In in Hf. destruct Hf as [Hf Hv].
      rewrite <- (HU _ _ HIn Hf) in Hv. unfold fieldTarget.
      destruct (typeAndWrappers (Field.type field)) as [n ws]. cbn [fst] in Hv.
      destruct (shapeOf ws) as [[]|]; try (apply NT; exact Hv);
        destruct (String.eqb n "Statement"); auto.
    + destruct (enum_fn_shape _ _ _ _ Gfn) as (_ & _ & C). rewrite C in Hc.
      destruct (generateWalkForEnum_closed _ _ _ _ Gfn) as [HV HB].
      apply in_app_or in Hc. destruct Hc as [Hc|Hc];
        apply in_map_iff in Hc.
      * destruct Hc as (variant & <- & Hv). apply NT. unfold inTypes.
        destruct (HV variant Hv) as [L _].
        destruct (lookup types (fst (typeAndWrappers (Variant.type variant))));
          [reflexivity|contradiction].
      * destruct Hc as (base & <- & Hb). apply NT.
        destruct (HB base Hb) as [n name' lt' variants' inherits' L _].
        unfold inTypes. rewrite L. reflexivity.
  - simpl in Hc. destruct Hc as [<-|[]].
    replace "walk_statement" with (walkFnName "Statement")
      by (unfold walkFnName; rewrite HC; reflexivity).
    apply NT. exact HS.
Qed.

End ProgramShape.

(** * Further properties of [generateAncestorsCode] *)

Section AncestorShapeFacts.
Context {U : Utils}.

Lemma tagFields_numbered types type all :
  forall rest i st vn fs st' vn',
    tagFields types type all i rest st vn = (fs, st', vn') ->
    fs = numberFields types (g_discriminant st) rest
    /\ g_enumVariants st'
       = g_enumVariants st ++ numberTags types type (g_discriminant st) rest
    /\ g_discriminant st' = g_discriminant st + length (filter (tagged types) rest)
    /\ vn' = vn ++ map (tagName (type_name type)) (filter (tagged types) rest)
    /\ g_isFunctions st' = g_isFunctions st
    /\ offsetConsts (g_ancestorTypes st') = offsetConsts (g_ancestorTypes st).
Proof.
  induction rest as [|field rest IH]; intros i st vn fs st' vn' H; simpl in H.
  - inversion H; subst. simpl. rewrite !app_nil_r, Nat.add_0_r. repeat split; auto.
  - unfold tagged, inTypes in *. cbn [numberFields numberTags filter].
    unfold tagged, inTypes.
    destruct (lookup types (Field.innerTypeName field)) as [fieldType|] eqn:L.
    + destruct (tagFields types type all (Datatypes.S i) rest _ _) as [[fs0 st0] vn0] eqn:E.
      inversion H; subst. apply IH in E.
      destruct E as (E1 & E2 & E3 & E4 & E5 & E6).
      cbn [g_discriminant g_enumVariants g_isFunctions g_ancestorTypes] in *.
      rewrite E1, E2, E3, E4, E5, E6, <- !app_assoc. cbn [app length map].
      unfold offsetConsts. rewrite filter_app. cbn [filter]. rewrite app_nil_r.
      repeat split; auto; lia.
    + destruct (tagFields types type all (Datatypes.S i) rest st vn) as [[fs0 st0] vn0] eqn:E.
      inversion H; subst. apply IH in E.
      destruct E as (E1 & E2 & E3 & E4 & E5 & E6).
      rewrite E1, E2, E3, E4, E5, E6. repeat split; auto.
Qed.

Lemma tagged_withOffsets types name fields :
  filter (tagged types) (withOffsets name fields)
  = withOffsets name (filter (tagged types) fields).
Proof.
  unfold withOffsets. induction fields as [|f fields IH]; simpl; auto.
  replace (tagged types (Field.set_offsetVarName
                           (offsetVarNameOf (toUpperCase (camelToSnake name)) f) f))
    with (tagged types f) by reflexivity.
  destruct (tagged types f); simpl; rewrite IH; reflexivity.
Qed.

Lemma numberTags_withOffsets types type name : forall fields d,
  numberTags types type d (withOffsets name fields) = numberTags types type d fields.
Proof.
  unfold withOffsets. induction fields as [|f fields IH]; intros d; simpl; auto.
  replace (tagged types (Field.set_offsetVarName
                           (offsetVarNameOf (toUpperCase (camelToSnake name)) f) f))
    with (tagged types f) by reflexivity.
  destruct (tagged types f); rewrite IH; reflexivity.
Qed.

Lemma ancestorsForType_numbered types type st type' st' :
  ancestorsForType types type st = (type', st') ->
  [type'] = numberTypes types (g_discriminant st) [type]
  /\ g_enumVariants st'
     = g_enumVariants st ++ numberTags types type (g_discriminant st) (fieldsOf type)
  /\ g_discriminant st'
     = g_discriminant st + length (filter (tagged types) (fieldsOf type))
  /\ g_isFunctions st' = g_isFunctions st ++ structIs types [type]
  /\ offsetConsts (g_ancestorTypes st')
     = offsetConsts (g_ancestorTypes st) ++ constsOf type.
Proof.
  intros H. destruct type as [name lt fields|name lt variants inherits]; simpl in H.
  - destruct (tagFields types _ _ 0 _ _ _) as [[fs0 st0] vn0] eqn:E.
    apply tagFields_numbered in E. destruct E as (E1 & E2 & E3 & E4 & E5 & E6).
    cbn [g_discriminant g_enumVariants g_isFunctions g_ancestorTypes app] in *.
    fold (withOffsets name fields) in *.
    rewrite numberTags_withOffsets in E2.
    rewrite tagged_withOffsets in E3, E4.
    unfold withOffsets in E3, E4. rewrite length_map in E3.
    rewrite map_map in E4. cbn [tagName Field.name Field.set_offsetVarName] in E4.
    assert (C : offsetConsts (g_ancestorTypes st0)
                = offsetConsts (g_ancestorTypes st) ++ constsOf (struct name lt fields)).
    { rewrite E6. unfold offsetConsts. rewrite filter_app. f_equal.
      cbn [constsOf]. clear. induction fields as [|f fields IH]; simpl; auto.
      rewrite IH. reflexivity. }
    cbn [numberTypes fieldsOf structIs flat_map]. rewrite app_nil_r.
    destruct (filter (tagged types) fields) as [|first rest] eqn:F;
      cbn [map] in E4; subst vn0; inversion H; subst; cbn [length] in *;
      cbn [g_discriminant g_enumVariants g_isFunctions g_ancestorTypes];
      rewrite ?app_nil_r; repeat split; auto; rewrite E5; reflexivity.
  - inversion H; subst. simpl. rewrite !app_nil_r, Nat.add_0_r. repeat split; auto.
Qed.

Lemma numberTypes_cons types d type todo :
  numberTypes types d (type :: todo)
  = numberTypes types d [type]
      ++ numberTypes types (d + length (filter (tagged types) (fieldsOf type))) todo.
Proof. reflexivity. Qed.

Lemma tagNames_length types todo :
  length (tagNames types todo)
  = list_sum (map (fun type => length (filter (tagged types) (fieldsOf type))) todo).
Proof.
  unfold tagNames. induction todo as [|type todo IH]; simpl; auto.
  rewrite length_app, length_map, IH. reflexivity.
Qed.

Lemma ancestorsLoop_numbered types :
  forall todo st done st',
    ancestorsLoop types todo st = (done, st') ->
    done = numberTypes types (g_discriminant st) todo
    /\ g_enumVariants st'
       = g_enumVariants st ++ numberAllTags types (g_discriminant st) todo
    /\ g_discriminant st' = g_discriminant st + length (tagNames types todo)
    /\ g_isFunctions st' = g_isFunctions st ++ structIs types todo
    /\ offsetConsts (g_ancestorTypes st')
       = offsetConsts (g_ancestorTypes st) ++ flat_map constsOf todo.
Proof.
  induction todo as [|type todo IH]; intros st done st' H; simpl in H.
  - inversion H; subst. simpl. rewrite !app_nil_r, Nat.add_0_r. repeat split; auto.
  - destruct (ancestorsForType types type st) as [type' st1] eqn:E1.
    destruct (ancestorsLoop types todo st1) as [done2 st2] eqn:E2.
    inversion H; subst.
    apply ancestorsForType_numbered in E1. destruct E1 as (A1 & A2 & A3 & A4 & A5).
    apply IH in E2. destruct E2 as (B1 & B2 & B3 & B4 & B5).
    rewrite numberTypes_cons, <- A1, B1, B2, B3, B4, B5, A2, A3, A4, A5.
    rewrite <- !app_assoc.
    cbn [numberAllTags flat_map app]. unfold structIs at 3. cbn [flat_map].
    fold (structIs types todo). unfold structIs at 1. cbn [flat_map].
    rewrite app_nil_r.
    replace (tagNames types (type :: todo))
      with (map (tagName (type_name type)) (filter (tagged types) (fieldsOf type))
              ++ tagNames types todo) by reflexivity.
    rewrite length_app, length_map.
    repeat split; auto; lia.
Qed.

Lemma nth_numberFields types : forall rest d k f,
  nth_error rest k = Some f ->
  nth_error (numberFields types d rest) k
  = Some (if tagged types f
          then Field.set_ancestorDiscriminant
                 (d + length (filter (tagged types) (firstn k rest))) f
          else f).
Proof.
  induction rest as [|f0 rest IH]; intros d k f H; destruct k as [|k];
    simpl in H; try discriminate.
  - inversion H; subst. simpl. destruct (tagged types f); simpl; [|reflexivity].
    rewrite Nat.add_0_r. reflexivity.
  - cbn [numberFields firstn filter].
    destruct (tagged types f0); cbn [nth_error length]; rewrite (IH _ _ _ H); [|reflexivity].
    destruct (tagged types f); [|reflexivity].
    rewrite Nat.add_succ_r. reflexivity.
Qed.

Lemma length_numberFields types : forall rest d,
  length (numberFields types d rest) = length rest.
Proof.
  induction rest as [|f rest IH]; intros d; simpl; auto.
  destruct (tagged types f); simpl; rewrite IH; reflexivity.
Qed.

Lemma nth_numberTags types type : forall rest d k f,
  nth_error rest k = Some f ->
  tagged types f = true ->
  nth_error (numberTags types type d rest) (length (filter (tagged types) (firstn k rest)))
  = Some (mkEnumVariant (tagName (type_name type) f) (withoutStructName type f)
            (d + length (filter (tagged types) (firstn k rest)))).
Proof.
  induction rest as [|f0 rest IH]; intros d k f H T; destruct k as [|k];
    simpl in H; try discriminate.
  - inversion H; subst. simpl. rewrite T. simpl. rewrite Nat.add_0_r. reflexivity.
  - cbn [numberTags firstn filter].
    destruct (tagged types f0); cbn [nth_error length]; rewrite (IH _ _ _ H T);
      [|reflexivity].
    rewrite Nat.add_succ_r. reflexivity.
Qed.

Lemma length_numberTags types type : forall rest d,
  length (numberTags types type d rest) = length (filter (tagged types) rest).
Proof.
  induction rest as [|f rest IH]; intros d; simpl; auto.
  destruct (tagged types f); simpl; rewrite IH; reflexivity.
Qed.

Lemma nth_numberTypes types : forall todo d i type,
  nth_error todo i = Some type ->
  nth_error (numberTypes types d todo) i
  = Some (match type with
          | struct name lt fields =>
              struct name lt
                (numberFields types (d + length (tagNames types (firstn i todo)))
                   (withOffsets name fields))
          | enum _ _ _ _ => type
          end).
Proof.
  induction todo as [|t0 todo IH]; intros d i type H; destruct i as [|i];
    simpl in H; try discriminate.
  - inversion H; subst. simpl. rewrite Nat.add_0_r. reflexivity.
  - cbn [numberTypes nth_error firstn]. rewrite (IH _ _ _ H).
    replace (tagNames types (t0 :: firstn i todo))
      with (map (tagName (type_name t0)) (filter (tagged types) (fieldsOf t0))
              ++ tagNames types (firstn i todo)) by reflexivity.
    rewrite length_app, length_map, Nat.add_assoc. reflexivity.
Qed.

Lemma nth_numberAllTags types : forall todo d i type k f,
  nth_error todo i = Some type ->
  nth_error (fieldsOf type) k = Some f ->
  tagged types f = true ->
  nth_error (numberAllTags types d todo)
            (length (tagNames types (firstn i todo))
             + length (filter (tagged types) (firstn k (fieldsOf type))))
  = Some (mkEnumVariant (tagName (type_name type) f) (withoutStructName type f)
            (d + (length (tagNames types (firstn i todo))
                  + length (filter (tagged types) (firstn k (fieldsOf type)))))).
Proof.
  induction todo as [|t0 todo IH]; intros d i type k f H Hk T; destruct i as [|i];
    simpl in H; try discriminate.
  - inversion H; subst. cbn [numberAllTags firstn tagNames flat_map length].
    rewrite Nat.add_0_l.
    rewrite nth_error_app1.
    + apply nth_numberTags; assumption.
    + rewrite length_numberTags.
      assert (L : nth_error (filter (tagged types) (fieldsOf type))
                    (length (filter (tagged types) (firstn k (fieldsOf type)))) <> None).
      { clear - Hk T. revert k Hk. induction (fieldsOf type) as [|f0 fs IH]; intros k Hk;
          destruct k as [|k]; simpl in Hk; try discriminate.
        - inversion Hk; subst. simpl. rewrite T. simpl. discriminate.
        - cbn [firstn filter]. destruct (tagged types f0); simpl; apply IH; exact Hk. }
      apply nth_error_Some in L. exact L.
  - cbn [numberAllTags firstn].
    replace (tagNames types (t0 :: firstn i todo))
      with (map (tagName (type_name t0)) (filter (tagged types) (fieldsOf t0))
              ++ tagNames types (firstn i todo)) by reflexivity.
    rewrite length_app, length_map.
    rewrite nth_error_app2; rewrite length_numberTags; [|lia].
    replace (length (filter (tagged types) (fieldsOf t0))
             + length (tagNames types (firstn i todo))
             + length (filter (tagged types) (firstn k (fieldsOf type)))
             - length (filter (tagged types) (fieldsOf t0)))
      with (length (tagNames types (firstn i todo))
            + length (filter (tagged types) (firstn k (fieldsOf type)))) by lia.
    rewrite (IH _ _ _ _ _ H Hk T). do 2 f_equal. lia.
Qed.

(** X9.  What [generateAncestorsCode] leaves on the field objects: the struct
    at a position of the catalogue is still at that position, with every
    field in its place; the field now names its offset constant ([OFFSET_],
    the snake-case struct name and the field name in the upper case that
    [toUpperCase] gives them), and a tagged
    field carries as discriminant one more than the number of tags declared
    before it, while an untagged field is otherwise as it was. *)
Theorem field_annotation (types : Types) (i : nat) (name : string) (lt : bool)
    (fields : list Field.t) (k : nat) (f : Field.t) :
  nth_error types i = Some (struct name lt fields) ->
  nth_error fields k = Some f ->
  exists fields',
    nth_error (snd (generateAncestorsCode types)) i = Some (struct name lt fields')
    /\ length fields' = length fields
    /\ nth_error fields' k
       = Some (let f1 := Field.set_offsetVarName
                           (offsetVarNameOf (toUpperCase (camelToSnake name)) f) f in
               if tagged types f
               then Field.set_ancestorDiscriminant
                      (Datatypes.S (tagsBefore types i fields k)) f1
               else f1).
Proof.
  intros Hi Hk. unfold generateAncestorsCode.
  destruct (ancestorsLoop types types initialState) as [types' st] eqn:E.
  apply ancestorsLoop_numbered in E. destruct E as (E1 & _). cbn [snd]. subst types'.
  cbn [initialState g_discriminant].
  eexists. split; [rewrite (nth_numberTypes _ _ _ _ _ Hi); reflexivity|].
  split.
  - rewrite length_numberFields. unfold withOffsets. apply length_map.
  - erewrite nth_numberFields
      by (unfold withOffsets; rewrite nth_error_map, Hk; reflexivity).
    replace (tagged types (Field.set_offsetVarName
                             (offsetVarNameOf (toUpperCase (camelToSnake name)) f) f))
      with (tagged types f) by reflexivity.
    cbv zeta. destruct (tagged types f); [|reflexivity].
    do 2 f_equal. unfold tagsBefore. cbn [Nat.add]. do 2 f_equal.
    fold (withOffsets name fields).
    assert (X : firstn k (withOffsets name fields) = withOffsets name (firstn k fields)).
    { unfold withOffsets. apply firstn_map. }
    rewrite X, tagged_withOffsets. unfold withOffsets. apply length_map.
Qed.

(** X10.  The discriminant a tagged field carries is the one the [Ancestor]
    enum declares for the tag of that field: the variant at that position of
    the enum, [None] being at position 0, is named after the struct and the
    field, wraps the accessor struct of that field, and has that number. *)
Theorem tag_declared_at_discriminant (types : Types) (i : nat) (name : string) (lt : bool)
    (fields : list Field.t) (k : nat) (f : Field.t) :
  nth_error types i = Some (struct name lt fields) ->
  nth_error fields k = Some f ->
  tagged types f = true ->
  let d := Datatypes.S (tagsBefore types i fields k) in
  nth_error (ancestorEnum (fst (generateAncestorsCode types))) d
  = Some (mkEnumVariant (tagName name f) (withoutStructName (struct name lt fields) f) d).
Proof.
  intros Hi Hk T d. subst d. unfold generateAncestorsCode.
  destruct (ancestorsLoop types types initialState) as [types' st] eqn:E.
  apply ancestorsLoop_numbered in E. destruct E as (_ & E2 & _).
  cbn [fst ancestorEnum nth_error initialState g_enumVariants g_discriminant app] in *.
  rewrite E2. unfold tagsBefore.
  exact (nth_numberAllTags types types 1 i (struct name lt fields) k f Hi Hk T).
Qed.

(** X11.  The emitted module has one [offset_of!] constant for every field of
    every catalogued struct, tagged or not, in declaration order, named
    [OFFSET_] followed by the snake name of the struct and the name of the
    field, both in the upper case that [toUpperCase] gives them, and none for
    an enum. *)
Theorem offset_constants_per_field (types : Types) :
  offsetConsts (ancestorTypes (fst (generateAncestorsCode types)))
  = flat_map constsOf types.
Proof.
  unfold generateAncestorsCode.
  destruct (ancestorsLoop types types initialState) as [types' st] eqn:E.
  apply ancestorsLoop_numbered in E. destruct E as (_ & _ & _ & _ & E5).
  exact E5.
Qed.


Lemma viaLookup_push (m : list (string * list string)) (k v E : string) :
  viaLookup (pushVariantName m k v) E
  = viaLookup m E ++ (if String.eqb k E then [v] else []).
Proof.
  unfold viaLookup. induction m as [|[k' vs] m IH]; simpl.
  - destruct (String.eqb k E); reflexivity.
  - destruct (String.eqb_spec k' k) as [->|N]; simpl.
    + destruct (String.eqb k E); simpl; [reflexivity|].
      rewrite app_nil_r. reflexivity.
    + destruct (String.eqb_spec k' E) as [->|N']; simpl; [|exact IH].
      destruct (String.eqb_spec k E) as [->|_]; [contradiction|].
      rewrite app_nil_r. reflexivity.
Qed.

Lemma keys_push (m : list (string * list string)) (k v : string) :
  (forall x, In x (map fst (pushVariantName m k v)) <-> x = k \/ In x (map fst m))
  /\ (NoDup (map fst m) -> NoDup (map fst (pushVariantName m k v)))
  /\ (Forall (fun p => snd p <> []) m ->
      Forall (fun p => snd p <> []) (pushVariantName m k v)).
Proof.
  induction m as [|[k' vs] m (IH1 & IH2 & IH3)]; simpl.
  - split; [intros x; intuition auto|].
    split; intros _; repeat constructor; auto; discriminate.
  - destruct (String.eqb_spec k' k) as [->|N]; simpl.
    + split; [intros x; intuition auto|]. split; [auto|].
      intros F. inversion F; subst. constructor; auto. simpl.
      destruct vs; discriminate.
    + split; [intros x; rewrite IH1; tauto|]. split.
      * intros D. inversion D; subst. constructor; auto.
        rewrite IH1. intros [->|X]; [apply N; reflexivity|contradiction].
      * intros F. inversion F; subst. constructor; auto.
Qed.

Lemma tagFields_via types type all :
  forall rest i st vn fs st' vn',
    tagFields types type all i rest st vn = (fs, st', vn') ->
    (forall E,
        viaLookup (g_variantNamesForEnums st') E
        = viaLookup (g_variantNamesForEnums st) E
            ++ (if isEnum types E
                then map (tagName (type_name type))
                       (filter (fun f => String.eqb (Field.innerTypeName f) E) rest)
                else []))
    /\ (NoDup (map fst (g_variantNamesForEnums st)) ->
        NoDup (map fst (g_variantNamesForEnums st')))
    /\ (Forall (fun p => snd p <> []) (g_variantNamesForEnums st) ->
        Forall (fun p => snd p <> []) (g_variantNamesForEnums st')).
Proof.
  induction rest as [|field rest IH]; intros i st vn fs st' vn' H; simpl in H.
  - inversion H; subst. split; [|auto].
    intros E. simpl. destruct (isEnum types E); rewrite app_nil_r; reflexivity.
  - destruct (lookup types (Field.innerTypeName field)) as [fieldType|] eqn:L.
    + destruct (tagFields types type all (Datatypes.S i) rest _ _) as [[fs0 st0] vn0] eqn:E0.
      inversion H; subst. apply IH in E0. destruct E0 as (V & D & F).
      cbn [g_variantNamesForEnums] in V, D, F.
      destruct fieldType as [sname slt sfields|ename elt evariants einherits].
      * split; [|auto]. intros E. rewrite V. f_equal. cbn [filter].
        destruct (String.eqb_spec (Field.innerTypeName field) E) as [<-|_]; [|reflexivity].
        unfold isEnum. rewrite L. reflexivity.
      * destruct (keys_push (g_variantNamesForEnums st) (Field.innerTypeName field)
                    (type_name type ++ snakeToCamel (Field.name field))%string)
          as (_ & K2 & K3).
        split; [|auto]. intros E. rewrite V, viaLookup_push, <- app_assoc. f_equal.
        cbn [filter].
        destruct (String.eqb_spec (Field.innerTypeName field) E) as [<-|_].
        -- unfold isEnum. rewrite L. reflexivity.
        -- reflexivity.
    + destruct (tagFields types type all (Datatypes.S i) rest st vn) as [[fs0 st0] vn0] eqn:E0.
      inversion H; subst. apply IH in E0. destruct E0 as (V & D & F).
      split; [|auto]. intros E. rewrite V. f_equal. cbn [filter].
      destruct (String.eqb_spec (Field.innerTypeName field) E) as [<-|_]; [|reflexivity].
      unfold isEnum. rewrite L. reflexivity.
Qed.

Lemma ancestorsForType_via types type st type' st' :
  ancestorsForType types type st = (type', st') ->
  (forall E,
      viaLookup (g_variantNamesForEnums st') E
      = viaLookup (g_variantNamesForEnums st) E
          ++ (if isEnum types E then viaTags [type] E else []))
  /\ (NoDup (map fst (g_variantNamesForEnums st)) ->
      NoDup (map fst (g_variantNamesForEnums st')))
  /\ (Forall (fun p => snd p <> []) (g_variantNamesForEnums st) ->
      Forall (fun p => snd p <> []) (g_variantNamesForEnums st')).
Proof.
  intros H. destruct type as [name lt fields|name lt variants inherits]; simpl in H.
  - destruct (tagFields types _ _ 0 _ _ _) as [[fs0 st0] vn0] eqn:E0.
    apply tagFields_via in E0. destruct E0 as (V & D & F).
    cbn [g_variantNamesForEnums] in V, D, F.
    assert (M : g_variantNamesForEnums st' = g_variantNamesForEnums st0)
      by (destruct vn0; inversion H; subst; reflexivity).
    rewrite M. split; [|auto]. intros E. rewrite V. f_equal.
    destruct (isEnum types E); [|reflexivity].
    unfold viaTags. cbn [flat_map fieldsOf type_name]. rewrite app_nil_r.
    clear. induction fields as [|f fields IH]; simpl; auto.
    destruct (String.eqb (Field.innerTypeName f) E); simpl; rewrite IH; reflexivity.
  - inversion H; subst. split; [|auto]. intros E. unfold viaTags. simpl.
    destruct (isEnum types E); rewrite app_nil_r; reflexivity.
Qed.

Lemma ancestorsLoop_via types :
  forall todo st done st',
    ancestorsLoop types todo st = (done, st') ->
    (forall E,
        viaLookup (g_variantNamesForEnums st') E
        = viaLookup (g_variantNamesForEnums st) E
            ++ (if isEnum types E then viaTags todo E else []))
    /\ (NoDup (map fst (g_variantNamesForEnums st)) ->
        NoDup (map fst (g_variantNamesForEnums st')))
    /\ (Forall (fun p => snd p <> []) (g_variantNamesForEnums st) ->
        Forall (fun p => snd p <> []) (g_variantNamesForEnums st')).
Proof.
  induction todo as [|type todo IH]; intros st done st' H; simpl in H.
  - inversion H; subst. split; [|auto]. intros E. unfold viaTags. simpl.
    destruct (isEnum types E); rewrite app_nil_r; reflexivity.
  - destruct (ancestorsForType types type st) as [type' st1] eqn:E1.
    destruct (ancestorsLoop types todo st1) as [done2 st2] eqn:E2.
    inversion H; subst.
    apply ancestorsForType_via in E1. destruct E1 as (V1 & D1 & F1).
    apply IH in E2. destruct E2 as (V2 & D2 & F2).
    split; [|auto]. intros E. rewrite V2, V1, <- app_assoc. f_equal.
    destruct (isEnum types E); [|reflexivity].
    unfold viaTags. cbn [flat_map]. rewrite app_nil_r. reflexivity.
Qed.

Lemma viaLookup_In (m : list (string * list string)) (E : string) (vs : list string) :
  NoDup (map fst m) -> In (E, vs) m -> viaLookup m E = vs.
Proof.
  unfold viaLookup. induction m as [|[k ws] m IH]; intros D HIn; [destruct HIn|].
  simpl in *. inversion D; subst.
  destruct HIn as [X|HIn].
  - inversion X; subst. rewrite String.eqb_refl. reflexivity.
  - destruct (String.eqb_spec k E) as [->|_]; [|auto].
    exfalso. apply H1. apply in_map_iff. exists (E, vs). auto.
Qed.

Lemma viaLookup_keys (m : list (string * list string)) (E : string) :
  Forall (fun p => snd p <> []) m ->
  (In E (map fst m) <-> viaLookup m E <> []).
Proof.
  unfold viaLookup. intros F. split.
  - intros HIn. apply in_map_iff in HIn. destruct HIn as ([k vs] & <- & HIn).
    cbn [fst].
    destruct (find (fun p => String.eqb (fst p) k) m) as [p|] eqn:Fd.
    + apply find_some in Fd. destruct Fd as [Hp _].
      rewrite Forall_forall in F. apply F, Hp.
    + eapply find_none in Fd; [|exact HIn]. simpl in Fd.
      rewrite String.eqb_refl in Fd. discriminate.
  - intros H. destruct (find (fun p => String.eqb (fst p) E) m) as [p|] eqn:Fd;
      [|contradiction].
    apply find_some in Fd. destruct Fd as [Hp Ep]. apply String.eqb_eq in Ep.
    apply in_map_iff. exists p. auto.
Qed.

(** X13.  The [is_*] functions of the [Ancestor] enum: first one
    [is_<struct>] per catalogued struct with a tagged field, in catalogue
    order, matching the tags of that struct; then one [is_via_<enum>] per
    catalogued enum that is the inner type of some struct field, matching the
    tags of exactly those fields in declaration order.  A field whose inner
    type is a struct adds to no [is_via_*] function. *)
Theorem is_functions_emitted (types : Types) :
  exists via,
    NoDup via
    /\ (forall E, In E via <-> isEnum types E = true /\ viaTags types E <> [])
    /\ isFunctions (fst (generateAncestorsCode types))
       = structIs types types
           ++ map (fun E => mkIsFunction ("is_via_" ++ camelToSnake E)%string
                              (viaTags types E))
                  via.
Proof.
  unfold generateAncestorsCode.
  destruct (ancestorsLoop types types initialState) as [types' st] eqn:E.
  pose proof (ancestorsLoop_numbered _ _ _ _ _ E) as (_ & _ & _ & I & _).
  apply ancestorsLoop_via in E. destruct E as (V & D & F).
  cbn [initialState g_variantNamesForEnums g_isFunctions app map] in V, D, F, I.
  specialize (D (NoDup_nil _)). specialize (F (Forall_nil _)).
  assert (V' : forall E, viaLookup (g_variantNamesForEnums st) E
                         = if isEnum types E then viaTags types E else []).
  { intros E. rewrite V. reflexivity. }
  exists (map fst (g_variantNamesForEnums st)). split; [exact D|]. split.
  - intros E. rewrite (viaLookup_keys _ E F), V'.
    destruct (isEnum types E); split; try tauto; intros [X _]; discriminate.
  - cbn [fst isFunctions]. rewrite I. f_equal. rewrite map_map.
    apply map_ext_in. intros [k vs] HIn. cbn [fst]. f_equal.
    rewrite <- (viaLookup_In _ _ _ D HIn), V'.
    destruct (isEnum types k) eqn:Ek; [reflexivity|].
    exfalso. rewrite Forall_forall in F. apply (F _ HIn). cbn [snd].
    rewrite <- (viaLookup_In _ _ _ D HIn), V', Ek. reflexivity.
Qed.

End AncestorShapeFacts.

(** * The ancestor stack under any visitor *)

Lemma Stmt_nested_ind (P : Stmt -> Prop) :
  (forall method arg, P (Hook method arg)) ->
  (forall variant structName, P (PushStack variant structName)) ->
  (forall d, P (RetagStack d)) ->
  P PopStack ->
  (forall fn arg, P (Walk fn arg)) ->
  (forall x e body, Forall P body -> P (IfLetSome x e body)) ->
  (forall x e flatten body, Forall P body -> P (ForIn x e flatten body)) ->
  (forall e arms, P (Match e arms)) ->
  forall s, P s.
Proof.
  intros H1 H2 H3 H4 H5 H6 H7 H8.
  fix IH 1. intros s. destruct s as [m a|v sn|d| |f a|x e body|x e fl body|e arms].
  - apply H1.
  - apply H2.
  - apply H3.
  - apply H4.
  - apply H5.
  - apply H6. induction body as [|s body IHb]; constructor; [apply IH|exact IHb].
  - apply H7. induction body as [|s body IHb]; constructor; [apply IH|exact IHb].
  - apply H8.
Qed.

Section StackDiscipline.
Context {S : Type}.
Context (ancestor : list EnumVariant) (trait : list TraitMethod)
        (impl : string -> option (HookFn S)).

Lemma keeps_refl strict (st : State S) : keeps strict st st [].
Proof.
  destruct strict; simpl; split; auto using neutral_nil.
  - split; reflexivity.
  - apply neutral_above, neutral_nil.
Qed.

Lemma keeps_trans strict (st st1 st2 : State S) tr1 tr2 :
  keeps strict st st1 tr1 -> keeps strict st1 st2 tr2 -> keeps strict st st2 (tr1 ++ tr2).
Proof.
  destruct strict; simpl; intros [A1 A2] [B1 B2]; split.
  - congruence.
  - apply neutral_app; assumption.
  - destruct A1, B1. split; congruence.
  - apply neutralAbove_app; assumption.
Qed.

Lemma keeps_loose strict (st st' : State S) tr :
  keeps true st st' tr -> keeps strict st st' tr.
Proof.
  destruct strict; simpl; auto. intros [A B]. split.
  - rewrite A. split; reflexivity.
  - apply neutral_above, B.
Qed.

Lemma scoped_keeps strict block x v env (st : State S) v' env' st' tr :
  keeping strict block ->
  scoped block x v env st = Some (v', env', st', tr) ->
  keeps strict st st' tr.
Proof.
  unfold scoped. intros K H.
  destruct (block ((x, v) :: env) st) as [[[[|[y w] e1] s1] t1]|] eqn:E; try discriminate.
  inversion H; subst. eapply K; eauto.
Qed.

Lemma forEach_keeps strict (block : Env -> State S -> option (Outcome (S := S)))
    x flatten :
  keeping strict block ->
  forall items env (st : State S) items' env' st' tr,
    forEach block x flatten items env st = Some (items', env', st', tr) ->
    keeps strict st st' tr.
Proof.
  intros K. induction items as [|item items IH]; intros env st items' env' st' tr H;
    simpl in H.
  - inversion H; subst. apply keeps_refl.
  - destruct flatten.
    + destruct item; try discriminate.
      * destruct (forEach block x true items env st) as [[[[r e1] s1] t1]|] eqn:E;
          try discriminate.
        inversion H; subst. eapply IH; eauto.
      * destruct (scoped block x item env st) as [[[[w e1] s1] t1]|] eqn:E1;
          try discriminate.
        destruct (forEach block x true items e1 s1) as [[[[r e2] s2] t2]|] eqn:E2;
          try discriminate.
        inversion H; subst. eapply keeps_trans; [eapply scoped_keeps|eapply IH]; eauto.
    + destruct (scoped block x item env st) as [[[[w e1] s1] t1]|] eqn:E1;
        try discriminate.
      destruct (forEach block x false items e1 s1) as [[[[r e2] s2] t2]|] eqn:E2;
        try discriminate.
      inversion H; subst. eapply keeps_trans; [eapply scoped_keeps|eapply IH]; eauto.
Qed.

Lemma runBlock_keeps strict (run : Stmt -> Env -> State S -> option (Outcome (S := S))) :
  forall body,
    Forall (fun s => keeping strict (run s)) body ->
    keeping strict (runBlock run body).
Proof.
  induction body as [|s body IH]; intros F env st env' st' tr H; simpl in H.
  - inversion H; subst. apply keeps_refl.
  - inversion F as [|? ? Fs Fb]; subst.
    destruct (run s env st) as [[[e1 s1] t1]|] eqn:E1; try discriminate.
    destruct (runBlock run body e1 s1) as [[[e2 s2] t2]|] eqn:E2; try discriminate.
    inversion H; subst. eapply keeps_trans; [eapply Fs|eapply IH]; eauto.
Qed.

Section Calls.
Context (callFn : string -> Value -> State S -> option (Value * State S * list Event)).
Context (callFn_keeps : forall fn v st v' st' tr,
            callFn fn v st = Some (v', st', tr) -> stack st' = stack st /\ neutral tr).

Lemma walkCall_keeps strict fn arg : keeping strict (walkCall callFn fn arg).
Proof.
  intros env st env' st' tr H. unfold walkCall in H.
  destruct (readPlace env arg) as [v|]; try discriminate.
  destruct (callFn fn v st) as [[[v1 s1] t1]|] eqn:E; try discriminate.
  destruct (writePlace env arg v1); try discriminate.
  inversion H; subst. apply keeps_loose. simpl. eapply callFn_keeps; eauto.
Qed.

Lemma exec_keeps (strict : bool) : forall s,
  (if strict then calm s else quiet s) = true ->
  keeping strict (exec ancestor trait impl callFn s).
Proof.
  induction s as [m a|v sn|d| |f a|x e body IHb|x e fl body IHb|e arms]
    using Stmt_nested_ind; intros Hs env st env' st' tr H.
  - simpl in H.
    destruct (readPlace env a) as [v|]; try discriminate.
    destruct (callHook trait impl m v st) as [[[v1 s1] t1]|] eqn:E; try discriminate.
    destruct (writePlace env a v1); try discriminate.
    inversion H; subst. apply callHook_stack in E. destruct E as [E ->].
    apply keeps_loose. simpl. split; [exact E|apply neutral_hook].
  - destruct strict; discriminate.
  - destruct strict; [discriminate|]. simpl in H.
    destruct d as [d|]; try discriminate.
    unfold retag_stack in H. destruct (stack st) as [|top below] eqn:Es; try discriminate.
    inversion H; subst. simpl. rewrite Es. split; [split; reflexivity|].
    intros n. reflexivity.
  - destruct strict; discriminate.
  - eapply walkCall_keeps; eauto.
  - assert (Fb : Forall (fun s => keeping strict (exec ancestor trait impl callFn s)) body).
    { apply Forall_forall. intros s Hin. rewrite Forall_forall in IHb.
      apply IHb; [exact Hin|].
      destruct strict; simpl in Hs; rewrite forallb_forall in Hs; apply Hs, Hin. }
    simpl in H. destruct (readPlace env e) as [[| | | |v| |]|]; try discriminate.
    + inversion H; subst. apply keeps_refl.
    + destruct (scoped (runBlock (exec ancestor trait impl callFn) body) x v env st)
        as [[[[w e1] s1] t1]|] eqn:E; try discriminate.
      destruct (writePlace e1 e (SomeV w)); try discriminate.
      inversion H; subst. eapply scoped_keeps; [|exact E].
      apply runBlock_keeps, Fb.
  - assert (Fb : Forall (fun s => keeping strict (exec ancestor trait impl callFn s)) body).
    { apply Forall_forall. intros s Hin. rewrite Forall_forall in IHb.
      apply IHb; [exact Hin|].
      destruct strict; simpl in Hs; rewrite forallb_forall in Hs; apply Hs, Hin. }
    simpl in H. destruct (readPlace env e) as [[| | | | |items|]|]; try discriminate.
    destruct (forEach (runBlock (exec ancestor trait impl callFn) body) x fl items env st)
      as [[[[w e1] s1] t1]|] eqn:E; try discriminate.
    destruct (writePlace e1 e (VecV w)); try discriminate.
    inversion H; subst. eapply forEach_keeps; [|exact E].
    apply runBlock_keeps, Fb.
  - simpl in H. destruct (readPlace env e) as [[| |variant payload| | | |]|];
      try discriminate.
    destruct (dispatch arms variant) as [arm|]; try discriminate.
    destruct (armBinds arm).
    + destruct (scoped (walkCall callFn (armFn arm) (armArg arm)) "node" payload env st)
        as [[[[w e1] s1] t1]|] eqn:E; try discriminate.
      destruct (writePlace e1 e (EnumV variant w)); try discriminate.
      inversion H; subst. eapply scoped_keeps; [|exact E]. apply walkCall_keeps.
    + eapply walkCall_keeps; eauto.
Qed.

Lemma block_keeps (strict : bool) body :
  forallb (fun s => if strict then calm s else quiet s) body = true ->
  keeping strict (runBlock (exec ancestor trait impl callFn) body).
Proof.
  intros H. apply runBlock_keeps, Forall_forall. intros s Hin.
  rewrite forallb_forall in H. apply exec_keeps, H, Hin.
Qed.

Lemma runBlock_split (run : Stmt -> Env -> State S -> option (Outcome (S := S))) :
  forall a b env st env2 st2 tr,
    runBlock run (a ++ b) env st = Some (env2, st2, tr) ->
    exists env1 st1 tr1 tr2,
      runBlock run a env st = Some (env1, st1, tr1)
      /\ runBlock run b env1 st1 = Some (env2, st2, tr2)
      /\ tr = tr1 ++ tr2.
Proof.
  induction a as [|s a IH]; intros b env st env2 st2 tr H; simpl in *.
  - exists env, st, [], tr. auto.
  - destruct (run s env st) as [[[e0 s0] t0]|]; [|discriminate].
    destruct (runBlock run (a ++ b) e0 s0) as [[[e3 s3] t3]|] eqn:E; [|discriminate].
    inversion H; subst.
    destruct (IH _ _ _ _ _ _ E) as (env1 & st1 & tr1 & tr2 & A1 & A2 & ->).
    rewrite A1. exists env1, st1, (t0 ++ tr1), tr2.
    rewrite app_assoc. auto.
Qed.

Lemma disciplined_keeps body :
  disciplined body ->
  keeping true (runBlock (exec ancestor trait impl callFn) body).
Proof.
  intros [C|(m1 & e1 & variant & sn & mid & m2 & e2 & -> & Q)].
  - apply (block_keeps true). exact C.
  - intros env st env' st' tr H.
    change (Hook m1 e1 :: PushStack variant sn :: mid ++ [PopStack; Hook m2 e2])
      with ([Hook m1 e1] ++ [PushStack variant sn] ++ mid ++ [PopStack] ++ [Hook m2 e2])
      in H.
    apply runBlock_split in H. destruct H as (ea & sa & ta & tb & Ha & H & ->).
    apply runBlock_split in H. destruct H as (eb & sb & tb' & tc & Hb & H & ->).
    apply runBlock_split in H. destruct H as (ec & sc & tc' & td & Hc & H & ->).
    apply runBlock_split in H. destruct H as (ed & sd & td' & te & Hd & He & ->).
    apply (block_keeps true [Hook m1 e1] eq_refl) in Ha. destruct Ha as [Sa Na].
    apply (block_keeps true [Hook m2 e2] eq_refl) in He. destruct He as [Se Ne].
    apply (block_keeps false mid Q) in Hc. destruct Hc as [[Lc Tc] Nc].
    simpl in Hb. destruct (discriminantOf ancestor variant) as [d|]; try discriminate.
    inversion Hb; subst. clear Hb.
    simpl in Hd. unfold pop_stack in Hd.
    destruct (stack sc) as [|top below] eqn:Es; try discriminate.
    inversion Hd; subst. clear Hd.
    simpl in Lc, Tc. subst below. simpl in Se.
    split; [congruence|].
    intros n. rewrite (depthAfter_app _ _ _ _ (Na n)). simpl.
    rewrite (depthAfter_app _ _ _ _ (Nc n)). simpl. apply Ne.
Qed.

End Calls.

Lemma call_keeps (program : list Function) :
  (forall f, In f program -> disciplined (fnBody f)) ->
  forall fuel fn v st v' st' tr,
    call ancestor trait impl program fuel fn v st = Some (v', st', tr) ->
    stack st' = stack st /\ neutral tr.
Proof.
  intros D. induction fuel as [|fuel IH]; intros fn v st v' st' tr H; simpl in H;
    [discriminate|].
  destruct (findFn fn program) as [f|] eqn:Ff; try discriminate.
  destruct (scoped _ (fnParam f) v [] st) as [[[[w e1] s1] t1]|] eqn:E; try discriminate.
  inversion H; subst.
  apply (scoped_keeps true) in E; [exact E|].
  apply disciplined_keeps; [exact IH|].
  apply D. unfold findFn in Ff. apply find_some in Ff. apply Ff.
Qed.

End StackDiscipline.

Section GeneratedDiscipline.
Context {U : Utils}.

Lemma fieldStmts_quiet shape T field index e :
  forallb quiet (fieldStmts shape T (retagCodeOf field index) e) = true.
Proof.
  unfold retagCodeOf.
  destruct shape, (Nat.eqb index 0); simpl; try reflexivity;
    destruct (String.eqb T "Statement"); reflexivity.
Qed.

Lemma fieldCodes_quiet : forall fields index codes,
  mapIndexed fieldCodeFor index fields = Ok codes ->
  forallb quiet (concat codes) = true.
Proof.
  induction fields as [|f fields IH]; intros index codes H; simpl in H.
  - inversion H. reflexivity.
  - destruct (fieldCodeFor f index) as [c| |] eqn:E; simpl in H; try discriminate.
    destruct (mapIndexed fieldCodeFor (Datatypes.S index) fields) as [cs| |] eqn:E2;
      simpl in H; try discriminate.
    inversion H; subst codes. simpl. rewrite forallb_app, (IH _ _ E2), andb_true_r.
    pose proof (fieldCodeFor_shape f index) as Sh.
    destruct (shapeOf (snd (typeAndWrappers (Field.type f)))) as [shape|].
    + rewrite Sh in E. inversion E; subst. apply fieldStmts_quiet.
    + destruct Sh as [m Sh]. congruence.
Qed.

Lemma struct_disciplined type types fn :
  generateWalkForStruct type types = Ok fn -> disciplined (fnBody fn).
Proof.
  unfold generateWalkForStruct. intros H.
  destruct (mapIndexed fieldCodeFor 0 (visitedFields type types)) as [codes| |] eqn:E;
    simpl in H; try discriminate.
  inversion H; subst fn. clear H. cbn [fnBody].
  pose proof (fieldCodes_quiet _ _ _ E) as Q.
  destruct (visitedFields type types) as [|first rest].
  - simpl in E. inversion E; subst. left. reflexivity.
  - right. do 7 eexists. split; [|exact Q].
    cbn [concat app]. rewrite concat_app. cbn [concat app].
    rewrite <- !app_assoc. reflexivity.
Qed.

Lemma program_disciplined fuel types program :
  generateWalkFunctionsCode fuel types = Ok program ->
  forall f, In f program -> disciplined (fnBody f).
Proof.
  unfold generateWalkFunctionsCode. intros H f Hf.
  destruct (walkMethods fuel types types) as [fns| |] eqn:E; simpl in H; try discriminate.
  inversion H; subst program. clear H.
  apply in_app_or in Hf. destruct Hf as [Hf|[<-|[]]].
  - apply walkMethods_Forall2 in E.
    destruct (Forall2_In_r _ _ _ _ E Hf) as (type & _ & G).
    destruct type.
    + eapply struct_disciplined; eauto.
    + destruct (generateWalkForEnum_body _ _ _ _ G) as (inherited & _ & _ & ->).
      left. reflexivity.
  - left. reflexivity.
Qed.

(** X14.  Whatever the visitor's hooks do to the nodes and to the visitor, a
    call of an emitted walk function that returns leaves the ancestor stack as
    it found it, and the pushes, retags and pops on the way are matched:
    at any depth the stack may have had, no retag or pop met an empty stack
    and the depth at the end is the depth at the start. *)
Theorem stack_restored_after_walk {S : Type} (ancestor : list EnumVariant)
    (trait : list TraitMethod) (impl : string -> option (HookFn S))
    (gfuel : nat) (types : Types) (program : list Function)
    (fuel : nat) (fn : string) (v v' : Value) (st st' : State S) (tr : list Event) :
  generateWalkFunctionsCode gfuel types = Ok program ->
  call ancestor trait impl program fuel fn v st = Some (v', st', tr) ->
  stack st' = stack st /\ neutral tr.
Proof.
  intros G H. eapply call_keeps; [|exact H].
  eapply program_disciplined; eauto.
Qed.

End GeneratedDiscipline.

Lemma stack_restored_after_walk_witness :
  exists v' st' tr,
    call (ancestorEnum sampleAncestors) sampleTrait depthCounter sampleProgram 6
         "walk_binary_expression" sampleTree (mkState 0 [7])
    = Some (v', st', tr)
    /\ stack st' = [7] /\ neutral tr.
Proof.
  destruct sample_generated as (_ & _ & G & _).
  destruct (call (ancestorEnum sampleAncestors) sampleTrait depthCounter sampleProgram 6
              "walk_binary_expression" sampleTree (mkState 0 [7]))
    as [[[v' st'] tr]|] eqn:E; [|vm_compute in E; discriminate].
  exists v', st', tr. split; [reflexivity|].
  exact (stack_restored_after_walk (U := Sample.utils) (ancestorEnum sampleAncestors)
           sampleTrait depthCounter 8 sampleAnnotated sampleProgram 6
           "walk_binary_expression" sampleTree v' (mkState 0 [7]) st' tr G E).
Defined.

(** * What the walk generator needs from [generateAncestorsCode] *)

Section DefinedFacts.
Context {U : Utils}.

Lemma fieldCodeFor_defined field index code :
  fieldCodeFor field index = Ok code ->
  forallb defined code = fieldDefined field index.
Proof.
  intros H. pose proof (fieldCodeFor_shape field index) as Sh.
  destruct (shapeOf (snd (typeAndWrappers (Field.type field)))) as [shape|];
    [|destruct Sh as [m Sh]; congruence].
  rewrite Sh in H. inversion H; subst code. clear.
  unfold fieldDefined, retagCodeOf, fieldCodeOf.
  destruct (Field.offsetVarName field), (Field.ancestorDiscriminant field),
    shape, (Nat.eqb index 0); cbn; try reflexivity;
    destruct (String.eqb (fst (typeAndWrappers (Field.type field))) "Statement");
    reflexivity.
Qed.

Lemma fieldCodes_defined : forall fields index codes,
  mapIndexed fieldCodeFor index fields = Ok codes ->
  forallb defined (concat codes) = fieldsDefined index fields.
Proof.
  induction fields as [|f fields IH]; intros index codes H; simpl in H.
  - inversion H. reflexivity.
  - destruct (fieldCodeFor f index) as [c| |] eqn:E; simpl in H; try discriminate.
    destruct (mapIndexed fieldCodeFor (Datatypes.S index) fields) as [cs| |] eqn:E2;
      simpl in H; try discriminate.
    inversion H; subst codes. simpl.
    rewrite forallb_app, (IH _ _ E2), (fieldCodeFor_defined _ _ _ E). reflexivity.
Qed.

Lemma struct_body_defined type types fn :
  generateWalkForStruct type types = Ok fn ->
  forallb defined (fnBody fn) = fieldsDefined 0 (visitedFields type types).
Proof.
  unfold generateWalkForStruct. intros H.
  destruct (mapIndexed fieldCodeFor 0 (visitedFields type types)) as [codes| |] eqn:E;
    simpl in H; try discriminate.
  inversion H; subst fn. clear H. cbn [fnBody].
  apply fieldCodes_defined in E.
  destruct (visitedFields type types) as [|first rest].
  - cbn [forallb defined exprDefined andb]. rewrite forallb_app, E. reflexivity.
  - cbn [forallb defined exprDefined andb concat app].
    rewrite forallb_app, concat_app, forallb_app, E. cbn.
    rewrite !andb_true_r. reflexivity.
Qed.

Lemma fieldsDefined_Forall : forall fields index,
  fieldsDefined (Datatypes.S index) fields = true
  <-> Forall (fun f => Field.offsetVarName f <> None
                       /\ Field.ancestorDiscriminant f <> None) fields.
Proof.
  induction fields as [|f fields IH]; intros index; simpl.
  - split; auto.
  - unfold fieldDefined. cbn [Nat.eqb orb].
    rewrite andb_true_iff, andb_true_iff, IH, Forall_cons_iff.
    destruct (Field.offsetVarName f), (Field.ancestorDiscriminant f); simpl;
      intuition (discriminate || congruence).
Qed.

(** X15.  The walk function emitted for a struct interpolates no [undefined]
    exactly when every visited field carries the name of its offset constant
    and every visited field but the first carries a discriminant: the first
    visited field is pushed by name and needs none. *)
Theorem struct_walk_defined_iff (type : TypeDef) (types : Types) (fn : Function) :
  generateWalkForStruct type types = Ok fn ->
  (forallb defined (fnBody fn) = true
   <-> match visitedFields type types with
       | [] => True
       | first :: rest =>
           Field.offsetVarName first <> None
           /\ Forall (fun f => Field.offsetVarName f <> None
                               /\ Field.ancestorDiscriminant f <> None) rest
       end).
Proof.
  intros H. rewrite (struct_body_defined _ _ _ H).
  destruct (visitedFields type types) as [|first rest]; [simpl; tauto|].
  cbn [fieldsDefined]. rewrite andb_true_iff, fieldsDefined_Forall.
  unfold fieldDefined. cbn [Nat.eqb orb]. rewrite andb_true_r.
  destruct (Field.offsetVarName first); simpl;
    intuition (discriminate || congruence).
Qed.

Lemma numberFields_In types0 : forall fields d f',
  In f' (numberFields types0 d fields) ->
  exists f, In f fields
            /\ Field.type f' = Field.type f
            /\ Field.offsetVarName f' = Field.offsetVarName f
            /\ Field.innerTypeName f' = Field.innerTypeName f
            /\ (tagged types0 f = true -> Field.ancestorDiscriminant f' <> None).
Proof.
  induction fields as [|f fields IH]; intros d f' H; simpl in H; [destruct H|].
  destruct (tagged types0 f) eqn:T; destruct H as [<-|H].
  - exists f. simpl. repeat split; auto. discriminate.
  - destruct (IH _ _ H) as (f0 & A & B). exists f0. split; [right; exact A|exact B].
  - exists f. simpl. repeat split; auto. congruence.
  - destruct (IH _ _ H) as (f0 & A & B). exists f0. split; [right; exact A|exact B].
Qed.

Lemma numberTypes_In types0 : forall todo d name lt fields',
  In (struct name lt fields') (numberTypes types0 d todo) ->
  exists fields d',
    In (struct name lt fields) todo
    /\ fields' = numberFields types0 d' (withOffsets name fields).
Proof.
  induction todo as [|t todo IH]; intros d name lt fields' H; simpl in H; [destruct H|].
  destruct H as [H|H].
  - destruct t as [n l fs|]; [|discriminate]. inversion H; subst.
    exists fs, d. split; [left; reflexivity|reflexivity].
  - destruct (IH _ _ _ _ H) as (fs & d' & A & B). exists fs, d'. split; [right; exact A|exact B].
Qed.

(** X16.  Run on the catalogue that [generateAncestorsCode] has annotated, the
    walk generator interpolates no [undefined] into any emitted function,
    provided the inner type name of every field is the unwrapped name of its
    type: every field pointer names an offset constant and every retag a
    discriminant. *)
Theorem no_undefined_after_ancestors (types0 : Types) (fuel : nat)
    (program : list Function) :
  consistent types0 = true ->
  generateWalkFunctionsCode fuel (snd (generateAncestorsCode types0)) = Ok program ->
  forall fn, In fn program -> forallb defined (fnBody fn) = true.
Proof.
  intros C G fn Hfn.
  pose proof G as G'. unfold generateWalkFunctionsCode in G'.
  destruct (walkMethods fuel _ _) as [fns| |] eqn:E; simpl in G'; try discriminate.
  inversion G'; subst program. clear G'.
  apply in_app_or in Hfn. destruct Hfn as [Hfn|[<-|[]]]; [|reflexivity].
  apply walkMethods_Forall2 in E.
  destruct (Forall2_In_r _ _ _ _ E Hfn) as (type & HT & Gfn).
  destruct type as [name lt fields'|name lt variants inherits].
  - rewrite (struct_body_defined _ _ _ Gfn).
    assert (A : forall f', In f' (visitedFields (struct name lt fields')
                                    (snd (generateAncestorsCode types0))) ->
                           Field.offsetVarName f' <> None
                           /\ Field.ancestorDiscriminant f' <> None).
    { intros f' Hf'.
      destruct (annotated_catalogue types0 C name lt fields' f' HT Hf') as [[d Hd] _].
      split; [|congruence].
      revert HT. unfold generateAncestorsCode.
      destruct (ancestorsLoop types0 types0 initialState) as [types' st] eqn:EL.
      cbn [snd]. intros HT.
      apply ancestorsLoop_numbered in EL. destruct EL as (-> & _).
      destruct (numberTypes_In _ _ _ _ _ _ HT) as (fields & d' & _ & ->).
      unfold visitedFields in Hf'. apply filter_In in Hf'. destruct Hf' as [Hf' _].
      cbn [fieldsOf] in Hf'.
      destruct (numberFields_In _ _ _ _ Hf') as (f & Hf & _ & O & _).
      rewrite O. unfold withOffsets in Hf. apply in_map_iff in Hf.
      destruct Hf as (f0 & <- & _). discriminate. }
    clear - A. generalize 0 as index.
    induction (visitedFields (struct name lt fields') (snd (generateAncestorsCode types0)))
      as [|f fs IH]; intros index; [reflexivity|].
    cbn [fieldsDefined]. rewrite IH by (intros; apply A; right; assumption).
    destruct (A f (or_introl eq_refl)) as [A1 A2]. unfold fieldDefined.
    destruct (Field.offsetVarName f); [|contradiction].
    destruct (Field.ancestorDiscriminant f); [|contradiction].
    simpl. rewrite orb_true_r. reflexivity.
  - destruct (generateWalkForEnum_body _ _ _ _ Gfn) as (inherited & EA & _ & ->).
    cbn [fnBody forallb defined exprDefined andb]. rewrite andb_true_r.
    rewrite forallb_app. apply andb_true_iff. split.
    + apply forallb_forall. intros arm Ha. apply in_map_iff in Ha.
      destruct Ha as (v & <- & _). unfold ownArm.
      destruct (typeAndWrappers (Variant.type v)) as [n [|w ws]]; reflexivity.
    + apply inheritedArms_shape in EA. apply forallb_forall. intros arm Ha.
      destruct (Forall2_In_r _ _ _ _ EA Ha) as (base & _ & vm & m1 & m2 & _ & ->).
      reflexivity.
Qed.

End DefinedFacts.

(** * The events of a struct's walk under any visitor *)

Section DynamicOrder.
Context {U : Utils} {S : Type}.
Context (ancestor : list EnumVariant) (trait : list TraitMethod)
        (impl : string -> option (HookFn S)).

Section Callee.
Context (callFn : string -> Value -> State S -> option (Value * State S * list Event)).
Context (callFn_keeps : forall fn v st v' st' tr,
            callFn fn v st = Some (v', st', tr) -> stack st' = stack st /\ neutral tr).

Local Abbreviation step := (exec ancestor trait impl callFn).

Lemma fieldStmts_form shape T retag e :
  exists body,
    forallb calm body = true
    /\ match shape with
       | Opt | OptBox | OptVec =>
           fieldStmts shape T retag e = [IfLetSome "field" e (retag ++ body)]
       | _ => fieldStmts shape T retag e = retag ++ body
       end.
Proof.
  destruct shape; simpl;
    try (eexists; split; [|reflexivity]; reflexivity);
    destruct (String.eqb T "Statement");
    eexists; split; try reflexivity; reflexivity.
Qed.

Lemma shapeOf_optional ws shape :
  shapeOf ws = Some shape ->
  match shape with
  | Opt | OptBox | OptVec => firstIs ws "Option" = true
  | _ => True
  end.
Proof.
  destruct ws as [|w1 [|w2 [|w3 ws]]]; cbn [shapeOf firstIs]; intros H;
    repeat match type of H with
           | context [String.eqb ?a ?b] => destruct (String.eqb a b) eqn:?
           end;
    inversion H; subst; auto.
Qed.

Lemma retag_then_calm field index body env (st : State S) env' st' tr :
  forallb calm body = true ->
  runBlock step (retagCodeOf field index ++ body) env st = Some (env', st', tr) ->
  if Nat.eqb index 0 then neutral tr
  else exists d t,
         Field.ancestorDiscriminant field = Some d /\ neutral t /\ tr = EvRetag d :: t.
Proof.
  intros C H. unfold retagCodeOf in H. destruct (Nat.eqb index 0).
  - apply (block_keeps ancestor trait impl callFn callFn_keeps true body C) in H.
    apply H.
  - cbn [app runBlock] in H.
    destruct (Field.ancestorDiscriminant field) as [d|]; [|discriminate].
    cbn [exec] in H. destruct (retag_stack d st) as [st1|]; [|discriminate].
    destruct (runBlock step body env st1) as [[[e2 s2] t2]|] eqn:E; [|discriminate].
    inversion H; subst.
    apply (block_keeps ancestor trait impl callFn callFn_keeps true body C) in E.
    exists d, t2. split; [reflexivity|]. split; [apply E|reflexivity].
Qed.

Lemma field_trace field index code env (st : State S) env' st' tr :
  fieldCodeFor field index = Ok code ->
  runBlock step code env st = Some (env', st', tr) ->
  if Nat.eqb index 0 then neutral tr else retagged field tr.
Proof.
  intros HC H. pose proof (fieldCodeFor_shape field index) as Sh.
  destruct (shapeOf (snd (typeAndWrappers (Field.type field)))) as [shape|] eqn:ES;
    [|destruct Sh as [m Sh]; congruence].
  rewrite Sh in HC. inversion HC; subst code. clear HC Sh.
  apply shapeOf_optional in ES.
  destruct (fieldStmts_form shape (fst (typeAndWrappers (Field.type field)))
              (retagCodeOf field index) (fieldCodeOf field)) as (body & C & F).
  assert (R : forall env st env' st' tr,
             runBlock step (retagCodeOf field index ++ body) env st = Some (env', st', tr) ->
             if Nat.eqb index 0 then neutral tr else retagged field tr).
  { intros e0 s0 e1 s1 t0 H0. apply retag_then_calm in H0; [|exact C].
    destruct (Nat.eqb index 0); [exact H0|]. right. exact H0. }
  assert (O : firstIs (snd (typeAndWrappers (Field.type field))) "Option" = true ->
              runBlock step [IfLetSome "field" (fieldCodeOf field)
                               (retagCodeOf field index ++ body)] env st
              = Some (env', st', tr) ->
              if Nat.eqb index 0 then neutral tr else retagged field tr).
  { clear H. intros HO H. cbn [runBlock exec] in H.
    destruct (readPlace env (fieldCodeOf field)) as [[| | | |v| |]|]; try discriminate.
    - inversion H; subst. destruct (Nat.eqb index 0); [apply neutral_nil|].
      left. auto.
    - unfold scoped in H.
      destruct (runBlock step (retagCodeOf field index ++ body) (("field", v) :: env) st)
        as [[[[|[y w] e1] s1] t1]|] eqn:E; try discriminate.
      destruct (writePlace e1 (fieldCodeOf field) (SomeV w)); try discriminate.
      inversion H; subst. rewrite app_nil_r. eapply R; eauto. }
  destruct shape; rewrite F in H; try (eapply R; eauto; fail); apply O; auto.
Qed.

Lemma fields_trace : forall fields index codes env (st : State S) env' st' tr,
  mapIndexed fieldCodeFor (Datatypes.S index) fields = Ok codes ->
  runBlock step (concat codes) env st = Some (env', st', tr) ->
  exists parts, Forall2 retagged fields parts /\ tr = concat parts.
Proof.
  induction fields as [|f fields IH]; intros index codes env st env' st' tr HM H;
    simpl in HM.
  - inversion HM; subst. simpl in H. inversion H; subst. exists []. split; constructor.
  - destruct (fieldCodeFor f (Datatypes.S index)) as [c| |] eqn:E; simpl in HM;
      try discriminate.
    destruct (mapIndexed fieldCodeFor (Datatypes.S (Datatypes.S index)) fields)
      as [cs| |] eqn:E2; simpl in HM; try discriminate.
    inversion HM; subst codes. cbn [concat] in H.
    apply runBlock_split in H. destruct H as (e1 & s1 & t1 & t2 & H1 & H2 & ->).
    pose proof (field_trace _ _ _ _ _ _ _ _ E H1) as P. cbn [Nat.eqb] in P.
    destruct (IH _ _ _ _ _ _ _ E2 H2) as (parts & FP & ->).
    exists (t1 :: parts). split; [constructor; assumption|reflexivity].
Qed.



Lemma struct_body_form type types fn first rest :
  generateWalkForStruct type types = Ok fn ->
  visitedFields type types = first :: rest ->
  exists c1 cs,
    fieldCodeFor first 0 = Ok c1
    /\ mapIndexed fieldCodeFor 1 rest = Ok cs
    /\ fnBody fn
       = [Hook ("enter_" ++ camelToSnake (type_name type)) (Var "node")]
           ++ [PushStack (tagName (type_name type) first)
                 (type_name type ++ "Without" ++ snakeToCamel (Field.name first))]
           ++ ((c1 ++ concat cs) ++ [PopStack])
           ++ [Hook ("exit_" ++ camelToSnake (type_name type)) (Var "node")].
Proof.
  unfold generateWalkForStruct. intros G V. rewrite V in G.
  destruct (mapIndexed fieldCodeFor 0 (first :: rest)) as [codes| |] eqn:E;
    simpl in G; try discriminate.
  inversion G; subst fn. clear G. cbn [fnBody].
  cbn [mapIndexed] in E.
  destruct (fieldCodeFor first 0) as [c1| |] eqn:E1; cbn [bind] in E; try discriminate.
  destruct (mapIndexed fieldCodeFor 1 rest) as [cs| |] eqn:E2; cbn [bind] in E;
    try discriminate.
  inversion E; subst codes. clear E.
  exists c1, cs. split; [reflexivity|]. split; [reflexivity|].
  unfold tagName.
  cbn [concat app]. rewrite concat_app. cbn [concat app].
  rewrite <- !app_assoc. reflexivity.
Qed.

Lemma struct_body_trace type types fn first rest env (st : State S) env' st' tr :
  generateWalkForStruct type types = Ok fn ->
  visitedFields type types = first :: rest ->
  runBlock step (fnBody fn) env st = Some (env', st', tr) ->
  exists d1 t1 parts,
    discriminantOf ancestor (tagName (type_name type) first) = Some d1
    /\ neutral t1
    /\ Forall2 retagged rest parts
    /\ tr = EvHook ("enter_" ++ camelToSnake (type_name type))
              :: EvPush d1
              :: t1 ++ concat parts
              ++ [EvPop; EvHook ("exit_" ++ camelToSnake (type_name type))].
Proof.
  intros G V H.
  destruct (struct_body_form _ _ _ _ _ G V) as (c1 & cs & E1 & E2 & B).
  rewrite B in H. clear B.
  apply runBlock_split in H. destruct H as (ea & sa & ta & tb & Ha & H & ->).
  apply runBlock_split in H. destruct H as (eb & sb & tb' & tc & Hb & H & ->).
  apply runBlock_split in H. destruct H as (ec & sc & tc' & td & Hc & Hd & ->).
  apply runBlock_split in Hc. destruct Hc as (ec1 & sc1 & t1 & t2 & Hc & Hp & ->).
  apply runBlock_split in Hc. destruct Hc as (ef & sf & tf & tr' & Hf & Hr & ->).
  (* the hooks *)
  assert (HK : forall m env st env' st' tr,
             runBlock step [Hook m (Var "node")] env st = Some (env', st', tr) ->
             tr = [EvHook m]).
  { clear. intros m env st env' st' tr H. cbn [runBlock exec] in H.
    destruct (readPlace env (Var "node")) as [v|]; try discriminate.
    destruct (callHook trait impl m v st) as [[[v1 s1] t1]|] eqn:E; try discriminate.
    destruct (writePlace env (Var "node") v1); try discriminate.
    inversion H; subst. apply callHook_stack in E. destruct E as [_ ->]. reflexivity. }
  apply HK in Ha. apply HK in Hd. subst ta td.
  cbn [runBlock exec] in Hb.
  destruct (discriminantOf ancestor (tagName (type_name type) first))
    as [d1|] eqn:ED; try discriminate.
  inversion Hb; subst. clear Hb.
  cbn [runBlock exec] in Hp. destruct (pop_stack sc1) as [sp|]; try discriminate.
  inversion Hp; subst. clear Hp.
  pose proof (field_trace _ _ _ _ _ _ _ _ E1 Hf) as N1. cbn [Nat.eqb] in N1.
  destruct (fields_trace _ _ _ _ _ _ _ _ E2 Hr) as (parts & FP & ->).
  exists d1, tf, parts. split; [reflexivity|]. split; [exact N1|]. split; [exact FP|].
  cbn [app]. rewrite <- !app_assoc. reflexivity.
Qed.

End Callee.

(** X17.  The events of a call of the walk function emitted for a struct with
    visited fields, whatever the visitor does: the [enter] hook; the push of
    the tag of the first visited field; the events of the walk of that field,
    which leave the stack as deep as they found it; then for every further
    visited field, in declaration order, either nothing, when the field is an
    [Option] that holds nothing, or the retag to that field's discriminant
    followed by events that leave the stack as deep as they found it; then
    the pop and the [exit] hook. *)
Theorem struct_walk_events (gfuel : nat) (types : Types) (program : list Function)
    (type : TypeDef) (fn : Function) (first : Field.t) (rest : list Field.t)
    (fuel : nat) (v v' : Value) (st st' : State S) (tr : list Event) :
  generateWalkFunctionsCode gfuel types = Ok program ->
  generateWalkForStruct type types = Ok fn ->
  findFn (fnName fn) program = Some fn ->
  visitedFields type types = first :: rest ->
  call ancestor trait impl program fuel (fnName fn) v st = Some (v', st', tr) ->
  exists d1 t1 parts,
    discriminantOf ancestor (tagName (type_name type) first) = Some d1
    /\ neutral t1
    /\ Forall2 retagged rest parts
    /\ tr = EvHook ("enter_" ++ camelToSnake (type_name type))
              :: EvPush d1
              :: t1 ++ concat parts
              ++ [EvPop; EvHook ("exit_" ++ camelToSnake (type_name type))].
Proof.
  intros G GS FF V H. destruct fuel as [|fuel]; [discriminate|].
  cbn [call] in H. rewrite FF in H.
  unfold scoped in H.
  destruct (runBlock (exec ancestor trait impl (call ancestor trait impl program fuel))
              (fnBody fn) [(fnParam fn, v)] st)
    as [[[[|[y w] e1] s1] t1]|] eqn:E; try discriminate.
  inversion H; subst.
  eapply struct_body_trace; eauto.
  intros g a b c d e X. eapply call_keeps; [|exact X].
  eapply program_disciplined; eauto.
Qed.

End DynamicOrder.

(** * The properties above on the sample catalogues *)

Lemma walk_functions_signatures_witness :
  map signature sampleProgram
  = map (fun type => (("walk_" ++ camelToSnake (Utils := Sample.utils) (type_name type))%string,
                      "node", toTypeName (Utils := Sample.utils) type))
        sampleAnnotated
    ++ [("walk_statements", "stmts", "Vec<'a, Statement<'a>>")].
Proof.
  exact (walk_functions_signatures (U := Sample.utils) 8 sampleAnnotated sampleProgram
           (proj1 (proj2 (proj2 sample_generated)))).
Defined.

Lemma hooks_are_trait_methods_witness :
  flat_map (fun fn => map (fun method => mkTraitMethod method (fnParamType fn))
                          (hooksOf (fnBody fn)))
           sampleProgram
  = generateTraverseTraitCode (U := Sample.utils) sampleAnnotated.
Proof.
  exact (hooks_are_trait_methods (U := Sample.utils) 8 sampleAnnotated sampleProgram
           (proj1 (proj2 (proj2 sample_generated)))).
Defined.

Lemma calls_are_emitted_witness :
  generateWalkFunctionsCode (U := Sample.utils) 8 blockTypes = Ok blockProgram
  /\ In "walk_statements" (callsOf (fnBody (nth 0 blockProgram walk_statements)))
  /\ In "walk_statements" (map fnName blockProgram).
Proof.
  assert (G : generateWalkFunctionsCode (U := Sample.utils) 8 blockTypes = Ok blockProgram)
    by by_computation.
  assert (C : In "walk_statements" (callsOf (fnBody (nth 0 blockProgram walk_statements))))
    by (left; reflexivity).
  split; [exact G|]. split; [exact C|].
  apply (calls_are_emitted (U := Sample.utils) 8 blockTypes blockProgram
           (fun type field _ _ => eq_refl) eq_refl eq_refl G
           (nth 0 blockProgram walk_statements) "walk_statements").
  - left. reflexivity.
  - exact C.
Defined.

Lemma field_annotation_witness :
  exists fields',
    nth_error (snd (generateAncestorsCode (U := Sample.utils) Sample.types)) 0
    = Some (struct "BinaryExpression" true fields')
    /\ length fields' = 4
    /\ nth_error fields' 3
       = Some (Field.mk "right" "Expression" "right" "Expression" "Expression"
                 (Some "OFFSET_BINARY_EXPRESSION_RIGHT") (Some 2)).
Proof.
  destruct (field_annotation (U := Sample.utils) Sample.types 0 "BinaryExpression" true
              _ 3 _ eq_refl eq_refl) as (fields' & A & B & C).
  exists fields'. split; [exact A|]. split; [exact B|]. rewrite C. by_computation.
Defined.

Lemma tag_declared_at_discriminant_witness :
  nth_error (ancestorEnum sampleAncestors) 2
  = Some (mkEnumVariant "BinaryExpressionRight" "BinaryExpressionWithoutRight<'a>" 2).
Proof.
  destruct sample_generated as (E1 & _).
  pose proof (tag_declared_at_discriminant (U := Sample.utils) Sample.types 0
                "BinaryExpression" true _ 3 _ eq_refl eq_refl eq_refl) as H.
  rewrite E1 in H. exact H.
Defined.

Lemma struct_walk_defined_iff_witness :
  forallb defined (fnBody (nth 0 sampleProgram walk_statements)) = true
  <-> match visitedFields (U := Sample.utils) (nth 0 sampleAnnotated (struct "" false []))
              sampleAnnotated with
      | [] => True
      | first :: rest =>
          Field.offsetVarName first <> None
          /\ Forall (fun f => Field.offsetVarName f <> None
                              /\ Field.ancestorDiscriminant f <> None) rest
      end.
Proof.
  apply (struct_walk_defined_iff (U := Sample.utils)
           (nth 0 sampleAnnotated (struct "" false [])) sampleAnnotated
           (nth 0 sampleProgram walk_statements)).
  by_computation.
Defined.

Lemma no_undefined_after_ancestors_witness :
  forallb defined (fnBody (nth 0 sampleProgram walk_statements)) = true.
Proof.
  assert (C : consistent (U := Sample.utils) Sample.types = true) by by_computation.
  assert (G : generateWalkFunctionsCode (U := Sample.utils) 8
                (snd (generateAncestorsCode (U := Sample.utils) Sample.types))
              = Ok sampleProgram) by by_computation.
  apply (no_undefined_after_ancestors (U := Sample.utils) Sample.types 8 sampleProgram C G).
  left. reflexivity.
Defined.

Lemma struct_walk_events_witness :
  exists v' st' tr t1 parts,
    call (ancestorEnum sampleAncestors) sampleTrait depthCounter sampleProgram 6
         "walk_binary_expression" sampleTree (mkState 0 [])
    = Some (v', st', tr)
    /\ neutral t1
    /\ length parts = 1
    /\ tr = EvHook "enter_binary_expression"
              :: EvPush 1
              :: t1 ++ concat parts ++ [EvPop; EvHook "exit_binary_expression"].
Proof.
  destruct sample_generated as (_ & _ & G & _).
  destruct (call (ancestorEnum sampleAncestors) sampleTrait depthCounter sampleProgram 6
              "walk_binary_expression" sampleTree (mkState 0 []))
    as [[[v' st'] tr]|] eqn:E; [|vm_compute in E; discriminate].
  assert (V : exists first rest,
             visitedFields (U := Sample.utils) (nth 0 sampleAnnotated (struct "" false []))
               sampleAnnotated = first :: rest
             /\ length rest = 1
             /\ tagName (U := Sample.utils) "BinaryExpression" first = "BinaryExpressionLeft").
  { eexists. eexists. split; [by_computation|]. split; reflexivity. }
  destruct V as (first & rest & V & L & T).
  destruct (struct_walk_events (U := Sample.utils) (ancestorEnum sampleAncestors)
              sampleTrait depthCounter 8 sampleAnnotated sampleProgram
              (nth 0 sampleAnnotated (struct "" false []))
              (nth 0 sampleProgram walk_statements) first rest 6
              sampleTree v' (mkState 0 []) st' tr G)
    as (d1 & t1 & parts & D & N & F & ->); [by_computation|by_computation|exact V|exact E|].
  exists v', st'. eexists. exists t1, parts.
  split; [reflexivity|]. split; [exact N|]. split.
  - apply Forall2_length in F. congruence.
  - change (type_name (nth 0 sampleAnnotated (struct "" false []))) with "BinaryExpression" in *.
    rewrite T in D. vm_compute in D. inversion D; subst. reflexivity.
Defined.

(** * The earlier revision of walk.mjs against the later one *)

Section LegacyFacts.
Context {U : Utils}.

Lemma legacy_field (field : Field.t) (index : nat) :
  match fieldCodeFor field index with
  | Ok code => Legacy.fieldCodeFor field index = map embed code
  | AssertionError _ =>
      forallb Legacy.todoFree (Legacy.fieldCodeFor field index) = false
  | OutOfFuel => False
  end.
Proof.
  unfold fieldCodeFor, Legacy.fieldCodeFor.
  destruct (typeAndWrappers (Field.type field)) as [T ws].
  destruct (Nat.eqb index 0); destruct ws as [|w1 [|w2 [|w3 ws]]];
    cbn [firstIs tl length Nat.eqb Nat.ltb Nat.leb andb];
    repeat match goal with
           | |- context [String.eqb ?a ?b] => destruct (String.eqb a b)
           end;
    cbn; reflexivity.
Qed.

Lemma legacy_fields : forall (fields : list Field.t) (index : nat),
  match mapIndexed fieldCodeFor index fields with
  | Ok codes => Legacy.mapi Legacy.fieldCodeFor index fields = map (map embed) codes
  | AssertionError _ =>
      forallb Legacy.todoFree (concat (Legacy.mapi Legacy.fieldCodeFor index fields)) = false
  | OutOfFuel => False
  end.
Proof.
  induction fields as [|f fields IH]; intros index; simpl; [reflexivity|].
  pose proof (legacy_field f index) as F. specialize (IH (Datatypes.S index)).
  destruct (fieldCodeFor f index) as [c|m|]; simpl; [|rewrite forallb_app, F; reflexivity|exact F].
  destruct (mapIndexed fieldCodeFor (Datatypes.S index) fields) as [cs|m|]; simpl.
  - rewrite F, IH. reflexivity.
  - rewrite forallb_app, IH. apply andb_false_r.
  - exact IH.
Qed.

Lemma legacy_struct (type : TypeDef) (types : Types) :
  match generateWalkForStruct type types with
  | Ok fn => Legacy.walkForStruct type types = embedFunction fn
  | AssertionError _ =>
      forallb Legacy.todoFree (Legacy.fnBody (Legacy.walkForStruct type types)) = false
  | OutOfFuel => False
  end.
Proof.
  unfold generateWalkForStruct, Legacy.walkForStruct.
  pose proof (legacy_fields (visitedFields type types) 0) as F.
  destruct (mapIndexed fieldCodeFor 0 (visitedFields type types)) as [codes|m|]; simpl;
    [| |exact F].
  - rewrite F. unfold embedFunction. cbn [fnName fnParam fnParamType fnBody].
    f_equal. cbn [map embed]. f_equal.
    rewrite map_app. cbn [map embed]. f_equal.
    destruct (visitedFields type types) as [|first rest].
    + rewrite concat_map. reflexivity.
    + cbn [concat app map embed]. f_equal.
      rewrite !concat_app, map_app, concat_map. reflexivity.
  - destruct (visitedFields type types) as [|first rest].
    + rewrite forallb_app, F. reflexivity.
    + cbn [concat app forallb Legacy.todoFree andb].
      rewrite forallb_app, concat_app, forallb_app, F. reflexivity.
Qed.

Lemma legacy_variant (type : TypeDef) (types : Types) (variant : Variant.t) (index : nat) :
  match variantCodeFor type types variant index with
  | Ok arm => Legacy.variantCodeFor type types variant = embedArm arm
  | AssertionError _ =>
      exists message,
        Legacy.armBody (Legacy.variantCodeFor type types variant) = Legacy.ArmTodo message
  | OutOfFuel => False
  end.
Proof.
  unfold variantCodeFor, Legacy.variantCodeFor.
  destruct (typeAndWrappers (Variant.type variant)) as [T ws].
  destruct (lookup types T) as [t|]; destruct ws as [|w1 [|w2 ws]];
    cbn [firstIs length Nat.eqb andb assert bind];
    repeat match goal with
           | |- context [String.eqb ?a ?b] => destruct (String.eqb a b)
           end;
    cbn; try reflexivity; eexists; reflexivity.
Qed.

Lemma legacy_variants (type : TypeDef) (types : Types) :
  forall (variants : list Variant.t) (index : nat),
    match mapIndexed (variantCodeFor type types) index variants with
    | Ok arms => map (Legacy.variantCodeFor type types) variants = map embedArm arms
    | AssertionError _ =>
        forallb Legacy.armComplete (map (Legacy.variantCodeFor type types) variants) = false
    | OutOfFuel => False
    end.
Proof.
  induction variants as [|v variants IH]; intros index; simpl; [reflexivity|].
  pose proof (legacy_variant type types v index) as F. specialize (IH (Datatypes.S index)).
  destruct (variantCodeFor type types v index) as [a|m|]; simpl; [| |exact F].
  - destruct (mapIndexed (variantCodeFor type types) (Datatypes.S index) variants)
      as [arms|m|]; simpl.
    + rewrite F, IH. reflexivity.
    + rewrite IH. apply andb_false_r.
    + exact IH.
  - destruct F as [message F]. unfold Legacy.armComplete at 1. rewrite F. reflexivity.
Qed.

Lemma legacy_inheritedArms (fuel : nat) (types : Types) (typeName : string) :
  forall (inherits : list string) (missing : list string),
    Legacy.inheritedArms fuel types typeName inherits missing
    = match inheritedArms fuel types typeName inherits missing with
      | Ok (arms, missing') => Ok (map embedArm arms, missing')
      | AssertionError message => AssertionError message
      | OutOfFuel => OutOfFuel
      end.
Proof.
  induction inherits as [|base inherits IH]; intros missing; simpl; [reflexivity|].
  destruct (inheritedLoop fuel types typeName [base] [] missing) as [[vm miss1]|m|];
    simpl; try reflexivity.
  rewrite IH.
  destruct (inheritedArms fuel types typeName inherits miss1) as [[arms miss2]|m|];
    reflexivity.
Qed.

Lemma embedArm_complete (arms : list Arm) :
  forallb Legacy.armComplete (map embedArm arms) = true.
Proof. induction arms as [|a arms IH]; simpl; auto. Qed.

Lemma embed_todoFree : forall s, Legacy.todoFree (embed s) = true.
Proof.
  induction s as [m a|v sn|d| |f a|x e body IHb|x e fl body IHb|e arms]
    using Stmt_nested_ind; cbn [embed Legacy.todoFree]; try reflexivity.
  - apply forallb_forall. intros s Hs. apply in_map_iff in Hs.
    destruct Hs as (s0 & <- & Hs0). rewrite Forall_forall in IHb. apply IHb, Hs0.
  - apply forallb_forall. intros s Hs. apply in_map_iff in Hs.
    destruct Hs as (s0 & <- & Hs0). rewrite Forall_forall in IHb. apply IHb, Hs0.
  - apply embedArm_complete.
Qed.

Lemma embedFunction_complete (program : list Function) :
  Legacy.complete (map embedFunction program) = true.
Proof.
  unfold Legacy.complete. apply forallb_forall. intros lfn H.
  apply in_map_iff in H. destruct H as (fn & <- & _).
  cbn [embedFunction Legacy.fnBody]. apply forallb_forall. intros s Hs.
  apply in_map_iff in Hs. destruct Hs as (s0 & <- & _). apply embed_todoFree.
Qed.

Lemma inheritedLoop_asserts_nothing types typeName :
  forall fuel pending matches missing message,
    inheritedLoop fuel types typeName pending matches missing <> AssertionError message.
Proof.
  induction fuel as [|fuel IH]; intros pending matches missing message;
    destruct pending as [|n0 pending]; simpl; try discriminate.
  destruct (lookup types n0) as [[? ? ?|? ? ? ?]|]; apply IH.
Qed.

Lemma inheritedArms_asserts_nothing fuel types typeName :
  forall inherits missing message,
    inheritedArms fuel types typeName inherits missing <> AssertionError message.
Proof.
  induction inherits as [|base inherits IH]; intros missing message; simpl;
    [discriminate|].
  pose proof (inheritedLoop_asserts_nothing types typeName fuel [base] [] missing) as L.
  destruct (inheritedLoop fuel types typeName [base] [] missing) as [[vm miss1]|m|];
    simpl; [|intros X; apply (L m); reflexivity|discriminate].
  specialize (IH miss1).
  destruct (inheritedArms fuel types typeName inherits miss1) as [[arms miss2]|m|];
    simpl; [discriminate|intros X; apply (IH m); reflexivity|discriminate].
Qed.

(** How the two revisions compare on one enum. *)
Lemma legacy_enum (fuel : nat) (type : TypeDef) (types : Types) :
  match generateWalkForEnum fuel type types with
  | Ok fn => Legacy.walkForEnum fuel type types = Ok (embedFunction fn)
  | AssertionError _ =>
      match Legacy.walkForEnum fuel type types with
      | Ok lfn => forallb Legacy.todoFree (Legacy.fnBody lfn) = false
      | AssertionError _ => False
      | OutOfFuel => True
      end
  | OutOfFuel => Legacy.walkForEnum fuel type types = OutOfFuel
  end.
Proof.
  unfold generateWalkForEnum, Legacy.walkForEnum.
  pose proof (legacy_variants type types (variantsOf type) 0) as V.
  rewrite legacy_inheritedArms.
  destruct (mapIndexed (variantCodeFor type types) 0 (variantsOf type)) as [codes|m|];
    simpl; [| |destruct V].
  - pose proof (inheritedArms_asserts_nothing fuel types (type_name type)
                  (inheritsOf type) []) as NA.
    destruct (inheritedArms fuel types (type_name type) (inheritsOf type) [])
      as [[arms missing]|m|]; simpl; try reflexivity; [|apply (NA m); reflexivity].
    destruct missing as [|x missing]; simpl.
    + rewrite V. unfold embedFunction. simpl. rewrite map_app. reflexivity.
    + rewrite andb_true_r, forallb_app. simpl. apply andb_false_r.
  - pose proof (inheritedArms_asserts_nothing fuel types (type_name type)
                  (inheritsOf type) []) as NA.
    destruct (inheritedArms fuel types (type_name type) (inheritsOf type) [])
      as [[arms missing]|m'|]; simpl; auto; [|apply (NA m'); reflexivity].
    rewrite andb_true_r.
    destruct (Nat.ltb 0 (length missing)); rewrite !forallb_app, V; reflexivity.
Qed.

(** How the two revisions compare on a catalogue. *)
Lemma legacy_walkMethods (fuel : nat) (types : Types) : forall todo,
  match walkMethods fuel todo types with
  | Ok fns => Legacy.walkMethods fuel todo types = Ok (map embedFunction fns)
  | AssertionError _ =>
      match Legacy.walkMethods fuel todo types with
      | Ok lfns => Legacy.complete lfns = false
      | AssertionError _ => False
      | OutOfFuel => True
      end
  | OutOfFuel => Legacy.walkMethods fuel todo types = OutOfFuel
  end.
Proof.
  induction todo as [|type todo IH]; [reflexivity|].
  cbn [walkMethods Legacy.walkMethods].
  assert (F : match (match type with
                     | struct _ _ _ => generateWalkForStruct type types
                     | enum _ _ _ _ => generateWalkForEnum fuel type types
                     end) with
              | Ok fn =>
                  match type with
                  | struct _ _ _ => Ok (Legacy.walkForStruct type types)
                  | enum _ _ _ _ => Legacy.walkForEnum fuel type types
                  end = Ok (embedFunction fn)
              | AssertionError _ =>
                  match (match type with
                         | struct _ _ _ => Ok (Legacy.walkForStruct type types)
                         | enum _ _ _ _ => Legacy.walkForEnum fuel type types
                         end) with
                  | Ok lfn => forallb Legacy.todoFree (Legacy.fnBody lfn) = false
                  | AssertionError _ => False
                  | OutOfFuel => True
                  end
              | OutOfFuel =>
                  match type with
                  | struct _ _ _ => Ok (Legacy.walkForStruct type types)
                  | enum _ _ _ _ => Legacy.walkForEnum fuel type types
                  end = OutOfFuel
              end).
  { destruct type as [name lt fields|name lt variants inherits].
    - pose proof (legacy_struct (struct name lt fields) types) as F.
      destruct (generateWalkForStruct (struct name lt fields) types);
        [rewrite F; reflexivity|exact F|destruct F].
    - apply legacy_enum. }
  destruct (match type with
            | struct _ _ _ => generateWalkForStruct type types
            | enum _ _ _ _ => generateWalkForEnum fuel type types
            end) as [fn|m|]; cbn [bind].
  - rewrite F. cbn [bind].
    destruct (walkMethods fuel todo types) as [fns|m|]; cbn [bind].
    + rewrite IH. reflexivity.
    + destruct (Legacy.walkMethods fuel todo types) as [lfns|m'|]; cbn [bind]; auto.
      unfold Legacy.complete in *. cbn [forallb]. rewrite IH. apply andb_false_r.
    + rewrite IH. reflexivity.
  - destruct (match type with
              | struct _ _ _ => Ok (Legacy.walkForStruct type types)
              | enum _ _ _ _ => Legacy.walkForEnum fuel type types
              end) as [lfn|m'|]; cbn [bind]; auto.
    destruct (Legacy.walkMethods fuel todo types) as [lfns|m'|] eqn:EL; cbn [bind]; auto.
    + unfold Legacy.complete. cbn [forallb]. rewrite F. reflexivity.
    + destruct (walkMethods fuel todo types); try contradiction; discriminate.
  - rewrite F. reflexivity.
Qed.

(** X18.  Where the later revision of the walk generator returns a program,
    the earlier revision, run on the same catalogue, returns the same program:
    the same functions in the same order with the same bodies, and no
    [todo!]. *)
Theorem legacy_revision_agrees (fuel : nat) (types : Types) (program : list Function) :
  generateWalkFunctionsCode fuel types = Ok program ->
  Legacy.generateWalkFunctionsCode fuel types = Ok (map embedFunction program).
Proof.
  unfold generateWalkFunctionsCode, Legacy.generateWalkFunctionsCode. intros H.
  pose proof (legacy_walkMethods fuel types types) as L.
  destruct (walkMethods fuel types types) as [fns|m|]; simpl in H; try discriminate.
  inversion H; subst program. rewrite L. cbn [bind]. rewrite map_app. reflexivity.
Qed.

(** X19.  The program the earlier revision returns is free of [todo!] exactly
    when the later revision returns a program for the same catalogue: the
    earlier revision writes a [todo!] into the emitted code in every case in
    which the later one fails an assertion, and only then. *)
Theorem legacy_todo_iff_assertion (fuel : nat) (types : Types)
    (legacy : list Legacy.Function) :
  Legacy.generateWalkFunctionsCode fuel types = Ok legacy ->
  (Legacy.complete legacy = true
   <-> exists program, generateWalkFunctionsCode fuel types = Ok program).
Proof.
  unfold generateWalkFunctionsCode, Legacy.generateWalkFunctionsCode. intros H.
  pose proof (legacy_walkMethods fuel types types) as L.
  destruct (Legacy.walkMethods fuel types types) as [lfns|m|] eqn:EL; simpl in H;
    try discriminate.
  inversion H; subst legacy. clear H.
  assert (C : Legacy.complete (lfns ++ [Legacy.walk_statements]) = Legacy.complete lfns).
  { unfold Legacy.complete. rewrite forallb_app. simpl. apply andb_true_r. }
  rewrite C. destruct (walkMethods fuel types types) as [fns|m|]; simpl.
  - inversion L; subst. rewrite embedFunction_complete. split; eauto.
  - rewrite L. split; [discriminate|]. intros [program X]. discriminate.
  - discriminate.
Qed.

Lemma legacy_walkMethods_Forall2 fuel types : forall todo lfns,
  Legacy.walkMethods fuel todo types = Ok lfns ->
  Forall2 (fun type lfn =>
             match type with
             | struct _ _ _ => Ok (Legacy.walkForStruct type types)
             | enum _ _ _ _ => Legacy.walkForEnum fuel type types
             end = Ok lfn)
          todo lfns.
Proof.
  induction todo as [|type todo IH]; intros lfns H; simpl in H.
  - inversion H. constructor.
  - match type of H with bind ?r _ = _ => destruct r as [f| |] eqn:E end;
      simpl in H; try discriminate.
    destruct (Legacy.walkMethods fuel todo types) as [fs| |] eqn:E2; simpl in H;
      try discriminate.
    inversion H; subst. constructor; auto.
Qed.

Lemma inheritedArms_finite types typeName fuel : forall inherits missing r,
  inheritedArms fuel types typeName inherits missing = Ok r ->
  forall base, In base inherits -> finiteInherits types base.
Proof.
  induction inherits as [|b inherits IH]; intros missing r H base HIn; [destruct HIn|].
  simpl in H.
  destruct (inheritedLoop fuel types typeName [b] [] missing) as [[vm miss1]|m|] eqn:E1;
    simpl in H; try discriminate.
  destruct (inheritedArms fuel types typeName inherits miss1) as [[arms miss2]|m|] eqn:E2;
    simpl in H; try discriminate.
  destruct HIn as [<-|HIn].
  - eapply inheritedLoop_finite; [exact E1|left; reflexivity].
  - eapply IH; eauto.
Qed.

Lemma inheritedArms_returns types typeName : forall inherits,
  (forall base, In base inherits -> finiteInherits types base) ->
  exists fuel, forall fuel' missing,
    fuel <= fuel' ->
    exists r, inheritedArms fuel' types typeName inherits missing = Ok r.
Proof.
  induction inherits as [|b inherits IH]; intros F.
  - exists 0. intros fuel' missing _. eexists; reflexivity.
  - destruct IH as [fuel2 IH]; [intros; apply F; right; assumption|].
    destruct (finiteInherits_sized _ _ (F b (or_introl eq_refl))) as [k Hk].
    exists (k + fuel2). intros fuel' missing Hle. simpl.
    destruct (inheritedLoop_enough types typeName fuel' [b] [k] [] missing)
      as [[vm miss1] E1]; [constructor; [exact Hk|constructor]|simpl; lia|].
    rewrite E1. simpl.
    destruct (IH fuel' miss1) as [[arms miss2] E2]; [lia|].
    rewrite E2. simpl. eexists; reflexivity.
Qed.

(** X20.  The earlier revision returns a program, given enough loop
    iterations, exactly when no enum of the catalogue inherits through a
    cycle, whatever else the catalogue holds. *)
Theorem legacy_revision_returns_iff (types : Types) :
  (exists fuel legacy, Legacy.generateWalkFunctionsCode fuel types = Ok legacy)
  <-> forall type base,
        In type types -> In base (inheritsOf type) -> finiteInherits types base.
Proof.
  unfold Legacy.generateWalkFunctionsCode. split.
  - intros (fuel & legacy & H) type base HT HB.
    destruct (Legacy.walkMethods fuel types types) as [lfns|m|] eqn:EL; simpl in H;
      try discriminate.
    apply legacy_walkMethods_Forall2 in EL.
    destruct (Forall2_In_l _ _ _ _ EL HT) as (lfn & _ & G).
    destruct type as [name lt fields|name lt variants inherits]; [destruct HB|].
    unfold Legacy.walkForEnum in G. rewrite legacy_inheritedArms in G.
    cbn [type_name inheritsOf] in *.
    destruct (inheritedArms fuel types name inherits []) as [[arms missing]|m|] eqn:EA;
      simpl in G; try discriminate.
    eapply inheritedArms_finite; eauto.
  - intros F.
    assert (X : forall todo,
               (forall type, In type todo -> In type types) ->
               exists fuel, forall fuel', fuel <= fuel' ->
                 exists lfns, Legacy.walkMethods fuel' todo types = Ok lfns).
    { induction todo as [|type todo IH]; intros Sub.
      - exists 0. intros fuel' _. eexists; reflexivity.
      - destruct IH as [fuel2 IH]; [intros; apply Sub; right; assumption|].
        destruct (inheritedArms_returns types (type_name type) (inheritsOf type))
          as [fuel1 A]; [intros base; apply F, Sub; left; reflexivity|].
        exists (fuel1 + fuel2). intros fuel' Hle. cbn [Legacy.walkMethods].
        destruct (IH fuel') as [lfns E2]; [lia|]. rewrite E2.
        destruct type as [name lt fields|name lt variants inherits]; cbn [bind].
        + eexists; reflexivity.
        + unfold Legacy.walkForEnum. rewrite legacy_inheritedArms.
          destruct (A fuel' []) as [[arms missing] EA]; [lia|].
          cbn [type_name inheritsOf] in EA. cbn [type_name inheritsOf].
          rewrite EA. cbn [bind]. eexists; reflexivity. }
    destruct (X types (fun _ H => H)) as [fuel Hf].
    destruct (Hf fuel (Nat.le_refl _)) as [lfns E].
    exists fuel. rewrite E. cbn [bind]. eexists; reflexivity.
Qed.

End LegacyFacts.

(** * When the emitted names are distinct *)

Section NameFacts.
Context {U : Utils}.

Lemma distinct_NoDup (l : list string) : distinct l = true <-> NoDup l.
Proof.
  induction l as [|x l IH]; simpl.
  - split; [constructor|reflexivity].
  - rewrite andb_true_iff, negb_true_iff, IH. split.
    + intros [N D]. constructor; [|exact D]. intros HIn.
      assert (X : existsb (String.eqb x) l = true).
      { apply existsb_exists. exists x. split; [exact HIn|apply String.eqb_refl]. }
      congruence.
    + intros D. inversion D as [|? ? N D']; subst. split; [|exact D'].
      destruct (existsb (String.eqb x) l) eqn:E; [|reflexivity].
      apply existsb_exists in E. destruct E as (y & Hy & Ey).
      apply String.eqb_eq in Ey. subst. contradiction.
Qed.

Lemma append_injective (p a b : string) : (p ++ a = p ++ b)%string -> a = b.
Proof. induction p as [|c p IH]; simpl; intros H; [exact H|]. inversion H. auto. Qed.

Lemma NoDup_prefixed (p : string) (l : list string) :
  NoDup (map (String.append p) l) <-> NoDup l.
Proof.
  induction l as [|x l IH]; simpl; [split; constructor|].
  rewrite !NoDup_cons_iff, IH, in_map_iff. split; intros [N D]; split; auto.
  - intros HIn. apply N. exists x. auto.
  - intros (y & E & HIn). apply append_injective in E. subst. contradiction.
Qed.

Lemma walkMethods_names fuel types : forall todo fns,
  walkMethods fuel todo types = Ok fns ->
  map fnName fns
  = map (String.append "walk_") (map (fun type => camelToSnake (type_name type)) todo).
Proof.
  intros todo fns H. apply walkMethods_shape in H.
  induction H as [|type fn todo fns [A _] _ IH]; [reflexivity|].
  cbn [map]. rewrite IH. unfold signature in A. inversion A as [[A1 A2 A3]].
  rewrite A1. reflexivity.
Qed.

(** X21.  The names of the emitted walk functions are pairwise distinct
    exactly when the snake-case names of the catalogued types are pairwise
    distinct and none of them is [statements], the name taken by
    [walk_statements]. *)
Theorem walk_names_distinct_iff (fuel : nat) (types : Types) (program : list Function) :
  generateWalkFunctionsCode fuel types = Ok program ->
  (distinct (map fnName program) = true
   <-> NoDup (map (fun type => camelToSnake (type_name type)) types)
       /\ ~ In "statements" (map (fun type => camelToSnake (type_name type)) types)).
Proof.
  unfold generateWalkFunctionsCode. intros H.
  destruct (walkMethods fuel types types) as [fns| |] eqn:E; simpl in H; try discriminate.
  inversion H; subst program. clear H.
  rewrite distinct_NoDup, map_app, (walkMethods_names _ _ _ _ E).
  change (map fnName [walk_statements])
    with (map (String.append "walk_") ["statements"]).
  rewrite <- map_app, NoDup_prefixed.
  set (names := map (fun type => camelToSnake (type_name type)) types).
  split.
  - intros D. apply NoDup_remove in D. rewrite app_nil_r in D. exact D.
  - intros [D N]. apply NoDup_app; [exact D|repeat constructor; auto| ].
    intros a Ha [<-|[]]. contradiction.
Qed.

(** X22.  On the catalogue annotated by [generateAncestorsCode], and when the
    inner type name of every field is the unwrapped name of its type, the
    fields of a struct that the walk generator visits are exactly the fields
    that [generateAncestorsCode] tagged, in the same order: every push and
    retag emitted by the one is for a tag declared by the other. *)
Theorem visited_fields_are_tagged (types0 : Types) (name : string) (lt : bool)
    (fields' : list Field.t) :
  consistent types0 = true ->
  In (struct name lt fields') (snd (generateAncestorsCode types0)) ->
  visitedFields (struct name lt fields') (snd (generateAncestorsCode types0))
  = filter (tagged types0) fields'.
Proof.
  intros C. unfold generateAncestorsCode.
  destruct (ancestorsLoop types0 types0 initialState) as [types' st] eqn:EL.
  cbn [snd]. intros HT.
  pose proof (ancestorsLoop_annotated _ _ _ _ _ EL) as A.
  pose proof (lookup_annotated _ _ _ _ A) as LK.
  apply ancestorsLoop_numbered in EL. destruct EL as (-> & _).
  destruct (numberTypes_In _ _ _ _ _ _ HT) as (fields & d' & HT0 & ->).
  unfold visitedFields. cbn [fieldsOf]. apply filter_ext_in. intros f' Hf'.
  destruct (numberFields_In _ _ _ _ Hf') as (f1 & Hf1 & Ty & _ & In1 & _).
  unfold withOffsets in Hf1. apply in_map_iff in Hf1. destruct Hf1 as (f & <- & Hf).
  cbn [Field.type Field.innerTypeName Field.set_offsetVarName] in Ty, In1.
  rewrite LK, Ty. unfold tagged. rewrite In1.
  rewrite (consistent_In _ _ _ C HT0 Hf). reflexivity.
Qed.

End NameFacts.

Lemma walk_names_distinct_iff_witness :
  distinct (map fnName sampleProgram) = true
  <-> NoDup (map (fun type => camelToSnake (Utils := Sample.utils) (type_name type))
                 sampleAnnotated)
      /\ ~ In "statements"
              (map (fun type => camelToSnake (Utils := Sample.utils) (type_name type))
                   sampleAnnotated).
Proof.
  exact (walk_names_distinct_iff (U := Sample.utils) 8 sampleAnnotated sampleProgram
           (proj1 (proj2 (proj2 sample_generated)))).
Defined.

Lemma visited_fields_are_tagged_witness :
  visitedFields (U := Sample.utils)
    (struct "BinaryExpression" true
       (fieldsOf (nth 0 sampleAnnotated (struct "" false []))))
    (snd (generateAncestorsCode (U := Sample.utils) Sample.types))
  = filter (tagged Sample.types) (fieldsOf (nth 0 sampleAnnotated (struct "" false []))).
Proof.
  apply (visited_fields_are_tagged (U := Sample.utils) Sample.types
           "BinaryExpression" true
           (fieldsOf (nth 0 sampleAnnotated (struct "" false [])))).
  - by_computation.
  - destruct sample_generated as (_ & E2 & _). rewrite E2. left. reflexivity.
Defined.

Lemma legacy_revision_agrees_witness :
  Legacy.generateWalkFunctionsCode (U := Sample.utils) 8 sampleAnnotated
  = Ok (map embedFunction sampleProgram).
Proof.
  exact (legacy_revision_agrees (U := Sample.utils) 8 sampleAnnotated sampleProgram
           (proj1 (proj2 (proj2 sample_generated)))).
Defined.

Lemma legacy_todo_iff_assertion_witness :
  exists legacy,
    Legacy.generateWalkFunctionsCode (U := Sample.utils) 8 boxedElementsTypes = Ok legacy
    /\ Legacy.complete legacy = false
    /\ (Legacy.complete legacy = true
        <-> exists program,
              generateWalkFunctionsCode (U := Sample.utils) 8 boxedElementsTypes
              = Ok program).
Proof.
  destruct (Legacy.generateWalkFunctionsCode (U := Sample.utils) 8 boxedElementsTypes)
    as [legacy|m|] eqn:E; [|vm_compute in E; discriminate|vm_compute in E; discriminate].
  exists legacy. split; [reflexivity|]. split.
  - vm_compute in E. inversion E; subst. by_computation.
  - exact (legacy_todo_iff_assertion (U := Sample.utils) 8 boxedElementsTypes legacy E).
Defined.

(** * What a failed assertion reports *)

Section ErrorFacts.
Context {U : Utils}.

Lemma fieldCodeFor_message (field : Field.t) (index : nat) (message : string) :
  fieldCodeFor field index = AssertionError message ->
  shapeOf (snd (typeAndWrappers (Field.type field))) = None
  /\ (message = ("Cannot handle struct field with type " ++ Field.type field)%string
      \/ message = ("Cannot handle struct field with type: " ++ Field.type field)%string).
Proof.
  intros H. pose proof (fieldCodeFor_shape field index) as Sh.
  destruct (shapeOf (snd (typeAndWrappers (Field.type field)))) as [shape|];
    [congruence|].
  split; [reflexivity|]. clear Sh. revert H. unfold fieldCodeFor.
  destruct (typeAndWrappers (Field.type field)) as [T ws].
  destruct ws as [|w1 [|w2 [|w3 ws]]];
    cbn [firstIs tl length Nat.eqb andb assert bind];
    repeat match goal with
           | |- context [String.eqb ?a ?b] => destruct (String.eqb a b)
           end;
    cbn [assert bind andb]; intros H; inversion H; auto.
Qed.

Lemma mapIndexed_first_failure {A B : Type} (f : A -> nat -> Result B) :
  forall l index message,
    mapIndexed f index l = AssertionError message ->
    exists before x after ys,
      l = before ++ x :: after
      /\ mapIndexed f index before = Ok ys
      /\ f x (index + length before) = AssertionError message.
Proof.
  induction l as [|x0 l IH]; intros index message H; simpl in H; [discriminate|].
  destruct (f x0 index) as [y|m|] eqn:E; simpl in H; try discriminate.
  - destruct (mapIndexed f (Datatypes.S index) l) as [ys|m|] eqn:E2; simpl in H;
      try discriminate.
    inversion H; subst m.
    destruct (IH _ _ E2) as (before & x & after & ys & -> & Hb & F).
    exists (x0 :: before), x, after, (y :: ys). split; [reflexivity|]. split.
    + simpl. rewrite E, Hb. reflexivity.
    + simpl. rewrite <- F. f_equal. lia.
  - inversion H; subst m.
    exists [], x0, l, []. split; [reflexivity|]. split; [reflexivity|].
    simpl. rewrite Nat.add_0_r. exact E.
Qed.

(** X23.  When [generateWalkForStruct] fails, the message of the assertion
    names the type of the first visited field, in declaration order, whose
    wrapper chain is not supported; the visited fields before it are all
    supported. *)
Theorem struct_walk_error (type : TypeDef) (types : Types) (message : string) :
  generateWalkForStruct type types = AssertionError message ->
  exists before field after,
    visitedFields type types = before ++ field :: after
    /\ (forall f, In f before ->
          In (snd (typeAndWrappers (Field.type f))) supportedChains)
    /\ ~ In (snd (typeAndWrappers (Field.type field))) supportedChains
    /\ (message = ("Cannot handle struct field with type " ++ Field.type field)%string
        \/ message = ("Cannot handle struct field with type: " ++ Field.type field)%string).
Proof.
  unfold generateWalkForStruct. intros H.
  destruct (mapIndexed fieldCodeFor 0 (visitedFields type types)) as [codes|m|] eqn:E;
    simpl in H; try discriminate.
  inversion H; subst m. clear H.
  destruct (mapIndexed_first_failure _ _ _ _ E) as (before & field & after & ys & V & B & F).
  exists before, field, after. split; [exact V|].
  apply fieldCodeFor_message in F. destruct F as [F1 F2].
  split; [|split; [|exact F2]].
  - intros f Hf. apply shapeOf_supported. intros HS.
    apply mapIndexed_each with (x := f) in B; [|exact Hf].
    destruct B as (i & y & B).
    pose proof (fieldCodeFor_shape f i) as Sh. rewrite HS in Sh.
    destruct Sh as [m Sh]. congruence.
  - intros HIn. apply shapeOf_supported in HIn. contradiction.
Qed.






Lemma walkMethods_first_failure fuel types : forall todo message,
  walkMethods fuel todo types = AssertionError message ->
  exists before type after fns,
    todo = before ++ type :: after
    /\ walkMethods fuel before types = Ok fns
    /\ match type with
       | struct _ _ _ => generateWalkForStruct type types
       | enum _ _ _ _ => generateWalkForEnum fuel type types
       end = AssertionError message.
Proof.
  induction todo as [|t todo IH]; intros message H; simpl in H; [discriminate|].
  match type of H with bind ?r _ = _ => destruct r as [f|m|] eqn:E end;
    simpl in H; try discriminate.
  - destruct (walkMethods fuel todo types) as [fs|m|] eqn:E2; simpl in H;
      try discriminate.
    inversion H; subst m.
    destruct (IH _ eq_refl) as (before & type & after & fns & -> & B & F).
    exists (t :: before), type, after, (f :: fns). split; [reflexivity|].
    split; [|exact F]. simpl. rewrite E, B. reflexivity.
  - inversion H; subst m. exists [], t, todo, []. auto.
Qed.

(** X25.  When [generateWalkFunctionsCode] fails an assertion, the failure is
    that of the first catalogued type, in catalogue order, for which the
    generation of the walk function fails; for the types before it the
    generation succeeds. *)
Theorem walk_code_error (fuel : nat) (types : Types) (message : string) :
  generateWalkFunctionsCode fuel types = AssertionError message ->
  exists before type after,
    types = before ++ type :: after
    /\ (forall t, In t before -> supportedType types t)
    /\ match type with
       | struct _ _ _ => generateWalkForStruct type types
       | enum _ _ _ _ => generateWalkForEnum fuel type types
       end = AssertionError message.
Proof.
  unfold generateWalkFunctionsCode. intros H.
  destruct (walkMethods fuel types types) as [fns|m|] eqn:E; simpl in H; try discriminate.
  inversion H; subst m.
  destruct (walkMethods_first_failure _ _ _ _ E) as (before & type & after & fs & V & B & F).
  exists before, type, after. split; [exact V|]. split; [|exact F].
  intros t Ht. apply walkMethods_Forall2 in B.
  destruct (Forall2_In_l _ _ _ _ B Ht) as (fn & _ & G).
  apply supportedType_generated. exists fuel, fn. exact G.
Qed.

End ErrorFacts.

Lemma struct_walk_error_witness :
  exists before field after,
    visitedFields (U := Sample.utils) boxedElements boxedElementsTypes
    = before ++ field :: after
    /\ (forall f, In f before ->
          In (snd (typeAndWrappers (Utils := Sample.utils) (Field.type f))) supportedChains)
    /\ ~ In (snd (typeAndWrappers (Utils := Sample.utils) (Field.type field)))
            supportedChains
    /\ ("Cannot handle struct field with type Vec<Box<Expression>>"
        = ("Cannot handle struct field with type " ++ Field.type field)%string
        \/ "Cannot handle struct field with type Vec<Box<Expression>>"
           = ("Cannot handle struct field with type: " ++ Field.type field)%string).
Proof.
  apply (struct_walk_error (U := Sample.utils) boxedElements boxedElementsTypes
           "Cannot handle struct field with type Vec<Box<Expression>>").
  by_computation.
Defined.


Lemma walk_code_error_witness :
  exists before type after,
    boxedElementsTypes = before ++ type :: after
    /\ (forall t, In t before -> supportedType (U := Sample.utils) boxedElementsTypes t)
    /\ match type with
       | struct _ _ _ => generateWalkForStruct (U := Sample.utils) type boxedElementsTypes
       | enum _ _ _ _ => generateWalkForEnum (U := Sample.utils) 8 type boxedElementsTypes
       end = AssertionError "Cannot handle struct field with type Vec<Box<Expression>>".
Proof.
  apply (walk_code_error (U := Sample.utils) 8 boxedElementsTypes
           "Cannot handle struct field with type Vec<Box<Expression>>").
  by_computation.
Defined.

(** * Unsupported catalogues *)

Section UnsupportedFacts.
Context {U : Utils}.








End UnsupportedFacts.





(** * The walk of a struct *)

Section StructWalk.
Context {U : Utils}.



End StructWalk.

